(** * Content Optimizer Pro: the post-processing pipeline of [schema-generator.tsx]

    A shallow embedding of the deterministic repair and validation passes of
    the generator (word-count gate, retry controller, JSON extractor, internal
    link engine, video guardian, content normaliser) together with the
    properties the specification states about them, and of the helpers
    around them: video selection, HTML snippet cleaning, pattern escaping,
    the writing score, the response cache, the items reducer, the two fetch
    functions and the slug extraction, with the properties their code shows.

    JavaScript strings are modelled as lists of code units.  The development
    covers code units below 256 (the Latin-1 range), which is where every
    character the passes inspect lives; [\s], [toLowerCase] and the
    case-insensitive comparison of the [i] flag are the restrictions of the
    ECMAScript definitions to that range.  The scores of the link repair
    are JavaScript numbers: they are modelled by the binary64 floats of the
    kernel, whose operations round as the IEEE 754 operations of the
    language do. *)

From Stdlib Require Import PrimFloat.
From Stdlib Require Uint63 FloatAxioms SpecFloat.
From Stdlib Require Import Ascii String DecimalString.
From Stdlib Require Import NArith ZArith QArith Bool Lia Arith List.
Import ListNotations.

Local Open Scope list_scope.
Local Open Scope nat_scope.

(* ------------------------------------------------------------------ *)
(** ** Strings of code units *)

Module Js.

Definition str := list ascii.

Definition lit (s : string) : str := list_ascii_of_string s.

(** The double quote, and literals in which an apostrophe stands for it. *)
Definition dq : ascii := "034"%char.

Definition js (s : string) : str :=
  map (fun c => if Ascii.eqb c "'"%char then dq else c) (lit s).

Definition code (c : ascii) : N := N_of_ascii c.

Definition in_range (lo hi : N) (c : ascii) : bool :=
  (N.leb lo (code c) && N.leb (code c) hi)%bool.

Definition one_of (s : string) (c : ascii) : bool :=
  existsb (Ascii.eqb c) (lit s).

Definition none_of (s : string) (c : ascii) : bool := negb (one_of s c).

(** [\s]: WhiteSpace and LineTerminator below 256. *)
Definition is_space (c : ascii) : bool :=
  (in_range 9 13 c || N.eqb (code c) 32 || N.eqb (code c) 160)%bool.

Definition is_digit (c : ascii) : bool := in_range 48 57 c.

(** [\w] is [[A-Za-z0-9_]]. *)
Definition is_word (c : ascii) : bool :=
  (in_range 65 90 c || in_range 97 122 c || is_digit c || N.eqb (code c) 95)%bool.

Definition lower_char (c : ascii) : ascii :=
  if (in_range 65 90 c || (in_range 192 222 c && negb (N.eqb (code c) 215)))%bool
  then ascii_of_N (code c + 32) else c.

(** Canonicalize of the [i] flag (simple upper-casing). *)
Definition canon_char (c : ascii) : ascii :=
  if (in_range 97 122 c || (in_range 224 254 c && negb (N.eqb (code c) 247)))%bool
  then ascii_of_N (code c - 32) else c.

Definition toLowerCase (s : str) : str := map lower_char s.

Fixpoint str_eqb (s t : str) : bool :=
  match s, t with
  | [], [] => true
  | x :: s', y :: t' => (Ascii.eqb x y && str_eqb s' t')%bool
  | _, _ => false
  end.

(** A string is truthy when it is not empty. *)
Definition truthy (s : str) : bool := negb (str_eqb s []).

(** [strip_prefix p s] is the rest of [s] after its prefix [p]. *)
Fixpoint strip_prefix (p s : str) : option str :=
  match p with
  | [] => Some s
  | c :: p' =>
      match s with
      | x :: s' => if Ascii.eqb c x then strip_prefix p' s' else None
      | [] => None
      end
  end.

Definition starts_with (p s : str) : bool :=
  match strip_prefix p s with Some _ => true | None => false end.

(** [s.indexOf(t)] as an option, and [s.includes(t)]. *)
Fixpoint index_from (i : nat) (t s : str) : option nat :=
  if starts_with t s then Some i
  else match s with
       | [] => None
       | _ :: s' => index_from (S i) t s'
       end.

Definition indexOf (t s : str) : option nat := index_from 0 t s.

Definition includes (s t : str) : bool :=
  match indexOf t s with Some _ => true | None => false end.

Definition substring (i j : nat) (s : str) : str := firstn (j - i) (skipn i s).

Definition drop_while (p : ascii -> bool) : str -> str :=
  fix go (s : str) : str :=
    match s with
    | x :: s' => if p x then go s' else s
    | [] => []
    end.

Definition trim (s : str) : str :=
  rev (drop_while is_space (rev (drop_while is_space s))).

Fixpoint repeat_str (s : str) (n : nat) : str :=
  match n with
  | O => []
  | S n' => s ++ repeat_str s n'
  end.

(** [a.join(sep)]. *)
Fixpoint join (sep : str) (l : list str) : str :=
  match l with
  | [] => []
  | [x] => x
  | x :: l' => x ++ sep ++ join sep l'
  end.

(** [s.split(sep)] for a non-empty literal separator: the pieces between the
    successive occurrences of [sep], found left to right without overlap.
    [cur] is the piece being read, reversed; [skip] counts the characters of
    an occurrence still to be passed over. *)
Fixpoint split_go (sep : str) (cur : str) (s : str) (skip : nat) : list str :=
  match s with
  | [] => [rev cur]
  | x :: s' =>
      match skip with
      | S n => split_go sep cur s' n
      | O =>
          if starts_with sep s
          then rev cur :: split_go sep [] s' (length sep - 1)
          else split_go sep (x :: cur) s' 0
      end
  end.

Definition split (sep : str) (s : str) : list str := split_go sep [] s 0.

(** Decimal rendering of a number inside a template literal. *)
Definition string_of_Z (z : Z) : str :=
  lit (NilZero.string_of_int (Z.to_int z)).

End Js.

Import Js.

(* ------------------------------------------------------------------ *)
(** ** Regular expressions

    The patterns of the source are written as terms of [regex] and run by a
    backtracking matcher with the priorities of the ECMAScript one: greedy
    quantifiers try the longest repetition first, and what follows a
    quantifier is the continuation [k], so that a failure further on comes
    back to the shorter repetitions.  Every quantified atom of the source's
    patterns is a character class, so the quantifiers here range over
    classes. *)

Module Re.

Inductive regex : Type :=
| Eps
| Lit (s : str)                        (* a literal run of characters *)
| Cls (p : ascii -> bool)              (* one character of a class *)
| Seq (r1 r2 : regex)
| Opt (r : regex)                      (* r? *)
| Star (p : ascii -> bool)             (* [p]* *)
| Plus (p : ascii -> bool)             (* [p]+ *)
| Rep (n : nat) (p : ascii -> bool)    (* [p]{n} *)
| Grp (r : regex)                      (* capturing group *)
| Ahead (r : regex)                    (* (?=r) *)
| Behind (p : ascii -> bool)           (* (?<=[p]) *)
| Bol                                  (* ^ *)
| Eol.                                 (* $ *)

(** A match: the matched text, the captures in order, the text after it. *)
Record hit : Type := mkHit { h_text : str; h_caps : list str; h_rest : str }.

Section Matcher.

(** The [i] flag. *)
Variable ci : bool.

Definition chr_eq (c x : ascii) : bool :=
  if ci then Ascii.eqb (canon_char c) (canon_char x) else Ascii.eqb c x.

(** In the three loops below [m] is the text matched so far, reversed, and
    [a] the text ahead. *)
Fixpoint lits {R : Type} (s m a : str) (k : str -> str -> option R) : option R :=
  match s with
  | [] => k m a
  | c :: s' =>
      match a with
      | x :: a' => if chr_eq c x then lits s' (x :: m) a' k else None
      | [] => None
      end
  end.

Fixpoint star {R : Type} (p : ascii -> bool) (m a : str)
    (k : str -> str -> option R) : option R :=
  match a with
  | x :: a' =>
      if p x
      then match star p (x :: m) a' k with
           | Some r => Some r
           | None => k m a
           end
      else k m a
  | [] => k m a
  end.

Fixpoint rep {R : Type} (n : nat) (p : ascii -> bool) (m a : str)
    (k : str -> str -> option R) : option R :=
  match n with
  | O => k m a
  | S n' =>
      match a with
      | x :: a' => if p x then rep n' p (x :: m) a' k else None
      | [] => None
      end
  end.

(** The text consumed between the positions [m] and [m']. *)
Definition consumed (m m' : str) : str := rev (firstn (length m' - length m) m').

(** The character before the current position; [pre] is the subject before
    the start of the match, reversed. *)
Definition previous (pre m : str) : option ascii :=
  match m with
  | x :: _ => Some x
  | [] => match pre with x :: _ => Some x | [] => None end
  end.

(** [run r pre m a caps k] matches [r] at the position [m]/[a] with the
    captures [caps] made so far and goes on with [k]. *)
Fixpoint run (r : regex) (R : Type) (pre m a : str) (caps : list str)
    (k : str -> str -> list str -> option R) {struct r} : option R :=
  match r with
  | Eps => k m a caps
  | Lit s => lits s m a (fun m' a' => k m' a' caps)
  | Cls p =>
      match a with
      | x :: a' => if p x then k (x :: m) a' caps else None
      | [] => None
      end
  | Seq r1 r2 => run r1 R pre m a caps (fun m' a' caps' => run r2 R pre m' a' caps' k)
  | Opt r1 =>
      match run r1 R pre m a caps k with
      | Some x => Some x
      | None => k m a caps
      end
  | Star p => star p m a (fun m' a' => k m' a' caps)
  | Plus p =>
      match a with
      | x :: a' => if p x then star p (x :: m) a' (fun m' a' => k m' a' caps) else None
      | [] => None
      end
  | Rep n p => rep n p m a (fun m' a' => k m' a' caps)
  | Grp r1 => run r1 R pre m a caps (fun m' a' caps' => k m' a' (caps' ++ [consumed m m']))
  | Ahead r1 =>
      match run r1 (list str) pre m a caps (fun _ _ caps' => Some caps') with
      | Some caps' => k m a caps'
      | None => None
      end
  | Behind p =>
      match previous pre m with
      | Some x => if p x then k m a caps else None
      | None => None
      end
  | Bol =>
      match previous pre m with
      | None => k m a caps
      | Some _ => None
      end
  | Eol => match a with [] => k m a caps | _ :: _ => None end
  end.

(** One attempt at the position between [b] (reversed) and [a]. *)
Definition exec (r : regex) (b a : str) : option hit :=
  run r hit b [] a [] (fun m' a' caps => Some (mkHit (rev m') caps a')).

(** A global scan cuts the subject into the characters outside any match
    and the matches, left to right; after a match the scan resumes behind it
    (one character further when the match is empty). *)
Inductive chunk : Type :=
| Plain (c : ascii)
| Hit (h : hit).

Fixpoint chunks (r : regex) (b a : str) (skip : nat) : list chunk :=
  match a with
  | [] =>
      match skip with
      | O => match exec r b [] with Some h => [Hit h] | None => [] end
      | S _ => []
      end
  | x :: a' =>
      match skip with
      | S n => chunks r (x :: b) a' n
      | O =>
          match exec r b a with
          | Some h =>
              match length (h_text h) with
              | O => Hit h :: Plain x :: chunks r (x :: b) a' 0
              | S n => Hit h :: chunks r (x :: b) a' n
              end
          | None => Plain x :: chunks r (x :: b) a' 0
          end
      end
  end.

Definition scan (r : regex) (s : str) : list chunk := chunks r [] s 0.

(** [s.replace(/r/g, f)]. *)
Definition emit (f : hit -> str) (c : chunk) : str :=
  match c with Plain x => [x] | Hit h => f h end.

Definition replaceAll (r : regex) (f : hit -> str) (s : str) : str :=
  concat (map (emit f) (scan r s)).

(** [[...s.matchAll(/r/g)]], each match with its index. *)
Fixpoint hits_from (i : nat) (l : list chunk) : list (nat * hit) :=
  match l with
  | [] => []
  | Plain _ :: l' => hits_from (S i) l'
  | Hit h :: l' => (i, h) :: hits_from (i + length (h_text h)) l'
  end.

Definition matchAll (r : regex) (s : str) : list (nat * hit) :=
  hits_from 0 (scan r s).

(** [s.match(/r/)] and [s.replace(/r/, f)] without the [g] flag: the first
    match only.  [pre] is the text already passed, reversed. *)
Fixpoint search_from (r : regex) (b a : str) : option (str * hit) :=
  match exec r b a with
  | Some h => Some (rev b, h)
  | None =>
      match a with
      | [] => None
      | x :: a' => search_from r (x :: b) a'
      end
  end.

Definition search (r : regex) (s : str) : option hit :=
  match search_from r [] s with Some (_, h) => Some h | None => None end.

Definition replaceFirst (r : regex) (f : hit -> str) (s : str) : str :=
  match search_from r [] s with
  | Some (pre, h) => pre ++ f h ++ h_rest h
  | None => s
  end.

(** [s.split(/r/)] for a pattern that never matches the empty string. *)
Fixpoint pieces (cur : str) (l : list chunk) : list str :=
  match l with
  | [] => [rev cur]
  | Plain x :: l' => pieces (x :: cur) l'
  | Hit _ :: l' => rev cur :: pieces [] l'
  end.

Definition splitRe (r : regex) (s : str) : list str := pieces [] (scan r s).

End Matcher.

(** The [n]-th capture of a match, counted from 1 as in [match[n]]. *)
Definition cap (n : nat) (h : hit) : str := nth (n - 1) (h_caps h) [].

End Re.

Import Re.

(* ------------------------------------------------------------------ *)
(** ** Console output

    The model keeps what the quality gate prints as a list of events,
    oldest first; what the other passes print is left out. *)

Inductive Console : Type :=
| ConsoleLog (msg : str)
| ConsoleWarn (msg : str)
| ConsoleError (msg : str).

(* ------------------------------------------------------------------ *)
(** ** Quality gate: [enforceWordCount] *)

(** [class ContentTooShortError extends Error]. *)
Record ContentTooShortError : Type := mkContentTooShort {
  cts_message : str;
  cts_content : str;
  cts_wordCount : nat
}.

(** [/<[^>]*>/g] and [/\s+/]. *)
Definition tagRe : regex := Seq (Lit (lit "<")) (Seq (Star (none_of ">")) (Lit (lit ">"))).
Definition spacesRe : regex := Plus is_space.

Definition blank (_ : hit) : str := lit " ".

(** Lines 310-312: the text without tags, and its words. *)
Definition textOnly (content : str) : str :=
  trim (replaceAll false spacesRe blank (replaceAll false tagRe blank content)).

Definition wordsOf (content : str) : list str :=
  filter (fun w => 0 <? length w) (splitRe false spacesRe (textOnly content)).

Definition wordCountOf (content : str) : nat := length (wordsOf content).

Definition tooShortMessage (wordCount : nat) (minWords : Z) : str :=
  lit "CONTENT TOO SHORT: " ++ string_of_Z (Z.of_nat wordCount)
    ++ lit " words (minimum " ++ string_of_Z minWords ++ lit " required)".

(** The two lines the gate prints, without the pictograph each starts
    with. *)
Definition wordCountLine (wordCount : nat) (minWords maxWords : Z) : str :=
  lit "Word Count: " ++ string_of_Z (Z.of_nat wordCount) ++ lit " (target: "
    ++ string_of_Z minWords ++ lit "-" ++ string_of_Z maxWords ++ lit ")".

Definition overTargetLine (wordCount : nat) (maxWords : Z) : str :=
  lit "Content is " ++ string_of_Z (Z.of_nat wordCount - maxWords) ++ lit " words over target".

(** The function returns the count or throws; either way it has printed. *)
Definition enforceWordCount (content : str) (minWords maxWords : Z)
    : list Console * (ContentTooShortError + nat) :=
  let wordCount := wordCountOf content in
  let out := [ConsoleLog (wordCountLine wordCount minWords maxWords)] in
  if (Z.of_nat wordCount <? minWords)%Z
  then (out, inl (mkContentTooShort (tooShortMessage wordCount minWords) content wordCount))
  else if (Z.of_nat wordCount >? maxWords)%Z
       then (out ++ [ConsoleWarn (overTargetLine wordCount maxWords)], inr wordCount)
       else (out, inr wordCount).

(** A body of 500 words: a two-word heading and 498 words of text. *)
Definition fiveHundredWords : str :=
  js "<h2 class='t'>Title  here</h2>" ++ lit "<p>" ++ repeat_str (lit "word ") 498 ++ lit "</p>".

(* ------------------------------------------------------------------ *)
(** ** Retry controller: [callAiWithRetry] *)

(** What the handler reads of a rejected call: [error.message],
    [error.status] and the [retry-after] header (from [error.headers] or
    [error.response.headers]), absent when falsy. *)
Record AiError : Type := mkAiError {
  err_message : str;
  err_status : option Z;
  err_retryAfter : option str
}.

Inductive Outcome (A : Type) : Type :=
| Resolved (v : A)
| Rejected (e : AiError).
Arguments Resolved {A} v.
Arguments Rejected {A} e.

(** How the call ends: it returns, rethrows the error object it caught, or
    throws a new [Error] with the given message. *)
Inductive Completion (A : Type) : Type :=
| Returned (v : A)
| Rethrown (e : AiError)
| NewError (msg : str).
Arguments Returned {A} v.
Arguments Rethrown {A} e.
Arguments NewError {A} msg.

(** The steps visible from outside: invocations of the operation and the
    waits.  Console output is left out of this model. *)
Inductive RetryEvent : Type :=
| Invoke (attempt : nat)
| Sleep (delayMs : Q).

(** What the run cannot compute by itself: [Math.random()], the clock and
    [new Date(s).getTime()] ([None] for NaN), at a given attempt. *)
Record Ambient : Type := mkAmbient {
  random : nat -> Q;
  now : nat -> Q;
  dateParse : str -> option Q
}.

(** [/\[(\d{3})[^\]]*\]/] *)
Definition statusRe : regex :=
  Seq (Lit (lit "[")) (Seq (Grp (Rep 3 is_digit)) (Seq (Star (none_of "]")) (Lit (lit "]")))).

Definition digit_val (c : ascii) : Z := Z.of_N (code c) - 48.

Fixpoint digits_val (acc : Z) (s : str) : Z :=
  match s with
  | x :: s' => if is_digit x then digits_val (10 * acc + digit_val x) s' else acc
  | [] => acc
  end.

(** [parseInt(s, 10)]; [None] is NaN. *)
Definition parseInt10 (s : str) : option Z :=
  let t := drop_while is_space s in
  let '(neg, u) :=
    match t with
    | x :: t' => if Ascii.eqb x "-" then (true, t')
                 else if Ascii.eqb x "+" then (false, t') else (false, t)
    | [] => (false, t)
    end in
  match u with
  | x :: _ => if is_digit x
              then Some (if neg then - digits_val 0 u else digits_val 0 u)%Z
              else None
  | [] => None
  end.

Definition truthyNum (z : option Z) : option Z :=
  match z with
  | Some n => if (n =? 0)%Z then None else Some n
  | None => None
  end.

(** Lines 703-706. *)
Definition errorMessageOf (e : AiError) : str := toLowerCase (err_message e).

Definition statusCodeOf (e : AiError) : option Z :=
  match truthyNum (err_status e) with
  | Some n => Some n
  | None =>
      match search false statusRe (errorMessageOf e) with
      | Some h => parseInt10 (cap 1 h)
      | None => None
      end
  end.

(** Lines 708-712: the errors that are not retried. *)
Definition isNonRetriableClientError (e : AiError) : bool :=
  match truthyNum (statusCodeOf e) with
  | Some n => ((400 <=? n) && (n <? 500) && negb (n =? 429))%Z
  | None => false
  end.

Definition isContextLengthError (e : AiError) : bool :=
  (includes (errorMessageOf e) (lit "context length")
   || includes (errorMessageOf e) (lit "token limit"))%bool.

Definition isInvalidApiKeyError (e : AiError) : bool :=
  includes (errorMessageOf e) (lit "api key not valid").

Definition failsFast (e : AiError) : bool :=
  (isNonRetriableClientError e || isContextLengthError e || isInvalidApiKeyError e)%bool.

Definition exponentialDelay (amb : Ambient) (initialDelay : Q) (attempt : nat) : Q :=
  (initialDelay * (2 ^ Z.of_nat attempt) + random amb attempt * 1000)%Q.

Definition is429 (z : option Z) : bool :=
  match z with Some n => (n =? 429)%Z | None => false end.

(** Lines 723-756. *)
Definition delayFor (amb : Ambient) (initialDelay : Q) (attempt : nat) (e : AiError) : Q :=
  if (is429 (err_status e) || is429 (statusCodeOf e))%bool
  then match err_retryAfter e with
       | Some header =>
           if negb (truthy header) then exponentialDelay amb initialDelay attempt
           else
           match parseInt10 header with
           | Some retryAfterSeconds => (inject_Z retryAfterSeconds * 1000 + 500)%Q
           | None =>
               match dateParse amb header with
               | Some retryDate => (retryDate - now amb attempt + 500)%Q
               | None => exponentialDelay amb initialDelay attempt
               end
           end
       | None => exponentialDelay amb initialDelay attempt
       end
  else exponentialDelay amb initialDelay attempt.

Section Retry.

Context {A : Type}.

(** The operation, by invocation number. *)
Variable apiCall : nat -> Outcome A.
Variable amb : Ambient.
Variable maxRetries : Z.
Variable initialDelay : Q.

(** The [for] loop of lines 697-761.  [left] is the number of iterations the
    loop condition [attempt < maxRetries] still allows. *)
Fixpoint attempts (left : nat) (attempt : nat) : list RetryEvent * Completion A :=
  match left with
  | O => ([], NewError (lit "AI call failed after all retries."))
  | S left' =>
      match apiCall attempt with
      | Resolved v => ([Invoke attempt], Returned v)
      | Rejected error =>
          if failsFast error then ([Invoke attempt], Rethrown error)
          else if (Z.of_nat attempt =? maxRetries - 1)%Z then ([Invoke attempt], Rethrown error)
          else
            let '(evs, c) := attempts left' (S attempt) in
            (Invoke attempt :: Sleep (delayFor amb initialDelay attempt error) :: evs, c)
      end
  end.

Definition callAiWithRetry : list RetryEvent * Completion A :=
  attempts (Z.to_nat maxRetries) 0.

End Retry.

Definition invocations (evs : list RetryEvent) : nat :=
  length (filter (fun ev => match ev with Invoke _ => true | Sleep _ => false end) evs).

Definition noJitter : Ambient := mkAmbient (fun _ => 0%Q) (fun _ => 0%Q) (fun _ => None).

Definition serviceUnavailable : AiError :=
  mkAiError (lit "[503 Service Unavailable] The model is overloaded") None None.

(* ------------------------------------------------------------------ *)
(** ** Internal link engine *)

(** A sitemap page as the link passes read it: [id] is the full URL.  A
    field that is missing or empty is the empty string here; the passes only
    test these fields for truthiness. *)
Record Page : Type := mkPage {
  p_id : str;
  p_title : str;
  p_slug : str
}.

Definition not_dq (c : ascii) : bool := negb (Ascii.eqb c dq).

Definition seqs (l : list regex) : regex := fold_right Seq Eps l.

(** [/\[INTERNAL_LINK\s+slug='([^']+)'\s+text='([^']+)'\]/g], the quotes
    being double quotes (lines 1017 and 1197). *)
Definition placeholderRegex : regex :=
  seqs [Lit (lit "[INTERNAL_LINK"); Plus is_space; Lit (js "slug='"); Grp (Plus not_dq);
        Lit (js "'"); Plus is_space; Lit (js "text='"); Grp (Plus not_dq); Lit (js "']")].

(** The same pattern as line 1103 writes it: without capturing groups. *)
Definition placeholderRegexNoGroups : regex :=
  seqs [Lit (lit "[INTERNAL_LINK"); Plus is_space; Lit (js "slug='"); Plus not_dq;
        Lit (js "'"); Plus is_space; Lit (js "text='"); Plus not_dq; Lit (js "']")].

Definition placeholder (slug text : str) : str :=
  js "[INTERNAL_LINK slug='" ++ slug ++ js "' text='" ++ text ++ js "']".

(** [text.replace(/'/g, '&quot;')] on double quotes. *)
Definition escapeQuotes (text : str) : str :=
  replaceAll false (Lit [dq]) (fun _ => lit "&quot;") text.

(** [new Map(entries)]: a later entry for a key replaces an earlier one. *)
Fixpoint mapGet (m : list (str * Page)) (k : str) : option Page :=
  match m with
  | [] => None
  | (k', v) :: m' =>
      match mapGet m' k with
      | Some p => Some p
      | None => if str_eqb k' k then Some v else None
      end
  end.

Definition mapHas (m : list (str * Page)) (k : str) : bool :=
  match mapGet m k with Some _ => true | None => false end.

(** [new Set(words)], in insertion order. *)
Fixpoint setOf (l : list str) : list str :=
  match l with
  | [] => []
  | x :: l' => x :: filter (fun y => negb (str_eqb x y)) (setOf l')
  end.

Definition setHas (s : list str) (x : str) : bool := existsb (str_eqb x) s.

(** [s.split(/\s+/).filter(w => w.length > 2)] *)
Definition meaningfulWords (s : str) : list str :=
  filter (fun w => 2 <? length w) (splitRe false spacesRe s).

(** The scores are JavaScript numbers: IEEE 754 binary64 values, with the
    operations [+], [/], [*] and the comparison [>] of that arithmetic
    (round to nearest, ties to even).  [numberOf] is the number a [size] or
    a [length] is; it is exact below 2^53. *)
Definition numberOf (n : nat) : float := of_uint63 (Uint63.of_Z (Z.of_nat n)).

(** [(part / whole) * 100], lines 1065-1066. *)
Definition percent (part whole : nat) : float :=
  (numberOf part / numberOf whole * 100)%float.

(** One turn of the scoring loop of lines 1034-1076.  [None] stands for
    [continue]: the page leaves the running best as it is. *)
Definition scoreOf (anchorTextLower : str) (anchorWordSet : list str) (page : Page)
    : option float :=
  if (negb (truthy (p_slug page)) || negb (truthy (p_title page)))%bool then None
  else
    let titleLower := toLowerCase (p_title page) in
    let s0 := 0%float in
    let s1 := if str_eqb titleLower anchorTextLower then (s0 + 100)%float else s0 in
    let s2 := if includes titleLower anchorTextLower then (s1 + 60)%float else s1 in
    let s3 := if includes anchorTextLower titleLower then (s2 + 50)%float else s2 in
    let titleWords := meaningfulWords titleLower in
    if length titleWords =? 0 then None
    else
      let titleWordSet := setOf titleWords in
      let intersection := filter (setHas titleWordSet) anchorWordSet in
      Some (if 0 <? length intersection
            then
              let anchorMatchPercentage := percent (length intersection) (length anchorWordSet) in
              let titleMatchPercentage := percent (length intersection) (length titleWordSet) in
              let overlapScore :=
                ((anchorMatchPercentage + titleMatchPercentage) / 2)%float in
              (s3 + overlapScore)%float
            else s3).

Definition bestOf (anchorTextLower : str) (anchorWordSet : list str)
    (availablePages : list Page) : option Page * float :=
  fold_left
    (fun (acc : option Page * float) page =>
       match scoreOf anchorTextLower anchorWordSet page with
       | Some currentScore =>
           if (snd acc <? currentScore)%float then (Some page, currentScore) else acc
       | None => acc
       end)
    availablePages (None, (-1)%float).

(** The callback of line 1019. *)
Definition repairOne (availablePages : list Page) (h : hit) : str :=
  let slug := cap 1 h in
  let text := cap 2 h in
  let pagesBySlug := map (fun p => (p_slug p, p)) availablePages in
  if mapHas pagesBySlug slug then h_text h
  else
    let anchorTextLower := toLowerCase text in
    let anchorWordSet := setOf (meaningfulWords anchorTextLower) in
    match bestOf anchorTextLower anchorWordSet availablePages with
    | (Some bestMatch, highestScore) =>
        if (50 <? highestScore)%float
        then placeholder (p_slug bestMatch) (escapeQuotes text)
        else text
    | (None, _) => text
    end.

(** [availablePages] is [None] when the caller passes [null] or
    [undefined]. *)
Definition validateAndRepairInternalLinks (content : str) (availablePages : option (list Page))
    : str :=
  match availablePages with
  | None => content
  | Some pages =>
      if (negb (truthy content) || (length pages =? 0))%bool then content
      else replaceAll false placeholderRegex (repairOne pages) content
  end.

(** *** [enforceInternalLinkQuota] *)

(** [match[n]] where the pattern may have no such group: [None] is
    [undefined]. *)
Definition capOpt (n : nat) (h : hit) : option str := nth_error (h_caps h) (n - 1).

Definition optStrEqb (x y : option str) : bool :=
  match x, y with
  | Some s, Some t => str_eqb s t
  | None, None => true
  | _, _ => false
  end.

(** [.filter((v, i, a) => a.indexOf(v) === i && v.length > 10)] *)
Fixpoint uniqueLong (seen : list str) (l : list str) : list str :=
  match l with
  | [] => []
  | v :: l' =>
      if (negb (setHas seen v) && (10 <? length v))%bool
      then v :: uniqueLong (v :: seen) l'
      else uniqueLong (v :: seen) l'
  end.

(** [.sort((a, b) => b.length - a.length)]: stable, longest first. *)
Fixpoint insertByLength (x : str) (l : list str) : list str :=
  match l with
  | [] => [x]
  | y :: l' => if length y <? length x then x :: l else y :: insertByLength x l'
  end.

Definition sortLongestFirst (l : list str) : list str :=
  fold_left (fun acc x => insertByLength x acc) l [].

(** Lines 1122-1129. *)
Definition searchTermsOf (title : str) : list str :=
  let words := split (lit " ") title in
  sortLongestFirst
    (uniqueLong []
       ([title]
        ++ (if 4 <? length words then [join (lit " ") (removelast words)] else [])
        ++ (if 3 <? length words then [join (lit " ") (tl words)] else []))).

(** Lines 1117-1133.  [linkedSlugs] holds what [match[1]] gave for each
    existing placeholder. *)
Definition candidatePagesOf (linkedSlugs : list (option str)) (availablePages : list Page)
    : list (Page * list str) :=
  filter (fun c => 0 <? length (snd c))
    (map (fun page => (page, searchTermsOf (p_title page)))
       (filter (fun p => (truthy (p_slug p) && truthy (p_title p)
                          && negb (existsb (optStrEqb (Some (p_slug p))) linkedSlugs)
                          && (2 <? length (split (lit " ") (p_title p))))%bool)
          availablePages)).

(** The pattern of line 1148 for one term, run with the flags [gi];
    [escapeRegExp] makes every character of the term a literal. *)
Definition searchRegex (term : str) : regex :=
  seqs [Behind (fun c => (one_of ">(" c || is_space c)%bool);
        Grp (Lit term);
        Ahead (Cls (fun c => (one_of "<.,!?)" c || is_space c)%bool))].

(** The callback of lines 1151-1163 over the matches in order: the first
    match becomes a placeholder, the others stay. *)
Fixpoint injectOnce (slug : str) (firstMatchReplaced : bool) (l : list chunk) : bool * str :=
  match l with
  | [] => (firstMatchReplaced, [])
  | Plain x :: l' =>
      let '(placed, out) := injectOnce slug firstMatchReplaced l' in (placed, x :: out)
  | Hit h :: l' =>
      if firstMatchReplaced
      then let '(placed, out) := injectOnce slug true l' in (placed, h_text h ++ out)
      else let '(placed, out) := injectOnce slug true l' in
           (placed, placeholder slug (h_text h) ++ out)
  end.

(** The inner loop of lines 1143-1170: the first term that matches places
    the link. *)
Fixpoint placeLink (slug : str) (searchTerms : list str) (newContent : str) : option str :=
  match searchTerms with
  | [] => None
  | term :: rest =>
      match injectOnce slug false (scan true (searchRegex term) newContent) with
      | (true, tempContent) => Some tempContent
      | (false, _) => placeLink slug rest newContent
      end
  end.

Record QuotaState : Type := mkQuotaState {
  deficit : Z;
  newlyLinkedSlugs : list str;
  newContent : str
}.

(** One turn of the loop of lines 1138-1171; once [deficit <= 0] the loop
    has stopped and the remaining pages change nothing. *)
Definition quotaStep (st : QuotaState) (candidate : Page * list str) : QuotaState :=
  let page := fst candidate in
  if (deficit st <=? 0)%Z then st
  else if setHas (newlyLinkedSlugs st) (p_slug page) then st
  else match placeLink (p_slug page) (snd candidate) (newContent st) with
       | Some tempContent =>
           mkQuotaState (deficit st - 1) (p_slug page :: newlyLinkedSlugs st) tempContent
       | None => st
       end.

Definition enforceInternalLinkQuota (content : str) (availablePages : option (list Page))
    (primaryKeyword : str) (minLinks : Z) : str :=
  match availablePages with
  | None => content
  | Some pages =>
      if length pages =? 0 then content
      else
        let existingLinks := matchAll false placeholderRegexNoGroups content in
        let linkedSlugs := map (fun m => capOpt 1 (snd m)) existingLinks in
        let deficit0 := (minLinks - Z.of_nat (length existingLinks))%Z in
        if (deficit0 <=? 0)%Z then content
        else
          newContent
            (fold_left quotaStep (candidatePagesOf linkedSlugs pages)
               (mkQuotaState deficit0 [] content))
  end.

(** *** [processInternalLinks] and [sanitizeBrokenPlaceholders] *)

Fixpoint concatOpt (l : list (option str)) : option str :=
  match l with
  | [] => Some []
  | None :: _ => None
  | Some s :: l' => match concatOpt l' with Some t => Some (s ++ t) | None => None end
  end.

(** [s.replace(/r/g, f)] for a callback that may throw: the first call that
    throws ends the replacement. *)
Definition replaceAllOpt (ci : bool) (r : regex) (f : hit -> option str) (s : str) : option str :=
  concatOpt (map (fun c => match c with Plain x => Some [x] | Hit h => f h end) (scan ci r s)).

Section Resolve.

(** Lines 1206-1210: [new URL(id)], the three [searchParams.set] calls and
    [toString()].  The URL class belongs to the platform; [None] is the
    [TypeError] its constructor throws on an invalid URL. *)
Variable utmUrl : str -> option str.

Definition resolveOne (availablePages : list Page) (h : hit) : option str :=
  let slug := cap 1 h in
  let text := cap 2 h in
  let pagesBySlug :=
    map (fun p => (p_slug p, p)) (filter (fun p => truthy (p_slug p)) availablePages) in
  match mapGet pagesBySlug slug with
  | Some page =>
      if truthy (p_id page)
      then match utmUrl (p_id page) with
           | Some finalUrl =>
               Some (js "<a href='" ++ finalUrl ++ js "'>" ++ escapeQuotes text ++ lit "</a>")
           | None => None
           end
      else Some text
  | None => Some text
  end.

(** [None] when the pass throws. *)
Definition processInternalLinks (content : str) (availablePages : option (list Page))
    : option str :=
  match availablePages with
  | None => Some content
  | Some pages =>
      if (negb (truthy content) || (length pages =? 0))%bool then Some content
      else replaceAllOpt false placeholderRegex (resolveOne pages) content
  end.

End Resolve.

(** [/\\[INTERNAL_LINK[^\\]]*\\]/g], and the two attribute patterns of lines
    1232-1233. *)
Definition brokenRegex : regex :=
  seqs [Lit (lit "[INTERNAL_LINK"); Star (none_of "]"); Lit (lit "]")].

Definition slugAttr : regex := seqs [Lit (js "slug='"); Grp (Plus not_dq); Lit (js "'")].
Definition textAttr : regex := seqs [Lit (js "text='"); Grp (Plus not_dq); Lit (js "'")].

Definition attrOf (r : regex) (token : str) : option str :=
  match search false r token with
  | Some h => if truthy (cap 1 h) then Some (cap 1 h) else None
  | None => None
  end.

(** The test of line 1236. *)
Definition isValidToken (token : str) : bool :=
  match attrOf slugAttr token, attrOf textAttr token with
  | Some _, Some _ => true
  | _, _ => false
  end.

Definition sanitizeOne (h : hit) : str :=
  if isValidToken (h_text h) then h_text h
  else match attrOf textAttr (h_text h) with
       | Some text => text
       | None => []
       end.

Definition sanitizeBrokenPlaceholders (content : str) : str :=
  replaceAll false brokenRegex sanitizeOne content.

Definition MIN_INTERNAL_LINKS : Z := 8.

Definition bindOpt {A B : Type} (x : option A) (f : A -> option B) : option B :=
  match x with Some a => f a | None => None end.

(** The chain as the orchestrator runs it (lines 4061-4064). *)
Definition finalizeLinks (utmUrl : str -> option str) (finalContent : str)
    (existingPages : option (list Page)) (primaryKeyword : str) : option str :=
  let c1 := sanitizeBrokenPlaceholders finalContent in
  let c2 := validateAndRepairInternalLinks c1 existingPages in
  let c3 := enforceInternalLinkQuota c2 existingPages primaryKeyword MIN_INTERNAL_LINKS in
  processInternalLinks utmUrl c3 existingPages.

(** The chain in the order the specification gives: repair, quota, resolve,
    sanitize. *)
Definition linkPassesInSpecOrder (utmUrl : str -> option str) (content : str)
    (availablePages : option (list Page)) (primaryKeyword : str) (minLinks : Z) : option str :=
  let c1 := validateAndRepairInternalLinks content availablePages in
  let c2 := enforceInternalLinkQuota c1 availablePages primaryKeyword minLinks in
  bindOpt (processInternalLinks utmUrl c2 availablePages)
    (fun c3 => Some (sanitizeBrokenPlaceholders c3)).

(* ------------------------------------------------------------------ *)
(** ** Video guardian: [enforceUniqueVideoEmbeds] *)

(** A selected video; [videoId] is empty when the field is missing. *)
Record Video : Type := mkVideo { videoId : str }.

(** [/<iframe[^>]+src='https:\/\/www\.youtube\.com\/embed\/([^'?&]+)[^>]*><\/iframe>/g],
    the quotes being double quotes. *)
Definition iframeRegex : regex :=
  seqs [Lit (lit "<iframe"); Plus (none_of ">");
        Lit (js "src='https://www.youtube.com/embed/");
        Grp (Plus (fun c => negb (Ascii.eqb c dq || one_of "?&" c)%bool));
        Star (none_of ">"); Lit (lit "></iframe>")].

(** [s.indexOf(t, from)]. *)
Definition indexOfFrom (t s : str) (from : nat) : option nat :=
  index_from (Nat.min from (length s)) t (skipn from s).

(** GetSubstitution for a string pattern: there are no captures, so only
    [$$], [$&], [$`] and [$'] are replaced. *)
Fixpoint expandReplacement (matched before after repl : str) : str :=
  match repl with
  | [] => []
  | c :: r =>
      if Ascii.eqb c "$"
      then match r with
           | d :: r' =>
               if Ascii.eqb d "$" then "$"%char :: expandReplacement matched before after r'
               else if Ascii.eqb d "&" then matched ++ expandReplacement matched before after r'
               else if Ascii.eqb d "`" then before ++ expandReplacement matched before after r'
               else if Ascii.eqb d "'" then after ++ expandReplacement matched before after r'
               else c :: expandReplacement matched before after r
           | [] => [c]
           end
      else c :: expandReplacement matched before after r
  end.

(** [s.replace(pattern, replacement)] with two strings: the first
    occurrence only. *)
Definition replaceStr (pattern replacement s : str) : str :=
  match indexOf pattern s with
  | Some i =>
      let before := firstn i s in
      let after := skipn (i + length pattern) s in
      before ++ expandReplacement pattern before after replacement ++ after
  | None => s
  end.

Definition enforceUniqueVideoEmbeds (content : str) (youtubeVideos : option (list Video)) : str :=
  match youtubeVideos with
  | None => content
  | Some videos =>
      if length videos <? 2 then content
      else
        let matches := matchAll false iframeRegex content in
        if length matches <? 2 then content
        else
          let videoIdsInContent := map (fun m => cap 1 (snd m)) matches in
          let firstVideoId := nth 0 videoIdsInContent [] in
          let isDuplicate := forallb (fun id => str_eqb id firstVideoId) videoIdsInContent in
          if isDuplicate
          then
            let duplicateId := firstVideoId in
            match nth_error videos 1, nth_error matches 1 with
            | Some secondVideo, Some (index, secondMatch) =>
                if (truthy (videoId secondVideo) && negb (str_eqb (videoId secondVideo) duplicateId))%bool
                then
                  match indexOfFrom (h_text secondMatch) content index with
                  | Some secondMatchIndex =>
                      let correctedIframe :=
                        replaceStr duplicateId (videoId secondVideo) (h_text secondMatch) in
                      substring 0 secondMatchIndex content ++ correctedIframe
                        ++ skipn (secondMatchIndex + length (h_text secondMatch)) content
                  | None => content
                  end
                else content
            | _, _ => content
            end
          else content
  end.

(* ------------------------------------------------------------------ *)
(** ** Content normaliser: [normalizeGeneratedContent] *)

Record ImageDetail : Type := mkImageDetail {
  img_prompt : str;
  img_altText : str;
  img_title : str;
  img_placeholder : str
}.

Record Strategy : Type := mkStrategy {
  targetAudience : str;
  searchIntent : str;
  competitorAnalysis : str;
  contentAngle : str
}.

Record SocialMediaCopy : Type := mkSocial { twitter : str; linkedIn : str }.

(** The object the normaliser works on: the spread copy of the parsed
    payload, of which it fills the fields in place.  [None] is a field that
    is missing or [null]; the list fields are [None] as well when the payload
    holds something that is not an array.  The JSON-LD object is kept as
    its list of entries. *)
Record Content : Type := mkContent {
  title : option str;
  slug : option str;
  content : option str;
  imageDetails : option (list ImageDetail);
  metaDescription : option str;
  primaryKeyword : option str;
  semanticKeywords : option (list str);
  strategy : option Strategy;
  jsonLdSchema : option (list (str * str));
  socialMediaCopy : option SocialMediaCopy
}.

(** The payload [{}]. *)
Definition emptyObject : Content :=
  mkContent None None None None None None None None None None.

Definition strOf (x : option str) : str := match x with Some s => s | None => [] end.

Definition truthyStr (x : option str) : bool := truthy (strOf x).

(** [itemTitle.toLowerCase().replace(/\s+/g, '-').replace(/[^\w-]+/g, '')] *)
Definition slugify (itemTitle : str) : str :=
  replaceAll false (Plus (fun c => negb (is_word c || Ascii.eqb c "-")%bool)) (fun _ => [])
    (replaceAll false spacesRe (fun _ => lit "-") (toLowerCase itemTitle)).

Definition IMAGE_1 : str := lit "[IMAGE_1_PLACEHOLDER]".
Definition IMAGE_2 : str := lit "[IMAGE_2_PLACEHOLDER]".

(** [a.splice(i, 0, x)]. *)
Definition spliceIn (i : nat) (x : str) (l : list str) : list str :=
  firstn i l ++ x :: skipn i l.

(** Lines 1436-1444 and 1445-1453: one placeholder. *)
Definition injectPlaceholder (token : str) (after : nat) (body : str) : str :=
  if (truthy body && negb (includes body token))%bool
  then
    let paragraphs := split (lit "</p>") body in
    if after <? length paragraphs
    then join (lit "</p>") (spliceIn after (lit "<p>" ++ token ++ lit "</p>") paragraphs)
    else body ++ lit "<p>" ++ token ++ lit "</p>"
  else body.

Definition defaultImages (title slugBase : str) : list ImageDetail :=
  [ mkImageDetail
      (js "A high-quality, photorealistic image representing the concept of: '" ++ title
         ++ js "'. Cinematic, professional blog post header image, 16:9 aspect ratio.")
      (js "A conceptual image for '" ++ title ++ js "'")
      (slugBase ++ lit "-feature-image")
      IMAGE_1;
    mkImageDetail
      (js "An infographic or diagram illustrating a key point from the article: '" ++ title
         ++ js "'. Clean, modern design with clear labels. 16:9 aspect ratio.")
      (js "Infographic explaining a key concept from '" ++ title ++ js "'")
      (slugBase ++ lit "-infographic")
      IMAGE_2 ].

Definition needsImages (x : option (list ImageDetail)) : bool :=
  match x with
  | Some (_ :: _) => false
  | _ => true
  end.

Definition normalizeGeneratedContent (parsedJson : Content) (itemTitle : str) : Content :=
  let title1 := if truthyStr (title parsedJson) then strOf (title parsedJson) else itemTitle in
  let slug1 := if truthyStr (slug parsedJson) then strOf (slug parsedJson) else slugify itemTitle in
  let content1 := if truthyStr (content parsedJson) then strOf (content parsedJson) else [] in
  let '(images, content2) :=
    if needsImages (imageDetails parsedJson)
    then
      let slugBase := if truthy slug1 then slug1 else slugify itemTitle in
      (defaultImages title1 slugBase,
       injectPlaceholder IMAGE_2 5 (injectPlaceholder IMAGE_1 2 content1))
    else (match imageDetails parsedJson with Some l => l | None => [] end, content1) in
  mkContent
    (Some title1) (Some slug1) (Some content2) (Some images)
    (Some (if truthyStr (metaDescription parsedJson) then strOf (metaDescription parsedJson)
           else lit "Read this comprehensive guide on " ++ title1 ++ lit "."))
    (Some (if truthyStr (primaryKeyword parsedJson) then strOf (primaryKeyword parsedJson)
           else itemTitle))
    (Some (match semanticKeywords parsedJson with Some l => l | None => [] end))
    (Some (match strategy parsedJson with Some st => st | None => mkStrategy [] [] [] [] end))
    (Some (match jsonLdSchema parsedJson with Some o => o | None => [] end))
    (Some (match socialMediaCopy parsedJson with Some c => c | None => mkSocial [] [] end)).

(* ------------------------------------------------------------------ *)
(** ** JSON extractor: [extractJson] *)

(** *** [JSON.parse]

    [jsonParses s] tells whether [JSON.parse(s)] succeeds: the JSON grammar
    of ECMA-404, which is what the built-in accepts.  The recogniser
    returns the text left after one value.  [depth] bounds the nesting and
    [n] the number of siblings; both are taken larger than the length of
    the text, which no text can exceed. *)

Definition is_json_ws (c : ascii) : bool :=
  (one_of " " c || in_range 9 10 c || N.eqb (code c) 13)%bool.

Definition skip_ws (s : str) : str := drop_while is_json_ws s.

Definition is_hex (c : ascii) : bool :=
  (is_digit c || in_range 65 70 c || in_range 97 102 c)%bool.

(** After the opening quote: up to and including the closing quote. *)
Fixpoint json_string (s : str) : option str :=
  match s with
  | [] => None
  | c :: s' =>
      if Ascii.eqb c dq then Some s'
      else if Ascii.eqb c "\" then
        match s' with
        | e :: s2 =>
            if (Ascii.eqb e dq || one_of "\/bfnrt" e)%bool then json_string s2
            else if Ascii.eqb e "u" then
              match s2 with
              | h1 :: h2 :: h3 :: h4 :: s6 =>
                  if (is_hex h1 && is_hex h2 && is_hex h3 && is_hex h4)%bool
                  then json_string s6 else None
              | _ => None
              end
            else None
        | [] => None
        end
      else if N.ltb (code c) 32 then None
      else json_string s'
  end.

Definition digits1 (s : str) : option str :=
  match s with
  | c :: s' => if is_digit c then Some (drop_while is_digit s') else None
  | [] => None
  end.

Definition json_exponent (s : str) : option str :=
  match s with
  | c :: s' =>
      if one_of "eE" c
      then match s' with
           | d :: s2 => if one_of "+-" d then digits1 s2 else digits1 s'
           | [] => None
           end
      else Some s
  | [] => Some s
  end.

Definition json_fraction (s : str) : option str :=
  match s with
  | c :: s' => if Ascii.eqb c "." then bindOpt (digits1 s') json_exponent else json_exponent s
  | [] => Some s
  end.

Definition json_number (s : str) : option str :=
  let u := match s with
           | c :: s' => if Ascii.eqb c "-" then s' else s
           | [] => s
           end in
  match u with
  | c :: u' =>
      if Ascii.eqb c "0" then json_fraction u'
      else if is_digit c then json_fraction (drop_while is_digit u')
      else None
  | [] => None
  end.

(** The elements of an array after its opening bracket, and the members
    of an object after its opening brace, up to and including the closer;
    [value] recognises one value. *)
Fixpoint json_elements (value : str -> option str) (k : nat) (s : str) : option str :=
  match k with
  | O => None
  | S k' =>
      match value s with
      | Some r =>
          match skip_ws r with
          | c :: r' =>
              if Ascii.eqb c "," then json_elements value k' r'
              else if Ascii.eqb c "]" then Some r' else None
          | [] => None
          end
      | None => None
      end
  end.

Fixpoint json_members (value : str -> option str) (k : nat) (s : str) : option str :=
  match k with
  | O => None
  | S k' =>
      match skip_ws s with
      | q :: s1 =>
          if Ascii.eqb q dq
          then match json_string s1 with
               | Some s2 =>
                   match skip_ws s2 with
                   | c :: s3 =>
                       if Ascii.eqb c ":"
                       then match value s3 with
                            | Some r =>
                                match skip_ws r with
                                | d :: r' =>
                                    if Ascii.eqb d "," then json_members value k' r'
                                    else if Ascii.eqb d "}" then Some r' else None
                                | [] => None
                                end
                            | None => None
                            end
                       else None
                   | [] => None
                   end
               | None => None
               end
          else None
      | [] => None
      end
  end.

Definition json_literal (s : str) : option str :=
  match strip_prefix (lit "true") s with
  | Some r => Some r
  | None =>
      match strip_prefix (lit "false") s with
      | Some r => Some r
      | None => strip_prefix (lit "null") s
      end
  end.

(** One value, its nested values being recognised by [value]. *)
Definition json_step (value : str -> option str) (n : nat) (s : str) : option str :=
  match skip_ws s with
  | [] => None
  | c :: r =>
      if Ascii.eqb c "{" then
        match skip_ws r with
        | d :: r' => if Ascii.eqb d "}" then Some r' else json_members value n r
        | [] => None
        end
      else if Ascii.eqb c "[" then
        match skip_ws r with
        | d :: r' => if Ascii.eqb d "]" then Some r' else json_elements value n r
        | [] => None
        end
      else if Ascii.eqb c dq then json_string r
      else match json_literal (c :: r) with
           | Some r' => Some r'
           | None => json_number (c :: r)
           end
  end.

Fixpoint json_value (depth : nat) (n : nat) (s : str) : option str :=
  match depth with
  | O => None
  | S depth' => json_step (json_value depth' n) n s
  end.

Definition jsonParses (s : str) : bool :=
  match json_value (S (length s)) (S (length s)) s with
  | Some r => str_eqb (skip_ws r) []
  | None => false
  end.

(** *** The extractor *)

Inductive Result (A : Type) : Type :=
| Ok (v : A)
| Throw (message : str).
Arguments Ok {A} v.
Arguments Throw {A} message.

(** The patterns of lines 510-518 and 594; a fence is three backquotes. *)
Definition fence : str := lit "```".
Definition closer (c : ascii) : bool := one_of "}]" c.

Definition openingFenceRe : regex := seqs [Bol; Lit fence; Opt (Lit (lit "json")); Star is_space].
Definition closingFenceRe : regex := seqs [Star is_space; Lit fence; Eol].
Definition jsonFenceRe : regex := seqs [Lit (lit "```json"); Star is_space].
Definition anyFenceRe : regex := seqs [Lit fence; Star is_space].
Definition trailingCommaRe : regex := seqs [Lit (lit ","); Grp (seqs [Star is_space; Cls closer])].
Definition trailingCommaAheadRe : regex :=
  seqs [Lit (lit ","); Ahead (seqs [Star is_space; Cls closer])].

Definition nothing (_ : hit) : str := [].

(** Lines 509-518. *)
Definition cleanUp (text : str) : str :=
  let t1 := trim (replaceFirst false closingFenceRe nothing
                    (replaceFirst false openingFenceRe nothing text)) in
  let t2 := replaceAll false anyFenceRe nothing (replaceAll true jsonFenceRe nothing t1) in
  replaceAll false trailingCommaRe (fun h => cap 1 h) t2.

Record ScanState : Type := mkScan {
  balance : Z;
  inString : bool;
  escapeNext : bool
}.

(** The loop of lines 545-571 from index [i] on; it gives the index at
    which the balance reached zero, or the balance it ended with. *)
Fixpoint findEnd (startChar endChar : ascii) (st : ScanState) (i : nat) (s : str) : nat + Z :=
  match s with
  | [] => inr (balance st)
  | char :: s' =>
      if escapeNext st
      then findEnd startChar endChar (mkScan (balance st) (inString st) false) (S i) s'
      else if Ascii.eqb char "\"
      then findEnd startChar endChar (mkScan (balance st) (inString st) true) (S i) s'
      else
        let inString' := if Ascii.eqb char dq then negb (inString st) else inString st in
        if inString'
        then findEnd startChar endChar (mkScan (balance st) inString' false) (S i) s'
        else
          let balance' :=
            if Ascii.eqb char startChar then (balance st + 1)%Z
            else if Ascii.eqb char endChar then (balance st - 1)%Z
            else balance st in
          if (balance' =? 0)%Z then inl i
          else findEnd startChar endChar (mkScan balance' inString' false) (S i) s'
  end.

Definition minOpt (x y : option nat) : option nat :=
  match x, y with
  | None, None => None
  | None, Some j => Some j
  | Some i, None => Some i
  | Some i, Some j => Some (Nat.min i j)
  end.

Definition extractJson (text : str) : Result str :=
  if negb (truthy text) then Throw (lit "Input text is invalid or empty.")
  else if jsonParses text then Ok text
  else
    let cleanedText := cleanUp text in
    match minOpt (indexOf (lit "{") cleanedText) (indexOf (lit "[") cleanedText) with
    | None =>
        Throw (lit "No JSON object/array found. Ensure your prompt requests JSON output only without markdown.")
    | Some startIndex =>
        let potentialJson := skipn startIndex cleanedText in
        let startChar := nth 0 potentialJson "{"%char in
        let endChar := if Ascii.eqb startChar "{" then "}"%char else "]"%char in
        let jsonCandidate :=
          match findEnd startChar endChar (mkScan 1 false false) 1 (tl potentialJson) with
          | inl endIndex => substring 0 (endIndex + 1) potentialJson
          | inr balance =>
              if (0 <? balance)%Z
              then potentialJson ++ repeat_str [endChar] (Z.to_nat balance)
              else potentialJson
          end in
        if jsonParses jsonCandidate then Ok jsonCandidate
        else
          let repaired := replaceAll false trailingCommaAheadRe nothing jsonCandidate in
          if jsonParses repaired then Ok repaired
          else Throw (lit "Unable to parse JSON from AI response after multiple repair attempts.")
    end.

(* ------------------------------------------------------------------ *)
(** ** Notions used in the properties *)

(** What is left in a body that looks like a placeholder: the matches of
    the sanitizer's pattern.  A token is malformed when the sanitizer's own
    test rejects it. *)
Definition leftoverTokens (body : str) : list str :=
  map (fun m => h_text (snd m)) (matchAll false brokenRegex body).

Definition malformedTokens (body : str) : list str :=
  filter (fun t => negb (isValidToken t)) (leftoverTokens body).

(** A body without nested brackets: text that opens no bracket, and
    bracketed runs that hold no bracket. *)
Inductive Segment : Type :=
| Text (t : str)
| Bracketed (inner : str).

Definition renderSegment (s : Segment) : str :=
  match s with
  | Text t => t
  | Bracketed inner => lit "[" ++ inner ++ lit "]"
  end.

Definition render (l : list Segment) : str := concat (map renderSegment l).

Definition noOpen (c : ascii) : bool := negb (Ascii.eqb c "[").

Definition flatSegment (s : Segment) : bool :=
  match s with
  | Text t => forallb noOpen t
  | Bracketed inner => forallb (none_of "[]") inner
  end.

Definition flat (l : list Segment) : bool := forallb flatSegment l.

(** The effect of the sanitizer on one segment. *)
Definition isLinkToken (inner : str) : bool := starts_with (lit "INTERNAL_LINK") inner.

Definition sanitizeToken (token : str) : str :=
  if isValidToken token then token
  else match attrOf textAttr token with
       | Some text => text
       | None => []
       end.

Definition sanitizeSegment (s : Segment) : Segment :=
  match s with
  | Text t => Text t
  | Bracketed inner =>
      if (isLinkToken inner && negb (isValidToken (renderSegment s)))%bool
      then Text (sanitizeToken (renderSegment s))
      else Bracketed inner
  end.

(** A scan read without the positions: characters and matched texts. *)
Inductive Piece : Type :=
| Chr (c : ascii)
| Tok (t : str).

Definition view (c : chunk) : Piece :=
  match c with Plain x => Chr x | Hit h => Tok (h_text h) end.

Definition segmentPieces (s : Segment) : list Piece :=
  match s with
  | Text t => map Chr t
  | Bracketed inner =>
      if isLinkToken inner then [Tok (renderSegment s)] else map Chr (renderSegment s)
  end.

Definition emitPiece (p : Piece) : str :=
  match p with Chr c => [c] | Tok t => sanitizeToken t end.

(** A pattern every match of which starts at an opening bracket. *)
Definition opensWithBracket (ci : bool) (r : regex) : Prop :=
  forall b a, hd_error a <> Some "["%char -> exec ci r b a = None.



(** The slugs the placeholders of a body point to, in order. *)
Definition linkedSlugsOf (body : str) : list str :=
  map (fun m => cap 1 (snd m)) (matchAll false placeholderRegex body).

(** The identifiers embedded in a body, in order. *)
Definition embeddedIds (body : str) : list str :=
  map (fun m => cap 1 (snd m)) (matchAll false iframeRegex body).

(** [value'] recognises what [value] does, as long as the value takes at
    most [bound] characters. *)
Definition extends (value value' : str -> option str) (bound : nat) : Prop :=
  forall s r,
    value s = Some r ->
    length r < length s /\ (length s - length r <= bound -> value' s = Some r).

(* ------------------------------------------------------------------ *)
(** ** Sample data *)

Definition seoGuide : Page :=
  mkPage (lit "https://example.com/seo-guide/") (lit "The Ultimate SEO Guide 2025")
    (lit "seo-guide").

(** A word: a non-empty run of characters that are not white space. *)
Definition isWord (w : str) : bool :=
  (truthy w && forallb (fun c => negb (is_space c)) w)%bool.

(** The 500 words of [fiveHundredWords]. *)
Definition theFiveHundred : list str :=
  [lit "Title"; lit "here"] ++ repeat (lit "word") 498.

(** An operation that is always rejected with a 503. *)
Definition alwaysUnavailable : nat -> Outcome nat := fun _ => Rejected serviceUnavailable.

(** A body of three words. *)
Definition threeWords : str := lit "<p>one two three</p>".

(** The final URL of a page whose [id] is an absolute URL with a path and
    without query or fragment: the three parameters are appended. *)
Definition utmOfPlainUrl (id : str) : option str :=
  Some (id ++ lit "?utm_source=wp-content-optimizer&utm_medium=internal-link&utm_campaign=content-hub-automation").




(** A placeholder for an unknown page whose anchor text opens a token. *)
Definition hollowBody : str := js "<p>[INTERNAL_LINK slug='nope' text='[INTERNAL_LINK'] y]</p>".


Definition mixedResolved : list Segment :=
  [ Text (lit "<p>See ");
    Bracketed (js "INTERNAL_LINK text='our guide'");
    Text (js " and <a href='https://example.com/seo-guide/?utm_source=wp-content-optimizer&utm_medium=internal-link&utm_campaign=content-hub-automation'>SEO Guide</a> or ");
    Bracketed (lit "1");
    Text (lit ".</p>") ].





(** Two pages whose scores for an anchor are the same fraction, 250/3, and
    two different numbers. *)
Definition tieAnchor : str := lit "alpha beta gamma delta epsilon zeta".
Definition tiePageOne : Page :=
  mkPage (lit "https://example.com/one/") (lit "Delta Gamma Beta Alpha") (lit "one").
Definition tiePageTwo : Page :=
  mkPage (lit "https://example.com/two/") (lit "Omega Epsilon Delta Gamma Beta Alpha") (lit "two").


(** The scenario of the fifth testable property: three pages already
    linked from the body, ten more pages, every title present in the body,
    quota 8. *)
Definition page (slug title : string) : Page :=
  mkPage (lit "https://example.com/" ++ lit slug ++ lit "/") (lit title) (lit slug).

Definition linkedPages : list Page :=
  [ page "keyword-research" "Keyword Research for Beginners";
    page "link-building" "Link Building Strategies That Work";
    page "technical-seo" "Technical SEO Audit Checklist" ].

Definition unlinkedPages : list Page :=
  [ page "content-one" "Content Marketing Guide One";
    page "content-two" "Content Marketing Guide Two";
    page "content-three" "Content Marketing Guide Three";
    page "content-four" "Content Marketing Guide Four";
    page "content-five" "Content Marketing Guide Five";
    page "content-six" "Content Marketing Guide Six";
    page "content-seven" "Content Marketing Guide Seven";
    page "content-eight" "Content Marketing Guide Eight";
    page "content-nine" "Content Marketing Guide Nine";
    page "content-ten" "Content Marketing Guide Ten" ].

Definition quotaCatalogue : list Page := linkedPages ++ unlinkedPages.

Definition quotaBody : str :=
  js "<p>Start with [INTERNAL_LINK slug='keyword-research' text='keyword research'], [INTERNAL_LINK slug='link-building' text='link building'] and [INTERNAL_LINK slug='technical-seo' text='technical SEO'].</p>"
  ++ lit "<p>We wrote Keyword Research for Beginners and Link Building Strategies That Work and the Technical SEO Audit Checklist last year.</p>"
  ++ lit "<p>See Content Marketing Guide One, Content Marketing Guide Two, Content Marketing Guide Three, Content Marketing Guide Four, Content Marketing Guide Five, Content Marketing Guide Six, Content Marketing Guide Seven, Content Marketing Guide Eight, Content Marketing Guide Nine, Content Marketing Guide Ten.</p>".

Definition quotaResult : str :=
  js "<p>Start with [INTERNAL_LINK slug='keyword-research' text='keyword research'], [INTERNAL_LINK slug='link-building' text='link building'] and [INTERNAL_LINK slug='technical-seo' text='technical SEO'].</p>"
  ++ js "<p>We wrote [INTERNAL_LINK slug='keyword-research' text='Keyword Research for Beginners'] and [INTERNAL_LINK slug='link-building' text='Link Building Strategies That Work'] and the [INTERNAL_LINK slug='technical-seo' text='Technical SEO Audit Checklist'] last year.</p>"
  ++ js "<p>See [INTERNAL_LINK slug='content-one' text='Content Marketing Guide One'], [INTERNAL_LINK slug='content-two' text='Content Marketing Guide Two'], Content Marketing Guide Three, Content Marketing Guide Four, Content Marketing Guide Five, Content Marketing Guide Six, Content Marketing Guide Seven, Content Marketing Guide Eight, Content Marketing Guide Nine, Content Marketing Guide Ten.</p>".

(** Two embeds of the same video, the second with the identifier in its
    title as well, and the two selected videos. *)
Definition firstVideo : Video := mkVideo (lit "dQw4w9WgXcQ").
Definition secondVideo : Video := mkVideo (lit "9bZkp7q19f0").

Definition duplicatedEmbeds : str :=
  js "<p>Intro</p><iframe width='560' height='315' src='https://www.youtube.com/embed/dQw4w9WgXcQ' allowfullscreen></iframe>"
  ++ js "<p>More</p><iframe title='dQw4w9WgXcQ' src='https://www.youtube.com/embed/dQw4w9WgXcQ' allowfullscreen></iframe>".

Definition duplicatedEmbedsAfter : str :=
  js "<p>Intro</p><iframe width='560' height='315' src='https://www.youtube.com/embed/dQw4w9WgXcQ' allowfullscreen></iframe>"
  ++ js "<p>More</p><iframe title='9bZkp7q19f0' src='https://www.youtube.com/embed/dQw4w9WgXcQ' allowfullscreen></iframe>".

(** The same body with plain second embed, before and after. *)
Definition plainEmbeds : str :=
  js "<p>Intro</p><iframe width='560' height='315' src='https://www.youtube.com/embed/dQw4w9WgXcQ' allowfullscreen></iframe>"
  ++ js "<p>More</p><iframe width='560' src='https://www.youtube.com/embed/dQw4w9WgXcQ?rel=0'></iframe><p>End</p>".

Definition plainEmbedsAfter : str :=
  js "<p>Intro</p><iframe width='560' height='315' src='https://www.youtube.com/embed/dQw4w9WgXcQ' allowfullscreen></iframe>"
  ++ js "<p>More</p><iframe width='560' src='https://www.youtube.com/embed/9bZkp7q19f0?rel=0'></iframe><p>End</p>".

(** A payload with a body of six paragraphs and nothing else. *)
Definition sixParagraphs : Content :=
  mkContent None None (Some (lit "<p>1</p><p>2</p><p>3</p><p>4</p><p>5</p><p>6</p>"))
    None None None None None None None.

(** A valid JSON text and four damaged forms of it: a trailing comma, a
    markdown fence, a conversational prefix, cut closing braces. *)
Definition newline : str := ["010"%char].

Definition goodJson : str := js "{'title':'SEO','tags':{'a':1,'b':{'c':[1,2]}}}".
Definition withTrailingCommas : str := js "{'title':'SEO','tags':{'a':1,'b':{'c':[1,2,],},},}".
Definition fenced : str := lit "```json" ++ newline ++ goodJson ++ newline ++ lit "```".
Definition withPreamble : str := lit "Sure, here is the JSON you asked for: " ++ goodJson.
Definition cutBraces : str := js "{'title':'SEO','tags':{'a':1,'b':{'c':[1,2]".

(** Two more damaged forms: a prefix that holds a bracket, and a cut that
    takes a closing square bracket as well. *)
Definition withBracketInPreamble : str := lit "Sure [as requested]: " ++ goodJson.
Definition cutMixed : str := js "{'title':'SEO','tags':{'a':1,'b':{'c':[1,2".

Definition unparseable : str :=
  lit "Unable to parse JSON from AI response after multiple repair attempts.".

(** What the quota pass may do to a body: wrap pieces of its text, one
    after the other, in placeholders for pages of the catalogue.  Each
    wrapped piece is one of the page's search terms up to the case of its
    letters; [slugs] lists the pages linked, last first. *)
Inductive wraps (pages : list Page) : list str -> str -> str -> Prop :=
| wraps_none : forall c, wraps pages [] c c
| wraps_more : forall slugs c u m v page term,
    wraps pages slugs c (u ++ m ++ v) ->
    In page pages ->
    In term (searchTermsOf (p_title page)) ->
    map canon_char m = map canon_char term ->
    wraps pages (p_slug page :: slugs) c (u ++ placeholder (p_slug page) m ++ v).

(* ------------------------------------------------------------------ *)
(** ** Video selection: [getUniqueYoutubeVideos] *)

(** A video as the search returns it.  A field that is missing is the
    empty string; the function does not tell the two apart. *)
Record FoundVideo : Type := mkFoundVideo {
  found_videoId : str;
  found_embedUrl : str;
  found_url : str;
  found_title : str
}.

(** [{...video, videoId, embedUrl}]. *)
Record SelectedVideo : Type := mkSelectedVideo {
  sel_source : FoundVideo;
  sel_videoId : str;
  sel_embedUrl : str
}.

(** [/embed\/([^?&]+)/], [/[?&]v=([^&]+)/] and [/youtu\.be\/([^?&]+)/]. *)
Definition embedIdRe : regex := seqs [Lit (lit "embed/"); Grp (Plus (none_of "?&"))].
Definition watchIdRe : regex := seqs [Cls (one_of "?&"); Lit (lit "v="); Grp (Plus (none_of "&"))].
Definition shortIdRe : regex := seqs [Lit (lit "youtu.be/"); Grp (Plus (none_of "?&"))].

(** [x || s?.match(r)?.[1]], the empty string standing for [undefined]. *)
Definition orCapture (x : str) (r : regex) (s : str) : str :=
  if truthy x then x
  else match search false r s with
       | Some h => cap 1 h
       | None => []
       end.

(** Lines 393-396. *)
Definition videoIdOf (video : FoundVideo) : str :=
  orCapture
    (orCapture (orCapture (found_videoId video) embedIdRe (found_embedUrl video))
       watchIdRe (found_url video))
    shortIdRe (found_url video).

Definition embedUrlOf (videoId : str) : str := lit "https://www.youtube.com/embed/" ++ videoId.

(** The loop of lines 390-409; [usedVideoIds] is the [Set].  What the loop
    prints is left out. *)
Fixpoint selectVideos (count : Z) (videos : list FoundVideo)
    (uniqueVideos : list SelectedVideo) (usedVideoIds : list str) : list SelectedVideo :=
  match videos with
  | [] => uniqueVideos
  | video :: rest =>
      if (count <=? Z.of_nat (length uniqueVideos))%Z then uniqueVideos
      else
        let videoId := videoIdOf video in
        if (truthy videoId && negb (setHas usedVideoIds videoId))%bool
        then selectVideos count rest
               (uniqueVideos ++ [mkSelectedVideo video videoId (embedUrlOf videoId)])
               (videoId :: usedVideoIds)
        else selectVideos count rest uniqueVideos usedVideoIds
  end.

(** [videos] is [None] for [null] or [undefined]; the result is [None] for
    [null].  The call site passes [YOUTUBE_EMBED_COUNT] for [count]. *)
Definition getUniqueYoutubeVideos (videos : option (list FoundVideo)) (count : Z)
    : option (list SelectedVideo) :=
  match videos with
  | None => None
  | Some vs =>
      if length vs =? 0 then None
      else
        let uniqueVideos := selectVideos count vs [] [] in
        if 0 <? length uniqueVideos then Some uniqueVideos else None
  end.

Definition YOUTUBE_EMBED_COUNT : Z := 2.

(* ------------------------------------------------------------------ *)
(** ** HTML snippets: [sanitizeHtmlResponse] *)

(** [/^```(?:html)?\s*/i]; the closing pattern [/\s*```$/] is
    [closingFenceRe]. *)
Definition htmlOpeningFenceRe : regex :=
  seqs [Bol; Lit fence; Opt (Lit (lit "html")); Star is_space].

(** Lines 618-621. *)
Definition stripFences (rawHtml : str) : str :=
  trim (replaceFirst false closingFenceRe nothing
          (replaceFirst true htmlOpeningFenceRe nothing rawHtml)).

Definition sanitizeHtmlResponse (rawHtml : str) : str :=
  if negb (truthy rawHtml) then []
  else
    let cleanedHtml := stripFences rawHtml in
    match indexOf (lit "<") cleanedHtml with
    | Some firstTagIndex =>
        if 0 <? firstTagIndex
        then
          let pretext := trim (substring 0 firstTagIndex cleanedHtml) in
          if ((0 <? length pretext) && (length pretext <? 100))%bool
          then skipn firstTagIndex cleanedHtml
          else cleanedHtml
        else cleanedHtml
    | None => cleanedHtml
    end.

(** Text in which no tag opens. *)
Definition noTag (c : ascii) : bool := negb (Ascii.eqb c "<").

(* ------------------------------------------------------------------ *)
(** ** [escapeRegExp] *)

(** [/[.*+?^${}()|[\]\\/]/g] *)
Definition isRegExpSpecial (c : ascii) : bool := one_of ".*+?^${}()|[]\/" c.

(** [string.replace(..., '\\$&')]: a backslash before each match. *)
Definition escapeRegExp (s : str) : str :=
  replaceAll false (Cls isRegExpSpecial) (fun h => "\"%char :: h_text h) s.

(** How the [RegExp] constructor reads a source made of literal characters
    only.  In the grammar of ECMAScript a pattern character is any
    character but a syntax character, and a backslash before a syntax
    character or a slash is an identity escape; the result is [None] for a
    source that holds anything else. *)
Definition isSyntaxCharacter (c : ascii) : bool := one_of "^$\.*+?()[]{}|" c.

Fixpoint patternLiteral (source : str) : option str :=
  match source with
  | [] => Some []
  | c :: rest =>
      if Ascii.eqb c "\"
      then match rest with
           | e :: rest' =>
               if (isSyntaxCharacter e || Ascii.eqb e "/")%bool
               then option_map (cons e) (patternLiteral rest')
               else None
           | [] => None
           end
      else if isSyntaxCharacter c then None
           else option_map (cons c) (patternLiteral rest)
  end.

(* ------------------------------------------------------------------ *)
(** ** Writing score: [checkHumanWritingScore] *)

Definition aiPhrases : list str :=
  map lit
    [ "delve into"; "in today's digital landscape"; "revolutionize"; "game-changer";
      "unlock"; "leverage"; "robust"; "seamless"; "cutting-edge"; "elevate"; "empower";
      "it's important to note"; "it's worth mentioning"; "needless to say";
      "in conclusion"; "to summarize"; "in summary"; "holistic"; "paradigm shift";
      "utilize"; "commence"; "endeavor"; "facilitate"; "implement"; "demonstrate";
      "ascertain"; "procure"; "terminate"; "disseminate"; "expedite";
      "in order to"; "due to the fact that"; "for the purpose of"; "with regard to";
      "in the event that"; "at this point in time"; "for all intents and purposes";
      "furthermore"; "moreover"; "additionally"; "consequently"; "nevertheless";
      "notwithstanding"; "aforementioned"; "heretofore"; "whereby"; "wherein";
      "landscape"; "realm"; "sphere"; "domain"; "ecosystem"; "framework";
      "navigate"; "embark"; "journey"; "transform"; "transition";
      "plethora"; "myriad"; "multitude"; "abundance"; "copious";
      "crucial"; "vital"; "essential"; "imperative"; "paramount";
      "optimize"; "maximize"; "enhance"; "augment"; "amplify";
      "intricate"; "nuanced"; "sophisticated"; "elaborate"; "comprehensive";
      "comprehensive guide"; "ultimate guide"; "complete guide";
      "dive deep"; "take a deep dive"; "let's explore"; "let's dive in" ]%string.

(** [(text.match(new RegExp(phrase, 'g')) || []).length]; every phrase of
    the list is a pattern of literal characters. *)
Definition occurrences (phrase text : str) : nat :=
  length (matchAll false (Lit phrase) text).

(** [/[^.!?]+[.!?]+/g] *)
Definition sentenceRe : regex := seqs [Plus (none_of ".!?"); Plus (one_of ".!?")].

Definition sentencesOf (content : str) : list str :=
  map (fun m => h_text (snd m)) (matchAll false sentenceRe content).

(** Lines 359-366: there are sentences and their average number of words
    is above 25.  The comparison of the quotient with 25 is written on the
    integers, which is exact for fewer than 2^49 sentences. *)
Definition averageTooLong (sentences : list str) : bool :=
  ((0 <? length sentences)
   && (25 * length sentences
       <? fold_left (fun sum s => sum + length (splitRe false spacesRe s)) sentences 0))%bool.

(** The score returned; what the function prints is left out. *)
Definition checkHumanWritingScore (content : str) : Z :=
  let lowerContent := toLowerCase content in
  let aiScore :=
    fold_left
      (fun aiScore phrase =>
         let count := occurrences phrase lowerContent in
         if 0 <? count then (aiScore + Z.of_nat count * 10)%Z else aiScore)
      aiPhrases 0%Z in
  let aiScore := if averageTooLong (sentencesOf content) then (aiScore + 15)%Z else aiScore in
  Z.max 0 (100 - aiScore).

(* ------------------------------------------------------------------ *)
(** ** Response cache: [ContentCache] *)

Record CacheItem (A : Type) : Type := mkCacheItem {
  cached_data : A;
  cached_timestamp : Z
}.
Arguments mkCacheItem {A} _ _.
Arguments cached_data {A} _.
Arguments cached_timestamp {A} _.

(** The private [Map]: one entry per key, in insertion order. *)
Definition ContentCache (A : Type) : Type := list (str * CacheItem A).

Definition TTL : Z := 3600000.

(** [Map.prototype.set] and [Map.prototype.get]. *)
Fixpoint entrySet {V : Type} (m : list (str * V)) (k : str) (v : V) : list (str * V) :=
  match m with
  | [] => [(k, v)]
  | (k', v') :: m' => if str_eqb k' k then (k, v) :: m' else (k', v') :: entrySet m' k v
  end.

Fixpoint entryOf {V : Type} (m : list (str * V)) (k : str) : option V :=
  match m with
  | [] => None
  | (k', v) :: m' => if str_eqb k' k then Some v else entryOf m' k
  end.

(** [set] and [get]; [time] is what [Date.now()] gives at the call, and
    [None] is [null]. *)
Definition cacheSet {A : Type} (cache : ContentCache A) (key : str) (data : A) (time : Z)
    : ContentCache A :=
  entrySet cache key (mkCacheItem data time).

Definition cacheGet {A : Type} (cache : ContentCache A) (key : str) (time : Z) : option A :=
  match entryOf cache key with
  | Some item => if (time - cached_timestamp item <? TTL)%Z then Some (cached_data item) else None
  | None => None
  end.

(* ------------------------------------------------------------------ *)
(** ** Items state: [itemsReducer] *)

Inductive ItemType : Type := Pillar | Cluster | Standard | LinkOptimizer.

(** ['idle' | 'generating' | 'done' | 'error'] *)
Inductive ItemStatus : Type := Idle | Generating | Done | Failed.

Inductive ArticleFormat : Type := StandardFormat | ScientificFormat.

Record Analysis : Type := mkAnalysis {
  critique : str;
  suggestedTitle : str;
  contentGaps : list str;
  freshness : str;
  eeat : str
}.

Record ContentItem : Type := mkContentItem {
  item_id : str;
  item_title : str;
  item_type : ItemType;
  item_status : ItemStatus;
  item_statusText : str;
  item_generatedContent : option Content;
  item_crawledContent : option str;
  item_originalUrl : option str;
  item_analysis : option Analysis;
  item_articleFormat : option ArticleFormat
}.

(** The payload of [SET_ITEMS] is a list of partial items; every dispatch
    site gives [id], [title] and [type], so the entries are items here. *)
Inductive ItemsAction : Type :=
| SET_ITEMS (payload : list ContentItem)
| UPDATE_STATUS (id : str) (status : ItemStatus) (statusText : str)
| SET_CONTENT (id : str) (generated : Content)
| SET_CRAWLED_CONTENT (id : str) (crawled : str).

Definition itemsReducer (state : list ContentItem) (action : ItemsAction) : list ContentItem :=
  match action with
  | SET_ITEMS payload =>
      map (fun item =>
             mkContentItem (item_id item) (item_title item) (item_type item)
               Idle (lit "Not Started") None
               (if truthyStr (item_crawledContent item) then item_crawledContent item else None)
               (item_originalUrl item)
               (item_analysis item)
               (Some (match item_articleFormat item with
                      | Some format => format
                      | None => StandardFormat
                      end)))
        payload
  | UPDATE_STATUS id status statusText =>
      map (fun item =>
             if str_eqb (item_id item) id
             then mkContentItem (item_id item) (item_title item) (item_type item)
                    status statusText (item_generatedContent item)
                    (item_crawledContent item) (item_originalUrl item) (item_analysis item)
                    (item_articleFormat item)
             else item)
        state
  | SET_CONTENT id generated =>
      map (fun item =>
             if str_eqb (item_id item) id
             then mkContentItem (item_id item) (item_title item) (item_type item)
                    Done (lit "Completed") (Some generated)
                    (item_crawledContent item) (item_originalUrl item) (item_analysis item)
                    (item_articleFormat item)
             else item)
        state
  | SET_CRAWLED_CONTENT id crawled =>
      map (fun item =>
             if str_eqb (item_id item) id
             then mkContentItem (item_id item) (item_title item) (item_type item)
                    (item_status item) (item_statusText item) (item_generatedContent item)
                    (Some crawled) (item_originalUrl item) (item_analysis item)
                    (item_articleFormat item)
             else item)
        state
  end.

(** The branch of the generation loop for a body that the word-count gate
    rejects (lines 4093-4097): the body is kept for review. *)
Definition partialContentOf (error : ContentTooShortError) (itemTitle : str) : Content :=
  normalizeGeneratedContent
    (mkContent (Some itemTitle)
       (Some (replaceAll false spacesRe (fun _ => lit "-") (toLowerCase itemTitle)))
       (Some (cts_content error))
       (Some [])
       (Some (lit "Review needed: Content for " ++ itemTitle))
       (Some itemTitle)
       (Some [])
       (Some (mkStrategy [] [] [] []))
       (Some [])
       (Some (mkSocial [] [])))
    itemTitle.

Definition keepTooShort (state : list ContentItem) (item : ContentItem)
    (error : ContentTooShortError) : list ContentItem :=
  itemsReducer
    (itemsReducer state (SET_CONTENT (item_id item) (partialContentOf error (item_title item))))
    (UPDATE_STATUS (item_id item) Failed
       (lit "Word count too low: " ++ string_of_Z (Z.of_nat (cts_wordCount error)))).

(** [handleSaveChanges], lines 4109-4140.  [rebuild] stands for lines
    4114-4129, which compute the edited content with its regenerated
    schema from the stored content, the edited fields and the edited body.
    The result is the state after the dispatch, [None] when the handler
    returns without dispatching. *)
Record SeoFields : Type := mkSeoFields { seo_title : str; seo_metaDescription : str; seo_slug : str }.

Definition handleSaveChanges (rebuild : Content -> SeoFields -> str -> Content)
    (items : list ContentItem) (itemId : str) (updatedSeo : SeoFields) (updatedContent : str)
    : option (list ContentItem) :=
  match find (fun i => str_eqb (item_id i) itemId) items with
  | Some itemToUpdate =>
      match item_generatedContent itemToUpdate with
      | Some generated =>
          let updatedItem :=
            mkContentItem (item_id itemToUpdate) (item_title itemToUpdate)
              (item_type itemToUpdate) (item_status itemToUpdate)
              (item_statusText itemToUpdate)
              (Some (rebuild generated updatedSeo updatedContent))
              (item_crawledContent itemToUpdate) (item_originalUrl itemToUpdate)
              (item_analysis itemToUpdate) (item_articleFormat itemToUpdate) in
          let newItemsState :=
            map (fun i => if str_eqb (item_id i) itemId then updatedItem else i) items in
          Some (itemsReducer items (SET_ITEMS newItemsState))
      | None => None
      end
  | None => None
  end.

(** The actions that update items in place. *)
Definition updatesInPlace (action : ItemsAction) : bool :=
  match action with
  | SET_ITEMS _ => false
  | _ => true
  end.

(** Two items of a review list: one being generated, one finished. *)
Definition draftItem : ContentItem :=
  mkContentItem (lit "seo-basics") (lit "SEO Basics") Standard Generating
    (lit "Stage 5/5: Finalizing...") None None None None (Some StandardFormat).

Definition finishedItem : ContentItem :=
  mkContentItem (lit "link-building") (lit "Link Building") Cluster Done (lit "Completed")
    (Some (normalizeGeneratedContent sixParagraphs (lit "Link Building")))
    None None None (Some StandardFormat).

(* ------------------------------------------------------------------ *)
(** ** Fetching: [fetchWithProxies] and [fetchWordPressWithRetry] *)

(** What the two functions read of a [Response]: its status, and the text
    that [response.text()] resolves to ([None] when it rejects). *)
Record Response : Type := mkResponse {
  resp_status : Z;
  resp_text : option str
}.

(** [response.ok] *)
Definition resp_ok (response : Response) : bool :=
  ((200 <=? resp_status response) && (resp_status response <=? 299))%Z.

Record JsError : Type := mkJsError {
  error_name : str;
  error_message : str
}.

(** [new Error(message)] *)
Definition newError (message : str) : JsError := mkJsError (lit "Error") message.

Inductive FetchOutcome : Type :=
| Responds (response : Response)
| Rejects (error : JsError).

(** What a call does that can be seen from outside: the messages given to
    [onProgress] and the requests.  Console output is left out. *)
Inductive NetEvent : Type :=
| Progress (message : str)
| Request (url : str).

Definition requestsOf (trace : list NetEvent) : list str :=
  flat_map (fun ev => match ev with Request url => [url] | Progress _ => [] end) trace.

Definition isAbort (error : JsError) : bool := str_eqb (error_name error) (lit "AbortError").

Definition baseErrorMessage : str :=
  lit "We couldn't access your sitemap, even after trying multiple methods. This usually happens for one of two reasons:"
  ++ newline ++ newline
  ++ lit "1. **Security blockage:** Your website's security (like Cloudflare or a server firewall) is blocking our crawler. This is common for protected sites."
  ++ newline
  ++ lit "2. **Sitemap is private/incorrect:** The sitemap URL isn't publicly accessible or contains an error."
  ++ newline ++ newline
  ++ lit "**What to try next:**" ++ newline
  ++ lit "- Double-check that the sitemap URL is correct and opens in an incognito browser window."
  ++ newline
  ++ lit "- If you use a service like Cloudflare, check its security logs to see if requests from our proxies are being blocked."
  ++ newline.

Section Network.

(** The network: how the request number [n] of a call, made to a URL,
    ends.  A request that the timer aborts rejects with an [AbortError]. *)
Variable fetch : nat -> str -> FetchOutcome.

(** [encodeURIComponent] belongs to the platform. *)
Variable encodeURIComponent : str -> str.

(** Lines 813-819 and 919-922: the proxies, each with the host name that
    [new URL(proxyUrl).hostname] gives for it. *)
Definition proxiesOf (url : str) : list (str * str) :=
  let encodedUrl := encodeURIComponent url in
  [ (lit "corsproxy.io", lit "https://corsproxy.io/?" ++ url);
    (lit "api.allorigins.win", lit "https://api.allorigins.win/raw?url=" ++ encodedUrl);
    (lit "thingproxy.freeboard.io", lit "https://thingproxy.freeboard.io/fetch/" ++ url);
    (lit "api.codetabs.com", lit "https://api.codetabs.com/v1/proxy?quest=" ++ encodedUrl);
    (lit "cors-proxy.fringe.zone", lit "https://cors-proxy.fringe.zone/" ++ url) ].

Definition wordPressProxiesOf (targetUrl : str) : list (str * str) :=
  let encodedUrl := encodeURIComponent targetUrl in
  [ (lit "corsproxy.io", lit "https://corsproxy.io/?" ++ encodedUrl);
    (lit "api.allorigins.win", lit "https://api.allorigins.win/raw?url=" ++ encodedUrl) ].

Definition proxyFailure (response : Response) (shortProxyUrl : str) : JsError :=
  newError
    (lit "Proxy request failed with status " ++ string_of_Z (resp_status response)
       ++ lit " for " ++ shortProxyUrl ++ lit ". Response: "
       ++ substring 0 100
            (match resp_text response with
             | Some responseText => responseText
             | None => lit "(could not read response body)"
             end)).

(** The loops of lines 821-858 and 924-958 have the same shape: [accept]
    is the test a response must pass, and [announce] tells whether the
    attempts are reported to [onProgress].  [i] numbers the proxies from 0;
    the direct request was number 0 of the call.  The loop ends with the
    response it returns or with [lastError]. *)
Fixpoint proxyLoop (accept : Response -> bool) (announce : bool) (i : nat)
    (proxies : list (str * str)) (lastError : option JsError)
    : list NetEvent * (Response + option JsError) :=
  match proxies with
  | [] => ([], inr lastError)
  | (shortProxyUrl, proxyUrl) :: rest =>
      let attempt :=
        (if announce
         then [Progress (lit "Attempting fetch via proxy #" ++ string_of_Z (Z.of_nat (i + 1))
                           ++ lit ": " ++ shortProxyUrl)]
         else [])
        ++ [Request proxyUrl] in
      match fetch (S i) proxyUrl with
      | Responds response =>
          if accept response
          then (attempt
                  ++ (if announce then [Progress (lit "Success via proxy: " ++ shortProxyUrl)]
                      else []),
                inl response)
          else
            let '(trace, result) :=
              proxyLoop accept announce (S i) rest (Some (proxyFailure response shortProxyUrl)) in
            (attempt ++ trace, result)
      | Rejects error =>
          let lastError' :=
            if isAbort error
            then newError (lit "Request timed out for proxy: " ++ shortProxyUrl)
            else error in
          let '(trace, result) := proxyLoop accept announce (S i) rest (Some lastError') in
          (attempt ++ trace, result)
      end
  end.

(** [fetchWithProxies(url, options, onProgress)]: the trace, and the
    response returned or the error thrown. *)
Definition fetchWithProxies (url : str) : list NetEvent * (Response + JsError) :=
  let direct := [Progress (lit "Attempting direct fetch (no proxy)..."); Request url] in
  let viaProxies (before : list NetEvent) (lastError : option JsError) :=
    let '(trace, result) := proxyLoop resp_ok true 0 (proxiesOf url) lastError in
    (before ++ trace,
     match result with
     | inl response => inl response
     | inr (Some error) =>
         inr (newError (baseErrorMessage ++ newline ++ lit "Last Error: " ++ error_message error))
     | inr None => inr (newError baseErrorMessage)
     end) in
  match fetch 0 url with
  | Responds directResponse =>
      if resp_ok directResponse
      then (direct ++ [Progress (lit "Successfully fetched directly!")], inl directResponse)
      else viaProxies direct None
  | Rejects error =>
      viaProxies
        (direct ++ (if isAbort error then []
                    else [Progress (lit "Direct fetch failed (likely CORS). Trying proxies...")]))
        (Some error)
  end.

(** The test of lines 911 and 932: a success or a client error. *)
Definition okOrClientError (response : Response) : bool :=
  (resp_ok response
   || ((400 <=? resp_status response) && (resp_status response <? 500))%Z)%bool.

(** [fetchWordPressWithRetry(targetUrl, options)]; [authorization] is the
    [Authorization] header of the options, empty when there is none. *)
Definition fetchWordPressWithRetry (targetUrl authorization : str)
    : list NetEvent * (Response + JsError) :=
  if truthy authorization
  then
    match fetch 0 targetUrl with
    | Responds directResponse => ([Request targetUrl], inl directResponse)
    | Rejects error =>
        ([Request targetUrl],
         inr (if isAbort error then newError (lit "WordPress API request timed out.") else error))
    end
  else
    let viaProxies (lastError : option JsError) :=
      let '(trace, result) :=
        proxyLoop okOrClientError false 0 (wordPressProxiesOf targetUrl) lastError in
      (Request targetUrl :: trace,
       match result with
       | inl response => inl response
       | inr (Some error) => inr error
       | inr None => inr (newError (lit "All attempts to connect to the WordPress API failed."))
       end) in
    match fetch 0 targetUrl with
    | Responds directResponse =>
        if okOrClientError directResponse then ([Request targetUrl], inl directResponse)
        else viaProxies
               (Some (newError (lit "Direct connection failed with status "
                                  ++ string_of_Z (resp_status directResponse))))
    | Rejects error => viaProxies (Some error)
    end.

End Network.

(** The error that a proxy leaves in [lastError] when its request ends
    with [outcome] and the loop goes on (lines 846-856 and 945-954). *)
Definition proxyError (shortProxyUrl : str) (outcome : FetchOutcome) : JsError :=
  match outcome with
  | Responds response => proxyFailure response shortProxyUrl
  | Rejects error =>
      if isAbort error
      then newError (lit "Request timed out for proxy: " ++ shortProxyUrl)
      else error
  end.

(** A request that gives no response passing the test [accept]. *)
Definition refused (accept : Response -> bool) (outcome : FetchOutcome) : Prop :=
  match outcome with
  | Responds response => accept response = false
  | Rejects _ => True
  end.

(* ------------------------------------------------------------------ *)
(** ** Slugs: [extractSlugFromUrl] *)

Definition is_alnum (c : ascii) : bool :=
  (in_range 97 122 c || in_range 65 90 c || is_digit c)%bool.

(** [/\.[a-zA-Z0-9]{2,5}$/]: two characters of the class, then up to three
    more, the longer runs tried first. *)
Definition extensionRe : regex :=
  seqs [Lit (lit "."); Rep 2 is_alnum;
        Opt (seqs [Cls is_alnum; Opt (seqs [Cls is_alnum; Opt (Cls is_alnum)])]);
        Eol].

(** [s.lastIndexOf(t)]; [found] is the last occurrence seen so far. *)
Fixpoint last_index_from (i : nat) (t s : str) (found : option nat) : option nat :=
  let found' := if starts_with t s then Some i else found in
  match s with
  | [] => found'
  | _ :: s' => last_index_from (S i) t s' found'
  end.

Definition lastIndexOf (t s : str) : option nat := last_index_from 0 t s None.

Definition endsWith (t s : str) : bool := starts_with (rev t) (rev s).

Section Slug.

(** [new URL(urlString).pathname]; [None] when the constructor throws. *)
Variable pathnameOf : str -> option str.

Definition extractSlugFromUrl (urlString : str) : str :=
  match pathnameOf urlString with
  | Some url_pathname =>
      let pathname :=
        if (endsWith (lit "/") url_pathname && (1 <? length url_pathname))%bool
        then removelast url_pathname
        else url_pathname in
      let lastSegment :=
        skipn (match lastIndexOf (lit "/") pathname with
               | Some i => i + 1
               | None => 0
               end) pathname in
      replaceFirst false extensionRe nothing lastSegment
  | None => last (split (lit "/") urlString) []
  end.

End Slug.

(** Characters of a path segment, and of a name without extension. *)
Definition noSlash (c : ascii) : bool := negb (Ascii.eqb c "/").
Definition noSlashNoDot (c : ascii) : bool := negb (Ascii.eqb c "/" || Ascii.eqb c ".")%bool.

(** The characters of a generated slug: lower-case letters, digits, the
    underscore and the hyphen. *)
Definition slugChar (c : ascii) : bool :=
  (in_range 97 122 c || is_digit c || Ascii.eqb c "_" || Ascii.eqb c "-")%bool.

(* ------------------------------------------------------------------ *)
(** ** The bracket scan on JSON text *)

(** [v] is exactly one JSON value: the recogniser takes all of it. *)
Definition isJsonValue (v : str) : bool :=
  match json_value (S (length v)) (S (length v)) v with
  | Some [] => true
  | _ => false
  end.

(** The two kinds of structure the scan of lines 537-571 can follow. *)
Definition bracketKind (startChar endChar : ascii) : Prop :=
  (startChar = "{"%char /\ endChar = "}"%char) \/ (startChar = "["%char /\ endChar = "]"%char).

Definition noBracket (c : ascii) : bool := negb (one_of "{[" c).

(** One turn of the loop of lines 545-571 when the loop goes on after it:
    [None] when the turn ends the scan, the balance being zero, or when it
    meets a backslash outside a string, which JSON text does not have. *)
Definition scanStep (startChar endChar : ascii) (st : ScanState) (char : ascii)
    : option ScanState :=
  if escapeNext st then Some (mkScan (balance st) (inString st) false)
  else if Ascii.eqb char "\"
  then (if inString st then Some (mkScan (balance st) (inString st) true) else None)
  else
    let inString' := if Ascii.eqb char dq then negb (inString st) else inString st in
    if inString' then Some (mkScan (balance st) inString' false)
    else
      let balance' :=
        if Ascii.eqb char startChar then (balance st + 1)%Z
        else if Ascii.eqb char endChar then (balance st - 1)%Z
        else balance st in
      if (balance' =? 0)%Z then None else Some (mkScan balance' inString' false).

Fixpoint scanSteps (startChar endChar : ascii) (st : ScanState) (p : str) : option ScanState :=
  match p with
  | [] => Some st
  | char :: p' =>
      match scanStep startChar endChar st char with
      | Some st' => scanSteps startChar endChar st' p'
      | None => None
      end
  end.

(** The scan is outside every string, with structures still open. *)
Definition calm (st : ScanState) : Prop :=
  inString st = false /\ escapeNext st = false /\ (1 <= balance st)%Z.

(** A text over which the scan goes from a calm state back to it. *)
Definition Scans (startChar endChar : ascii) (p : str) : Prop :=
  forall st, calm st -> scanSteps startChar endChar st p = Some st.

(** An escape is only pending inside a string. *)
Definition escapesInString (st : ScanState) : Prop :=
  escapeNext st = true -> inString st = true.

Definition plainChar (c : ascii) : bool :=
  negb (Ascii.eqb c "\" || Ascii.eqb c dq || one_of "{}[]" c).

(** The characters of a JSON number. *)
Definition numberChar (c : ascii) : bool := (is_digit c || one_of "+-.eE" c)%bool.

(** A recogniser that only takes text the scan goes over. *)
Definition ValueScans (startChar endChar : ascii) (value : str -> option str) : Prop :=
  forall s r, value s = Some r -> exists p, s = p ++ r /\ Scans startChar endChar p.

(** The text without its trailing commas: the commas that have a closing
    bracket next behind them, white space apart.  It is what line 518
    makes of a text. *)
Fixpoint withoutTrailingCommas (s : str) : str :=
  match s with
  | [] => []
  | c :: s' =>
      if (Ascii.eqb c ","
          && match drop_while is_space s' with
             | d :: _ => closer d
             | [] => false
             end)%bool
      then withoutTrailingCommas s'
      else c :: withoutTrailingCommas s'
  end.

Definition noBackquote (c : ascii) : bool := negb (Ascii.eqb c "`").

(* ================================================================== *)
(** * Properties *)

(** ** Retry controller *)

Lemma attempts_rejected :
  forall (A : Type) (apiCall : nat -> Outcome A) amb maxRetries initialDelay left attempt error,
    apiCall attempt = Rejected error ->
    failsFast error = false ->
    (Z.of_nat attempt =? maxRetries - 1)%Z = false ->
    attempts apiCall amb maxRetries initialDelay (S left) attempt
      = (Invoke attempt :: Sleep (delayFor amb initialDelay attempt error)
           :: fst (attempts apiCall amb maxRetries initialDelay left (S attempt)),
         snd (attempts apiCall amb maxRetries initialDelay left (S attempt))).
Proof.
  intros A apiCall amb maxRetries initialDelay left attempt error Hcall Hretry Hlast.
  cbn [attempts]. rewrite Hcall, Hretry, Hlast.
  destruct (attempts apiCall amb maxRetries initialDelay left (S attempt)); reflexivity.
Qed.

Lemma attempts_all_rejected :
  forall (A : Type) (apiCall : nat -> Outcome A) (err : nat -> AiError) amb maxRetries initialDelay,
    (forall i, apiCall i = Rejected (err i) /\ failsFast (err i) = false) ->
    forall left attempt,
      Z.of_nat (attempt + S left) = maxRetries ->
      snd (attempts apiCall amb maxRetries initialDelay (S left) attempt)
        = Rethrown (err (attempt + left))
      /\ invocations (fst (attempts apiCall amb maxRetries initialDelay (S left) attempt))
        = S left.
Proof.
  intros A apiCall err amb maxRetries initialDelay Hall.
  induction left as [|left IH]; intros attempt Hsum.
  - simpl. destruct (Hall attempt) as [-> ->].
    replace (Z.of_nat attempt =? maxRetries - 1)%Z with true
      by (symmetry; apply Z.eqb_eq; lia).
    simpl. rewrite Nat.add_0_r. split; reflexivity.
  - destruct (Hall attempt) as [Hcall Hretry].
    rewrite (attempts_rejected A apiCall amb maxRetries initialDelay (S left) attempt
               (err attempt) Hcall Hretry) by (apply Z.eqb_neq; lia).
    destruct (IH (S attempt)) as [IH1 IH2]; [lia|].
    cbn [fst snd]. split.
    + rewrite IH1. f_equal. f_equal. lia.
    + unfold invocations in *. cbn [filter length]. rewrite IH2. reflexivity.
Qed.

(** C3, as the code has it: when every attempt is rejected with a retriable
    error and [maxRetries] is at least 1, the call makes [maxRetries]
    invocations and rethrows the error of the last one; it does not throw
    the generic exhaustion error. *)
Theorem exhausted_retries_rethrow_last_error :
  forall (A : Type) (apiCall : nat -> Outcome A) (err : nat -> AiError) amb maxRetries initialDelay,
    (1 <= maxRetries)%Z ->
    (forall i, apiCall i = Rejected (err i) /\ failsFast (err i) = false) ->
    snd (callAiWithRetry apiCall amb maxRetries initialDelay)
      = Rethrown (err (Z.to_nat maxRetries - 1))
    /\ invocations (fst (callAiWithRetry apiCall amb maxRetries initialDelay))
      = Z.to_nat maxRetries.
Proof.
  intros A apiCall err amb maxRetries initialDelay Hpos Hall.
  unfold callAiWithRetry.
  destruct (Z.to_nat maxRetries) as [|left] eqn:E; [lia|].
  destruct (attempts_all_rejected A apiCall err amb maxRetries initialDelay Hall left 0) as [H1 H2].
  - lia.
  - rewrite H1, H2. split; [f_equal; f_equal; lia | reflexivity].
Qed.

Lemma exhausted_retries_rethrow_last_error_witness :
  snd (callAiWithRetry alwaysUnavailable noJitter 5 5000) = Rethrown serviceUnavailable
  /\ invocations (fst (callAiWithRetry alwaysUnavailable noJitter 5 5000)) = 5.
Proof.
  apply (exhausted_retries_rethrow_last_error nat alwaysUnavailable
           (fun _ => serviceUnavailable) noJitter 5 5000).
  - lia.
  - intro i. split; reflexivity.
Defined.

(** C3 as stated fails: five rejections with a 503 end in that 503 being
    rethrown, not in the generic exhaustion error. *)
Lemma exhaustion_error_not_raised :
  failsFast serviceUnavailable = false
  /\ snd (callAiWithRetry alwaysUnavailable noJitter 5 5000) = Rethrown serviceUnavailable
  /\ snd (callAiWithRetry alwaysUnavailable noJitter 5 5000)
       <> NewError (lit "AI call failed after all retries.").
Proof.
  split; [reflexivity|]. split; [reflexivity|]. discriminate.
Qed.

(** C9: with [maxRetries = 0] the operation is never invoked and the call
    throws the generic exhaustion error. *)
Theorem zero_retries_never_invoke :
  forall (A : Type) (apiCall : nat -> Outcome A) amb initialDelay,
    callAiWithRetry apiCall amb 0 initialDelay
      = ([], NewError (lit "AI call failed after all retries.")).
Proof. intros. reflexivity. Qed.

(** ** Internal link engine *)

(** C10: without a catalogue ([null] or empty) the three passes return the
    body as it is. *)
Theorem link_passes_identity_without_catalogue :
  forall (utmUrl : str -> option str) (body primaryKeyword : str) (minLinks : Z),
    validateAndRepairInternalLinks body None = body
    /\ validateAndRepairInternalLinks body (Some []) = body
    /\ enforceInternalLinkQuota body None primaryKeyword minLinks = body
    /\ enforceInternalLinkQuota body (Some []) primaryKeyword minLinks = body
    /\ processInternalLinks utmUrl body None = Some body
    /\ processInternalLinks utmUrl body (Some []) = Some body.
Proof.
  intros. unfold validateAndRepairInternalLinks, enforceInternalLinkQuota, processInternalLinks.
  simpl. rewrite !Bool.orb_true_r. repeat split; reflexivity.
Qed.

(** ** The matcher

    A successful run hands its continuation a later position of the same
    subject, and every capture it adds is text of that subject. *)

Lemma consumed_app : forall u m : str, consumed m (rev u ++ m) = u.
Proof.
  intros u m. unfold consumed.
  rewrite length_app, Nat.add_sub.
  rewrite firstn_app, Nat.sub_diag, firstn_all. simpl.
  rewrite app_nil_r. apply rev_involutive.
Qed.

Lemma lits_spec :
  forall ci (R : Type) (s m a : str) (k : str -> str -> option R) res,
    lits ci s m a k = Some res ->
    exists u a', a = u ++ a' /\ length u = length s /\ k (rev u ++ m) a' = Some res.
Proof.
  intros ci R s. induction s as [|c s IH]; intros m a k res H.
  - exists [], a. simpl in *. auto.
  - simpl in H. destruct a as [|x a]; [discriminate|].
    destruct (chr_eq ci c x); [|discriminate].
    apply IH in H. destruct H as (u & a' & -> & Hlen & Hk).
    exists (x :: u), a'. simpl. rewrite <- app_assoc. simpl. auto.
Qed.

Lemma star_spec :
  forall (R : Type) p (a m : str) (k : str -> str -> option R) res,
    star p m a k = Some res ->
    exists u a', a = u ++ a' /\ forallb p u = true /\ k (rev u ++ m) a' = Some res.
Proof.
  intros R p a. induction a as [|x a IH]; intros m k res H.
  - exists [], []. simpl in *. auto.
  - simpl in H. destruct (p x) eqn:Hp.
    + destruct (star p (x :: m) a k) as [r|] eqn:E.
      * inversion H; subst r. apply IH in E.
        destruct E as (u & a' & -> & Hall & Hk).
        exists (x :: u), a'. simpl. rewrite Hp, <- app_assoc. simpl. auto.
      * exists [], (x :: a). simpl. auto.
    + exists [], (x :: a). simpl. auto.
Qed.

Lemma rep_spec :
  forall (R : Type) p n (m a : str) (k : str -> str -> option R) res,
    rep n p m a k = Some res ->
    exists u a', a = u ++ a' /\ forallb p u = true /\ k (rev u ++ m) a' = Some res.
Proof.
  intros R p n. induction n as [|n IH]; intros m a k res H.
  - exists [], a. simpl in *. auto.
  - simpl in H. destruct a as [|x a]; [discriminate|].
    destruct (p x) eqn:Hp; [|discriminate].
    apply IH in H. destruct H as (u & a' & -> & Hall & Hk).
    exists (x :: u), a'. simpl. rewrite Hp, <- app_assoc. simpl. auto.
Qed.

Lemma incl_app_prefix : forall (u v c : str), incl c v -> incl c (u ++ v).
Proof. intros u v c H x Hx. apply in_or_app. right. auto. Qed.

Lemma run_spec :
  forall ci r (R : Type) (pre m a : str) caps (k : str -> str -> list str -> option R) res,
    run ci r R pre m a caps k = Some res ->
    exists u a' new,
      a = u ++ a' /\ k (rev u ++ m) a' (caps ++ new) = Some res
      /\ Forall (fun c => incl c a) new.
Proof.
  intros ci r. induction r; intros R pre m a caps k res H; simpl in H.
  - exists [], a, []. rewrite app_nil_r. repeat split; auto.
  - apply lits_spec in H. destruct H as (u & a' & -> & _ & Hk).
    exists u, a', []. rewrite app_nil_r. repeat split; auto.
  - destruct a as [|x a]; [discriminate|]. destruct (p x); [|discriminate].
    exists [x], a, []. rewrite app_nil_r. repeat split; auto.
  - apply IHr1 in H. destruct H as (u1 & a1 & new1 & -> & H & Hn1).
    apply IHr2 in H. destruct H as (u2 & a2 & new2 & -> & H & Hn2).
    exists (u1 ++ u2), a2, (new1 ++ new2).
    rewrite rev_app_distr, <- !app_assoc, (app_assoc caps). repeat split; auto.
    apply Forall_app. split; auto.
    eapply Forall_impl; [|exact Hn2]. intros c Hc. apply incl_app_prefix. exact Hc.
  - destruct (run ci r R pre m a caps k) as [x|] eqn:E.
    + inversion H; subst x. apply IHr in E. exact E.
    + exists [], a, []. rewrite app_nil_r. repeat split; auto.
  - apply star_spec in H. destruct H as (u & a' & -> & _ & Hk).
    exists u, a', []. rewrite app_nil_r. repeat split; auto.
  - destruct a as [|x a]; [discriminate|]. destruct (p x); [|discriminate].
    apply star_spec in H. destruct H as (u & a' & -> & _ & Hk).
    exists (x :: u), a', []. rewrite app_nil_r. simpl. rewrite <- app_assoc. repeat split; auto.
  - apply rep_spec in H. destruct H as (u & a' & -> & _ & Hk).
    exists u, a', []. rewrite app_nil_r. repeat split; auto.
  - apply IHr in H. destruct H as (u & a' & new & -> & H & Hn).
    exists u, a', (new ++ [u]). rewrite consumed_app in H. rewrite app_assoc.
    repeat split; auto. apply Forall_app. split; auto.
    constructor; [|constructor]. apply incl_appl, incl_refl.
  - destruct (run ci r (list str) pre m a caps (fun _ _ caps' => Some caps')) as [caps'|] eqn:E;
      [|discriminate].
    apply IHr in E. destruct E as (u & a' & new & Ha & E & Hn).
    inversion E; subst caps'. exists [], a, new. repeat split; auto.
  - destruct (previous pre m); [|discriminate]. destruct (p a0); [|discriminate].
    exists [], a, []. rewrite app_nil_r. repeat split; auto.
  - destruct (previous pre m); [discriminate|].
    exists [], a, []. rewrite app_nil_r. repeat split; auto.
  - destruct a; [|discriminate]. exists [], [], []. simpl. rewrite app_nil_r. repeat split; auto.
Qed.

(** A match splits the text ahead into the matched text and the rest, and
    its captures are made of characters of that text. *)
Lemma exec_spec :
  forall ci r (b a : str) h,
    exec ci r b a = Some h ->
    a = h_text h ++ h_rest h /\ Forall (fun c => incl c a) (h_caps h).
Proof.
  intros ci r b a h H. unfold exec in H. apply run_spec in H.
  destruct H as (u & a' & new & -> & H & Hn).
  inversion H; subst h. simpl. rewrite app_nil_r, rev_involutive. auto.
Qed.

(** ** Global scans *)

Lemma chunks_plain :
  forall ci r, opensWithBracket ci r ->
  forall t b rest,
    forallb noOpen t = true ->
    chunks ci r b (t ++ rest) 0 = map Plain t ++ chunks ci r (rev t ++ b) rest 0.
Proof.
  intros ci r Hr. induction t as [|x t IH]; intros b rest Ht; [reflexivity|].
  simpl in Ht. apply andb_true_iff in Ht. destruct Ht as [Hx Ht].
  simpl. rewrite Hr.
  - rewrite IH by exact Ht. rewrite <- app_assoc. reflexivity.
  - simpl. intro E. inversion E; subst x. discriminate Hx.
Qed.

Lemma chunks_skip :
  forall ci r u b rest,
    chunks ci r b (u ++ rest) (length u) = chunks ci r (rev u ++ b) rest 0.
Proof.
  intros ci r. induction u as [|x u IH]; intros b rest; [reflexivity|].
  simpl. rewrite IH, <- app_assoc. reflexivity.
Qed.

Lemma chunks_hit :
  forall ci r b x u rest h,
    exec ci r b (x :: u ++ rest) = Some h ->
    h_text h = x :: u ->
    chunks ci r b ((x :: u) ++ rest) 0 = Hit h :: chunks ci r (rev (x :: u) ++ b) rest 0.
Proof.
  intros ci r b x u rest h He Ht. simpl. rewrite He, Ht. simpl.
  rewrite chunks_skip, <- app_assoc. reflexivity.
Qed.

Lemma chunks_nil :
  forall ci r b, opensWithBracket ci r -> chunks ci r b [] 0 = [].
Proof. intros ci r b Hr. simpl. rewrite Hr; [reflexivity | discriminate]. Qed.

Lemma strip_prefix_app :
  forall p s s' r, strip_prefix p s = Some s' -> strip_prefix p (s ++ r) = Some (s' ++ r).
Proof.
  induction p as [|c p IH]; intros s s' r H; simpl in *.
  - inversion H. reflexivity.
  - destruct s as [|x s]; [discriminate|]. simpl.
    destruct (Ascii.eqb c x); [apply IH; exact H | discriminate].
Qed.

Lemma strip_prefix_app_none :
  forall p s x r,
    strip_prefix p s = None -> ~ In x p -> strip_prefix p (s ++ x :: r) = None.
Proof.
  induction p as [|c p IH]; intros s x r H Hx; simpl in *; [discriminate|].
  destruct s as [|y s]; simpl.
  - destruct (Ascii.eqb c x) eqn:E; [|reflexivity].
    apply Ascii.eqb_eq in E. exfalso. apply Hx. left. exact E.
  - destruct (Ascii.eqb c y); [|reflexivity].
    apply IH; [exact H | intro Hin; apply Hx; right; exact Hin].
Qed.

Lemma strip_prefix_eq :
  forall p s s', strip_prefix p s = Some s' -> s = p ++ s'.
Proof.
  induction p as [|c p IH]; intros s s' H; simpl in *.
  - inversion H. reflexivity.
  - destruct s as [|x s]; [discriminate|].
    destruct (Ascii.eqb c x) eqn:E; [|discriminate].
    apply Ascii.eqb_eq in E. subst x. f_equal. apply IH. exact H.
Qed.

Lemma lits_exact :
  forall (R : Type) s m a (k : str -> str -> option R),
    lits false s m a k
      = match strip_prefix s a with
        | Some a' => k (rev s ++ m) a'
        | None => None
        end.
Proof.
  intros R. induction s as [|c s IH]; intros m a k; [reflexivity|].
  simpl. destruct a as [|x a]; [reflexivity|].
  unfold chr_eq. destruct (Ascii.eqb c x) eqn:E; [|reflexivity].
  apply Ascii.eqb_eq in E. subst x. rewrite IH, <- app_assoc. reflexivity.
Qed.

Lemma star_until :
  forall (R : Type) p u m x rest (k : str -> str -> option R) res,
    forallb p u = true ->
    p x = false ->
    k (rev u ++ m) (x :: rest) = Some res ->
    star p m (u ++ x :: rest) k = Some res.
Proof.
  intros R p. induction u as [|c u IH]; intros m x rest k res Hu Hx Hk.
  - simpl in *. rewrite Hx. exact Hk.
  - simpl in Hu. apply andb_true_iff in Hu. destruct Hu as [Hc Hu].
    simpl. rewrite Hc. rewrite (IH (c :: m) x rest k res Hu Hx).
    + reflexivity.
    + simpl in Hk. rewrite <- app_assoc in Hk. exact Hk.
Qed.

Lemma strip_prefix_self : forall p r, strip_prefix p (p ++ r) = Some r.
Proof.
  induction p as [|c p IH]; intro r; simpl; [reflexivity|].
  rewrite Ascii.eqb_refl. apply IH.
Qed.

(** A literal, a run of a class and a closing literal that the class
    excludes: the pattern of the sanitizer. *)
Lemma exec_lit_star_lit :
  forall s p x t u b rest,
    forallb p u = true ->
    p x = false ->
    exec false (seqs [Lit s; Star p; Lit (x :: t)]) b (s ++ u ++ (x :: t) ++ rest)
      = Some (mkHit (s ++ u ++ x :: t) [] rest).
Proof.
  intros s p x t u b rest Hu Hx. unfold exec. simpl.
  rewrite lits_exact, strip_prefix_self.
  apply star_until; [exact Hu | exact Hx |].
  rewrite lits_exact.
  change (x :: t ++ rest) with ((x :: t) ++ rest). rewrite strip_prefix_self.
  rewrite ?Ascii.eqb_refl, ?app_nil_r. f_equal. f_equal.
  rewrite rev_app_distr, rev_involutive. simpl.
  rewrite rev_app_distr, !rev_involutive, <- !app_assoc. reflexivity.
Qed.

Lemma exec_lit_mismatch :
  forall s r b a,
    strip_prefix s a = None -> exec false (Seq (Lit s) r) b a = None.
Proof.
  intros s r b a H. unfold exec. simpl. rewrite lits_exact, H. reflexivity.
Qed.

Lemma broken_opens : opensWithBracket false brokenRegex.
Proof.
  intros b a H. apply exec_lit_mismatch.
  destruct a as [|x a]; [reflexivity|].
  change (lit "[INTERNAL_LINK") with ("["%char :: lit "INTERNAL_LINK"). cbn [strip_prefix].
  destruct (Ascii.eqb "[" x) eqn:E; [|reflexivity].
  apply Ascii.eqb_eq in E. subst x. exfalso. apply H. reflexivity.
Qed.

Lemma placeholder_opens : opensWithBracket false placeholderRegex.
Proof.
  intros b a H. apply exec_lit_mismatch.
  destruct a as [|x a]; [reflexivity|].
  change (lit "[INTERNAL_LINK") with ("["%char :: lit "INTERNAL_LINK"). cbn [strip_prefix].
  destruct (Ascii.eqb "[" x) eqn:E; [|reflexivity].
  apply Ascii.eqb_eq in E. subst x. exfalso. apply H. reflexivity.
Qed.

Lemma forallb_weaken :
  forall (p q : ascii -> bool) (l : str),
    (forall c, p c = true -> q c = true) -> forallb p l = true -> forallb q l = true.
Proof.
  intros p q l Hpq H. rewrite forallb_forall in *. intros c Hc. apply Hpq, H, Hc.
Qed.

Lemma noBracket_noClose : forall c, none_of "[]" c = true -> none_of "]" c = true.
Proof.
  intros c. unfold none_of, one_of. simpl.
  destruct (Ascii.eqb c "["), (Ascii.eqb c "]"); simpl; congruence.
Qed.

Lemma noBracket_noOpen : forall c, none_of "[]" c = true -> noOpen c = true.
Proof.
  intros c. unfold none_of, one_of, noOpen. simpl. rewrite (Ascii.eqb_sym c "[").
  destruct (Ascii.eqb "[" c); simpl; congruence.
Qed.

Lemma exec_broken_link :
  forall inner b rest,
    forallb (none_of "[]") inner = true ->
    isLinkToken inner = true ->
    exec false brokenRegex b (renderSegment (Bracketed inner) ++ rest)
      = Some (mkHit (renderSegment (Bracketed inner)) [] rest).
Proof.
  intros inner b rest Hflat Hlink. unfold isLinkToken, starts_with in Hlink.
  destruct (strip_prefix (lit "INTERNAL_LINK") inner) as [inner'|] eqn:E; [|discriminate].
  apply strip_prefix_eq in E. subst inner.
  rewrite forallb_app in Hflat. apply andb_true_iff in Hflat. destruct Hflat as [_ Hflat].
  pose proof (exec_lit_star_lit (lit "[INTERNAL_LINK") (none_of "]") "]"%char [] inner' b rest
                (forallb_weaken _ _ _ noBracket_noClose Hflat) eq_refl) as H.
  unfold brokenRegex. simpl renderSegment. simpl in H |- *.
  rewrite <- !app_assoc. simpl. exact H.
Qed.

Lemma exec_broken_other :
  forall inner b rest,
    isLinkToken inner = false ->
    exec false brokenRegex b (renderSegment (Bracketed inner) ++ rest) = None.
Proof.
  intros inner b rest Hlink. apply exec_lit_mismatch.
  unfold isLinkToken, starts_with in Hlink.
  destruct (strip_prefix (lit "INTERNAL_LINK") inner) eqn:E; [discriminate|].
  simpl. rewrite <- app_assoc. simpl.
  apply (strip_prefix_app_none (lit "INTERNAL_LINK") inner "]"%char rest E).
  simpl. intuition discriminate.
Qed.

(** ** The sanitizer on bodies without nested brackets *)

Lemma view_plain : forall t, map view (map Plain t) = map Chr t.
Proof. intro t. rewrite map_map. reflexivity. Qed.

Lemma scan_flat :
  forall l b,
    flat l = true ->
    map view (chunks false brokenRegex b (render l) 0) = concat (map segmentPieces l).
Proof.
  induction l as [|s l IH]; intros b Hl.
  - change (render []) with (@nil ascii).
    rewrite (chunks_nil _ _ _ broken_opens). reflexivity.
  - simpl in Hl. apply andb_true_iff in Hl. destruct Hl as [Hs Hl].
    change (render (s :: l)) with (renderSegment s ++ render l).
    change (concat (map segmentPieces (s :: l)))
      with (segmentPieces s ++ concat (map segmentPieces l)).
    destruct s as [t|inner].
    + simpl renderSegment. rewrite (chunks_plain _ _ broken_opens) by exact Hs.
      rewrite map_app, view_plain, IH by exact Hl. reflexivity.
    + simpl in Hs. unfold segmentPieces. destruct (isLinkToken inner) eqn:Hlink.
      * pose proof (exec_broken_link inner b (render l) Hs Hlink) as He.
        change (renderSegment (Bracketed inner)) with ("["%char :: inner ++ lit "]") in *.
        rewrite (chunks_hit _ _ _ _ _ _ _ He eq_refl).
        simpl map. rewrite IH by exact Hl. reflexivity.
      * pose proof (exec_broken_other inner b (render l) Hlink) as He.
        change (renderSegment (Bracketed inner)) with ("["%char :: inner ++ lit "]") in *.
        simpl app in *. cbn [chunks]. rewrite He.
        rewrite (chunks_plain _ _ broken_opens).
        -- cbn [map view]. rewrite map_app, view_plain, IH by exact Hl.
           rewrite map_app. reflexivity.
        -- rewrite forallb_app. simpl.
           rewrite (forallb_weaken _ _ _ noBracket_noOpen Hs). reflexivity.
Qed.

Lemma emit_view : forall cs, map (emit sanitizeOne) cs = map emitPiece (map view cs).
Proof.
  intro cs. rewrite map_map. apply map_ext. intros [x|h]; reflexivity.
Qed.

Lemma concat_chars : forall t, concat (map emitPiece (map Chr t)) = t.
Proof.
  induction t as [|x t IH]; [reflexivity|]. simpl. rewrite IH. reflexivity.
Qed.

Lemma sanitize_segment :
  forall s, concat (map emitPiece (segmentPieces s)) = renderSegment (sanitizeSegment s).
Proof.
  intros [t|inner]; [apply concat_chars|].
  unfold segmentPieces, sanitizeSegment.
  destruct (isLinkToken inner); [|apply concat_chars].
  cbn [map concat emitPiece andb]. rewrite app_nil_r. unfold sanitizeToken.
  destruct (isValidToken (renderSegment (Bracketed inner))); reflexivity.
Qed.

Lemma sanitize_flat :
  forall l,
    flat l = true ->
    sanitizeBrokenPlaceholders (render l) = render (map sanitizeSegment l).
Proof.
  intros l Hl. unfold sanitizeBrokenPlaceholders, replaceAll, scan.
  rewrite emit_view, (scan_flat l [] Hl).
  clear Hl. induction l as [|s l IH]; [reflexivity|].
  cbn [map concat]. rewrite map_app, concat_app, IH, sanitize_segment. reflexivity.
Qed.

Lemma search_from_caps :
  forall ci r a b pre h,
    search_from ci r b a = Some (pre, h) -> Forall (fun c => incl c a) (h_caps h).
Proof.
  intros ci r. induction a as [|x a IH]; intros b pre h H; simpl in H.
  - destruct (exec ci r b []) eqn:E; [|discriminate].
    inversion H; subst. apply exec_spec in E. apply E.
  - destruct (exec ci r b (x :: a)) eqn:E.
    + inversion H; subst. apply exec_spec in E. apply E.
    + apply IH in H. eapply Forall_impl; [|exact H].
      intros c Hc. apply incl_tl. exact Hc.
Qed.

Lemma cap_incl :
  forall n h a, Forall (fun c => incl c a) (h_caps h) -> incl (cap n h) a.
Proof.
  intros n h a H. unfold cap.
  destruct (nth_in_or_default (n - 1) (h_caps h) []) as [Hin|Hd].
  - rewrite Forall_forall in H. apply H. exact Hin.
  - rewrite Hd. intros x [].
Qed.

Lemma textAttr_noOpen :
  forall inner text,
    forallb (none_of "[]") inner = true ->
    attrOf textAttr (renderSegment (Bracketed inner)) = Some text ->
    forallb noOpen text = true.
Proof.
  intros inner text Hflat H. unfold attrOf, search in H.
  change (renderSegment (Bracketed inner)) with ("["%char :: (inner ++ lit "]")) in H.
  cbn [search_from] in H.
  assert (Hx : exec false textAttr [] ("["%char :: (inner ++ lit "]")) = None)
    by (apply (exec_lit_mismatch (js "text='") (seqs [Grp (Plus not_dq); Lit (js "'")]));
        reflexivity).
  rewrite Hx in H. clear Hx.
  destruct (search_from false textAttr ["["%char] (inner ++ lit "]")) as [[pre h]|] eqn:E;
    [|discriminate].
  destruct (truthy (cap 1 h)); [|discriminate]. inversion H; subst text.
  apply search_from_caps in E. apply (cap_incl 1) in E.
  rewrite forallb_forall. intros c Hc. apply E in Hc.
  apply in_app_or in Hc. destruct Hc as [Hc|Hc].
  - rewrite forallb_forall in Hflat. apply noBracket_noOpen, Hflat, Hc.
  - simpl in Hc. destruct Hc as [<-|[]]. reflexivity.
Qed.

Lemma flat_sanitize : forall l, flat l = true -> flat (map sanitizeSegment l) = true.
Proof.
  induction l as [|s l IH]; intro Hl; [reflexivity|].
  simpl in Hl. apply andb_true_iff in Hl. destruct Hl as [Hs Hl].
  cbn [map flat forallb]. fold (flat (map sanitizeSegment l)). rewrite IH by exact Hl.
  rewrite andb_true_r. destruct s as [t|inner]; [exact Hs|].
  unfold sanitizeSegment.
  destruct (isLinkToken inner); [|exact Hs].
  destruct (isValidToken (renderSegment (Bracketed inner))) eqn:V; [exact Hs|].
  cbn [andb negb flatSegment]. unfold sanitizeToken. rewrite V.
  destruct (attrOf textAttr (renderSegment (Bracketed inner))) as [text|] eqn:E;
    [|reflexivity].
  apply (textAttr_noOpen inner text Hs E).
Qed.










(** The orchestrator runs the sanitizer before the three other passes
    (lines 4061-4064), so a malformed token that the repair pass leaves
    behind stays in the body; in the order of the specification the
    sanitizer removes it. *)
Lemma orchestrator_order_keeps_malformed_token :
  finalizeLinks utmOfPlainUrl hollowBody (Some [seoGuide]) [] = Some (js "<p>[INTERNAL_LINK y]</p>")
  /\ malformedTokens (js "<p>[INTERNAL_LINK y]</p>") = [js "[INTERNAL_LINK y]"]
  /\ linkPassesInSpecOrder utmOfPlainUrl hollowBody (Some [seoGuide]) [] MIN_INTERNAL_LINKS
       = Some (lit "<p></p>").
Proof. vm_compute. repeat split; reflexivity. Qed.

(** ** Matches do not depend on the text before them *)







Lemma emit_plain : forall f t, concat (map (emit f) (map Plain t)) = t.
Proof.
  intros f. induction t as [|c t IH]; [reflexivity|]. simpl. rewrite IH. reflexivity.
Qed.


Lemma validate_is_replaceAll :
  forall pages post,
    pages <> [] ->
    validateAndRepairInternalLinks post (Some pages)
      = replaceAll false placeholderRegex (repairOne pages) post.
Proof.
  intros pages post Hp. unfold validateAndRepairInternalLinks.
  destruct pages as [|p pages]; [contradiction|]. cbn [length Nat.eqb orb].
  rewrite orb_false_r. destruct post as [|x post]; [|reflexivity].
  cbn [truthy str_eqb negb]. unfold replaceAll, scan.
  rewrite (chunks_nil _ _ _ placeholder_opens). reflexivity.
Qed.


Lemma str_eqb_eq : forall s t, str_eqb s t = true <-> s = t.
Proof.
  induction s as [|x s IH]; intros [|y t]; simpl; split; try discriminate; try reflexivity.
  - intro H. apply andb_true_iff in H. destruct H as [Hx Hs].
    apply Ascii.eqb_eq in Hx. apply IH in Hs. subst. reflexivity.
  - intro H. inversion H; subst. rewrite Ascii.eqb_refl. simpl. apply IH. reflexivity.
Qed.




(** The two percentages of lines 1065-1066 are rounded quotients: two
    thirds of a hundred is not the same number as a hundred minus a third
    of a hundred. *)
Lemma percent_is_rounded :
  percent 2 5 = 40%float
  /\ (percent 2 3 <? 100 - percent 1 3)%float = true.
Proof. split; vm_compute; reflexivity. Qed.

(** Line 1072 compares the rounded scores: of two pages that tie in exact
    arithmetic, the later one is taken when its score is the larger
    number. *)
Lemma near_tie_goes_to_the_larger_number :
  scoreOf tieAnchor (setOf (meaningfulWords tieAnchor)) tiePageOne
    = Some ((percent 4 6 + percent 4 4) / 2)%float
  /\ scoreOf tieAnchor (setOf (meaningfulWords tieAnchor)) tiePageTwo
     = Some ((percent 5 6 + percent 5 6) / 2)%float
  /\ ((percent 4 6 + percent 4 4) / 2 <? (percent 5 6 + percent 5 6) / 2)%float = true
  /\ fst (bestOf tieAnchor (setOf (meaningfulWords tieAnchor)) [tiePageOne; tiePageTwo])
     = Some tiePageTwo.
Proof. repeat split; vm_compute; reflexivity. Qed.







(** ** Quota enforcement *)

(** C4 on the code: in the scenario of the specification the pass adds five
    placeholders, but three of them point to the pages the body already
    links.  The pattern of line 1103 has no capturing group, so [match[1]]
    is [undefined] for every existing placeholder, the set of linked slugs
    holds no slug, and the pages already linked stay in the candidate
    pool. *)
Theorem quota_links_a_linked_page_again :
  linkedSlugsOf quotaBody
    = [lit "keyword-research"; lit "link-building"; lit "technical-seo"]
  /\ map (fun m => capOpt 1 (snd m)) (matchAll false placeholderRegexNoGroups quotaBody)
       = [None; None; None]
  /\ map (fun c => p_slug (fst c)) (candidatePagesOf [None; None; None] quotaCatalogue)
       = map p_slug quotaCatalogue
  /\ enforceInternalLinkQuota quotaBody (Some quotaCatalogue) [] 8 = quotaResult
  /\ linkedSlugsOf quotaResult
       = [lit "keyword-research"; lit "link-building"; lit "technical-seo";
          lit "keyword-research"; lit "link-building"; lit "technical-seo";
          lit "content-one"; lit "content-two"].
Proof. vm_compute. repeat split; reflexivity. Qed.

(** ** Video guardian *)

(** With fewer than two embeds the body is returned as it is. *)
Lemma video_guardian_few_embeds :
  forall body videos,
    length (matchAll false iframeRegex body) < 2 ->
    enforceUniqueVideoEmbeds body videos = body.
Proof.
  intros body [videos|] H; [|reflexivity]. unfold enforceUniqueVideoEmbeds.
  destruct (length videos <? 2); [reflexivity|].
  apply Nat.ltb_lt in H. rewrite H. reflexivity.
Qed.

(** C7 on the code: the body is returned as it is when fewer than two
    videos were selected, and on ordinary embeds the identifier of the
    second iframe alone is rewritten; but line 1388 replaces the first
    occurrence of the identifier in the text of the second iframe, so when
    the identifier also stands in an earlier attribute of that tag, that
    attribute is rewritten and the embed keeps the duplicated video. *)
Theorem video_guardian_rewrites_first_occurrence :
  (forall body v,
      enforceUniqueVideoEmbeds body None = body
      /\ enforceUniqueVideoEmbeds body (Some []) = body
      /\ enforceUniqueVideoEmbeds body (Some [v]) = body)
  /\ enforceUniqueVideoEmbeds plainEmbeds (Some [firstVideo; secondVideo]) = plainEmbedsAfter
  /\ embeddedIds duplicatedEmbeds = [lit "dQw4w9WgXcQ"; lit "dQw4w9WgXcQ"]
  /\ enforceUniqueVideoEmbeds duplicatedEmbeds (Some [firstVideo; secondVideo])
       = duplicatedEmbedsAfter
  /\ embeddedIds duplicatedEmbedsAfter = [lit "dQw4w9WgXcQ"; lit "dQw4w9WgXcQ"].
Proof.
  split; [intros; repeat split; reflexivity|].
  vm_compute. repeat split; reflexivity.
Qed.

(** ** Substrings, [split] and [join] *)

Lemma starts_with_iff : forall t s, starts_with t s = true <-> exists v, s = t ++ v.
Proof.
  intros t s. unfold starts_with. split.
  - destruct (strip_prefix t s) as [v|] eqn:E; [|discriminate].
    intros _. exists v. apply strip_prefix_eq. exact E.
  - intros [v ->]. rewrite strip_prefix_self. reflexivity.
Qed.

Lemma index_from_found :
  forall t s i, (exists j, index_from i t s = Some j) <-> exists u v, s = u ++ t ++ v.
Proof.
  intros t. induction s as [|x s IH]; intro i.
  - simpl. destruct (starts_with t []) eqn:E.
    + split; [|eauto]. intros _. apply starts_with_iff in E. destruct E as [v E].
      exists [], v. exact E.
    + split; [intros [j H]; discriminate|]. intros (u & v & H).
      destruct u; [|discriminate]. simpl in H.
      assert (starts_with t [] = true) by (apply starts_with_iff; eauto). congruence.
  - simpl. destruct (starts_with t (x :: s)) eqn:E.
    + split; [|eauto]. intros _. apply starts_with_iff in E. destruct E as [v E].
      exists [], v. exact E.
    + rewrite IH. split.
      * intros (u & v & ->). exists (x :: u), v. reflexivity.
      * intros (u & v & H). destruct u as [|y u].
        -- assert (starts_with t (x :: s) = true) by (apply starts_with_iff; eauto).
           congruence.
        -- inversion H; subst. eauto.
Qed.

Lemma includes_iff : forall s t, includes s t = true <-> exists u v, s = u ++ t ++ v.
Proof.
  intros s t. rewrite <- (index_from_found t s 0). unfold includes, indexOf.
  destruct (index_from 0 t s); split; eauto; try discriminate.
  intros [j H]. discriminate.
Qed.

Lemma includes_app_l : forall s t r, includes s t = true -> includes (s ++ r) t = true.
Proof.
  intros s t r H. apply includes_iff in H. destruct H as (u & v & ->).
  apply includes_iff. exists u, (v ++ r). rewrite <- !app_assoc. reflexivity.
Qed.

Lemma includes_app_r : forall s t r, includes s t = true -> includes (r ++ s) t = true.
Proof.
  intros s t r H. apply includes_iff in H. destruct H as (u & v & ->).
  apply includes_iff. exists (r ++ u), v. rewrite <- !app_assoc. reflexivity.
Qed.

Lemma split_go_nonempty : forall sep s cur skip, split_go sep cur s skip <> [].
Proof.
  intros sep. induction s as [|x s IH]; intros cur skip; simpl; [discriminate|].
  destruct skip; [|apply IH]. destruct (starts_with sep (x :: s)); [discriminate | apply IH].
Qed.

Lemma join_cons :
  forall sep x l, l <> [] -> join sep (x :: l) = x ++ sep ++ join sep l.
Proof. intros sep x [|y l] H; [contradiction | reflexivity]. Qed.

Lemma join_split_go :
  forall sep, sep <> [] ->
  forall s cur skip,
    skip <= length s -> join sep (split_go sep cur s skip) = rev cur ++ skipn skip s.
Proof.
  intros sep Hsep. induction s as [|x s IH]; intros cur skip Hskip.
  - simpl in *. assert (skip = 0) by lia. subst. simpl. rewrite app_nil_r. reflexivity.
  - simpl. destruct skip as [|n].
    + destruct (starts_with sep (x :: s)) eqn:E.
      * apply starts_with_iff in E. destruct E as [v E].
        destruct sep as [|c sep]; [contradiction|]. simpl in E. inversion E; subst.
        rewrite join_cons by apply split_go_nonempty.
        rewrite IH by (simpl; rewrite length_app; lia).
        simpl. rewrite Nat.sub_0_r, skipn_app, skipn_all, Nat.sub_diag. reflexivity.
      * rewrite IH by lia. simpl. rewrite <- app_assoc. reflexivity.
    + simpl in Hskip. rewrite IH by lia. reflexivity.
Qed.

Lemma join_split : forall sep s, sep <> [] -> join sep (split sep s) = s.
Proof. intros sep s H. unfold split. rewrite join_split_go by (exact H || lia). reflexivity. Qed.

Lemma join_app :
  forall sep l1 l2,
    l1 <> [] -> l2 <> [] -> join sep (l1 ++ l2) = join sep l1 ++ sep ++ join sep l2.
Proof.
  intros sep. induction l1 as [|x l1 IH]; intros l2 H1 H2; [contradiction|].
  destruct l1 as [|y l1].
  - simpl app. rewrite join_cons by exact H2. reflexivity.
  - change ((x :: y :: l1) ++ l2) with (x :: (y :: l1) ++ l2).
    rewrite join_cons by discriminate. rewrite IH by (discriminate || exact H2).
    rewrite (join_cons sep x (y :: l1)) by discriminate.
    rewrite <- !app_assoc. reflexivity.
Qed.

(** A text that shares no character with the separator, found in
    [A ++ sep ++ B], lies in [A] or in [B]. *)
Lemma occurrence_avoids_separator :
  forall (sep t u v A B : str),
    sep <> [] -> t <> [] ->
    (forall c, In c t -> ~ In c sep) ->
    u ++ t ++ v = A ++ sep ++ B ->
    (exists w, A = u ++ t ++ w) \/ (exists w, B = w ++ t ++ v).
Proof.
  intros sep t u v A B Hsep Ht Hdis H.
  apply app_eq_app in H. destruct H as [l [[-> H]|[-> H]]].
  - apply app_eq_app in H. destruct H as [l' [[-> H]|[-> H]]].
    + destruct l' as [|c l'].
      * right. exists []. simpl in H. rewrite <- H. reflexivity.
      * destruct t as [|c' t]; [contradiction|]. inversion H; subst c'.
        exfalso. apply (Hdis c); [left; reflexivity|].
        apply in_or_app. right. left. reflexivity.
    + right. exists l'. exact H.
  - apply app_eq_app in H. destruct H as [l' [[-> H]|[-> H]]].
    + destruct l' as [|c l'].
      * left. exists []. rewrite !app_nil_r. reflexivity.
      * destruct sep as [|c' sep]; [contradiction|]. inversion H; subst c'.
        exfalso. apply (Hdis c); [|left; reflexivity].
        apply in_or_app. right. left. reflexivity.
    + left. exists l'. reflexivity.
Qed.

Lemma includes_trans :
  forall s x t, includes s x = true -> includes x t = true -> includes s t = true.
Proof.
  intros s x t Hs Hx. apply includes_iff in Hs. destruct Hs as (u & v & ->).
  apply includes_app_r, includes_app_l. exact Hx.
Qed.

Lemma join_holds_element :
  forall sep l1 x l2, includes (join sep (l1 ++ x :: l2)) x = true.
Proof.
  intros sep. induction l1 as [|y l1 IH]; intros x l2.
  - simpl app. destruct l2 as [|z l2].
    + apply includes_iff. exists [], []. rewrite app_nil_r. reflexivity.
    + rewrite join_cons by discriminate. apply includes_iff.
      exists [], (sep ++ join sep (z :: l2)). reflexivity.
  - change ((y :: l1) ++ x :: l2) with (y :: (l1 ++ x :: l2)).
    rewrite join_cons by (destruct l1; discriminate).
    apply includes_app_r, includes_app_r, IH.
Qed.

Lemma wrapped_includes : forall token, includes (lit "<p>" ++ token ++ lit "</p>") token = true.
Proof. intro token. apply includes_iff. exists (lit "<p>"), (lit "</p>"). reflexivity. Qed.

(** ** Content normaliser *)

Lemma inject_includes :
  forall token after body,
    truthy body = true -> includes (injectPlaceholder token after body) token = true.
Proof.
  intros token after body Hbody. unfold injectPlaceholder. rewrite Hbody.
  destruct (includes body token) eqn:E; [exact E|]. cbn [andb negb].
  destruct (after <? length (split (lit "</p>") body)).
  - unfold spliceIn.
    apply (includes_trans _ _ _ (join_holds_element _ _ _ _) (wrapped_includes token)).
  - apply includes_app_r, wrapped_includes.
Qed.

Lemma inject_preserves :
  forall token after body t,
    t <> [] ->
    (forall c, In c t -> ~ In c (lit "</p>")) ->
    includes body t = true ->
    includes (injectPlaceholder token after body) t = true.
Proof.
  intros token after body t Ht Hdis Hin. unfold injectPlaceholder.
  destruct (truthy body && negb (includes body token))%bool; [|exact Hin].
  destruct (after <? length (split (lit "</p>") body)) eqn:E;
    [|apply includes_app_l; exact Hin].
  apply Nat.ltb_lt in E. unfold spliceIn.
  set (l := split (lit "</p>") body) in *.
  set (x := lit "<p>" ++ token ++ lit "</p>").
  assert (Hbody : join (lit "</p>") l = body) by (apply join_split; discriminate).
  assert (H2 : skipn after l <> []).
  { intro H. apply (f_equal (@length str)) in H. rewrite length_skipn in H. simpl in H. lia. }
  destruct (firstn after l) as [|p0 l1] eqn:E1.
  - simpl app. rewrite join_cons by exact H2.
    apply includes_app_r, includes_app_r.
    rewrite <- (firstn_skipn after l), E1 in Hbody. cbn [app] in Hbody.
    rewrite Hbody. exact Hin.
  - rewrite join_app by discriminate.
    rewrite (join_cons _ x (skipn after l)) by exact H2.
    rewrite <- (firstn_skipn after l), E1 in Hbody.
    rewrite join_app in Hbody by (discriminate || exact H2).
    apply includes_iff in Hin. destruct Hin as (u & v & Huv).
    rewrite <- Hbody in Huv. symmetry in Huv.
    apply occurrence_avoids_separator in Huv; [| discriminate | exact Ht | exact Hdis].
    destruct Huv as [[w Hw]|[w Hw]].
    + apply includes_app_l. apply includes_iff. eauto.
    + apply includes_app_r, includes_app_r, includes_app_r, includes_app_r.
      apply includes_iff. eauto.
Qed.

Lemma image1_avoids_separator : forall c, In c IMAGE_1 -> ~ In c (lit "</p>").
Proof.
  intros c H. simpl in H.
  repeat (destruct H as [<-|H]; [simpl; intuition discriminate|]). contradiction.
Qed.

Lemma includes_truthy :
  forall s t, t <> [] -> includes s t = true -> truthy s = true.
Proof.
  intros s t Ht H. apply includes_iff in H. destruct H as (u & v & ->).
  destruct u as [|x u]; [|reflexivity]. destruct t as [|y t]; [contradiction | reflexivity].
Qed.

(** Both placeholders are in the body once the two injections have run on
    a non-empty body. *)
Lemma injections_include_both :
  forall body,
    truthy body = true ->
    includes (injectPlaceholder IMAGE_2 5 (injectPlaceholder IMAGE_1 2 body)) IMAGE_1 = true
    /\ includes (injectPlaceholder IMAGE_2 5 (injectPlaceholder IMAGE_1 2 body)) IMAGE_2 = true.
Proof.
  intros body Hbody.
  pose proof (inject_includes IMAGE_1 2 body Hbody) as H1. split.
  - apply inject_preserves; [discriminate | exact image1_avoids_separator | exact H1].
  - apply inject_includes. apply (includes_truthy _ IMAGE_1); [discriminate | exact H1].
Qed.

(** C1, as the code has it: for the payload [{}] and the title "My Topic"
    the record has the title "My Topic", the slug "my-topic", an empty body
    and two image descriptors with the two placeholder tokens; the tokens
    are injected into the body when the body is not empty: then, whenever
    the image list is missing or empty, the record has exactly two image
    descriptors and its body contains both tokens. *)
Theorem normalize_synthesizes_images :
  (title (normalizeGeneratedContent emptyObject (lit "My Topic")) = Some (lit "My Topic")
   /\ slug (normalizeGeneratedContent emptyObject (lit "My Topic")) = Some (lit "my-topic")
   /\ content (normalizeGeneratedContent emptyObject (lit "My Topic")) = Some []
   /\ option_map (map img_placeholder)
        (imageDetails (normalizeGeneratedContent emptyObject (lit "My Topic")))
      = Some [IMAGE_1; IMAGE_2])
  /\ (forall parsedJson itemTitle,
        needsImages (imageDetails parsedJson) = true ->
        truthyStr (content parsedJson) = true ->
        exists body images,
          content (normalizeGeneratedContent parsedJson itemTitle) = Some body
          /\ imageDetails (normalizeGeneratedContent parsedJson itemTitle) = Some images
          /\ length images = 2
          /\ includes body IMAGE_1 = true
          /\ includes body IMAGE_2 = true).
Proof.
  split; [repeat split; reflexivity|].
  intros parsedJson itemTitle Himg Hbody.
  unfold normalizeGeneratedContent. rewrite Himg, Hbody. cbn [content imageDetails].
  eexists. eexists. split; [reflexivity|]. split; [reflexivity|]. split; [reflexivity|].
  apply injections_include_both. exact Hbody.
Qed.

Lemma normalize_synthesizes_images_witness :
  exists body images,
    content (normalizeGeneratedContent sixParagraphs (lit "My Topic")) = Some body
    /\ imageDetails (normalizeGeneratedContent sixParagraphs (lit "My Topic")) = Some images
    /\ length images = 2
    /\ includes body IMAGE_1 = true
    /\ includes body IMAGE_2 = true.
Proof.
  destruct normalize_synthesizes_images as [_ H].
  apply (H sixParagraphs (lit "My Topic")); reflexivity.
Defined.

(** C1 as stated fails: the body of the record for [{}] is empty and holds
    neither token. *)
Lemma empty_payload_body_has_no_placeholder :
  content (normalizeGeneratedContent emptyObject (lit "My Topic")) = Some []
  /\ includes [] IMAGE_1 = false
  /\ includes [] IMAGE_2 = false.
Proof. repeat split; reflexivity. Qed.

(** ** JSON extractor *)

Lemma extractJson_sound :
  forall text s, extractJson text = Ok s -> jsonParses s = true.
Proof.
  intros text s. unfold extractJson.
  destruct (negb (truthy text)); [discriminate|].
  destruct (jsonParses text) eqn:E0; [intro H; inversion H; subst; exact E0|].
  destruct (minOpt (indexOf (lit "{") (cleanUp text)) (indexOf (lit "[") (cleanUp text)))
    as [startIndex|]; [|discriminate].
  cbv zeta.
  match goal with
  | |- (if jsonParses ?c then _ else _) = _ -> _ =>
      destruct (jsonParses c) eqn:E1; [intro H; inversion H; subst; exact E1|]
  end.
  match goal with
  | |- (if jsonParses ?c then _ else _) = _ -> _ =>
      destruct (jsonParses c) eqn:E2; [intro H; inversion H; subst; exact E2 | discriminate]
  end.
Qed.

(** C5 as stated fails: a bracket in the conversational prefix, or a cut
    that takes closers of two kinds, makes the extractor throw. *)
Lemma extractJson_gives_up :
  jsonParses goodJson = true
  /\ extractJson withBracketInPreamble = Throw unparseable
  /\ extractJson cutMixed = Throw unparseable.
Proof. vm_compute. repeat split; reflexivity. Qed.

(** *** The bounds of the JSON recogniser are large enough

    A value that is recognised with some bounds is recognised with every
    pair of bounds that reaches the number of characters it takes; so
    [jsonParses], which takes both bounds above the length of the text,
    accepts exactly the texts that are accepted with some bounds. *)

Lemma drop_while_length : forall p s, length (drop_while p s) <= length s.
Proof.
  intros p. induction s as [|x s IH]; simpl; [lia|]. destruct (p x); simpl; lia.
Qed.

Lemma skip_ws_cons : forall s c r, skip_ws s = c :: r -> length r < length s.
Proof.
  intros s c r H. pose proof (drop_while_length is_json_ws s) as L.
  unfold skip_ws in H. rewrite H in L. simpl in L. lia.
Qed.

Lemma strip_prefix_length :
  forall p s r, strip_prefix p s = Some r -> length s = length p + length r.
Proof.
  intros p s r H. apply strip_prefix_eq in H. subst s. apply length_app.
Qed.

Lemma json_string_shorter : forall s r, json_string s = Some r -> length r < length s.
Proof.
  intro s. remember (length s) as n eqn:Hn. revert s Hn.
  induction n as [n IH] using lt_wf_ind. intros s Hn r H.
  destruct s as [|c s]; [discriminate|]. simpl in H, Hn.
  destruct (Ascii.eqb c dq); [inversion H; subst; simpl; lia|].
  destruct (Ascii.eqb c "\").
  - destruct s as [|e s2]; [discriminate|].
    destruct (Ascii.eqb e dq || one_of "\/bfnrt" e)%bool.
    + apply (IH (length s2)) in H; simpl in *; try lia.
    + destruct (Ascii.eqb e "u"); [|discriminate].
      destruct s2 as [|h1 [|h2 [|h3 [|h4 s6]]]]; try discriminate.
      destruct (is_hex h1 && is_hex h2 && is_hex h3 && is_hex h4)%bool; [|discriminate].
      apply (IH (length s6)) in H; simpl in *; try lia.
  - destruct (N.ltb (code c) 32); [discriminate|].
    apply (IH (length s)) in H; simpl in *; try lia.
Qed.

Lemma digits1_shorter : forall s r, digits1 s = Some r -> length r < length s.
Proof.
  intros [|c s] r H; [discriminate|]. unfold digits1 in H.
  destruct (is_digit c); [|discriminate]. inversion H; subst.
  pose proof (drop_while_length is_digit s). simpl. lia.
Qed.

Lemma json_exponent_length : forall s r, json_exponent s = Some r -> length r <= length s.
Proof.
  intros [|c s] r H; unfold json_exponent in H; [inversion H; subst; lia|].
  destruct (one_of "eE" c); [|inversion H; subst; lia].
  destruct s as [|d s2]; [discriminate|].
  destruct (one_of "+-" d); apply digits1_shorter in H; simpl in *; lia.
Qed.

Lemma json_fraction_length : forall s r, json_fraction s = Some r -> length r <= length s.
Proof.
  intros [|c s] r H; unfold json_fraction in H; [inversion H; subst; lia|].
  destruct (Ascii.eqb c ".").
  - unfold bindOpt in H. destruct (digits1 s) as [t|] eqn:E; [|discriminate].
    apply digits1_shorter in E. apply json_exponent_length in H. simpl. lia.
  - apply json_exponent_length in H. exact H.
Qed.

Lemma json_number_shorter : forall s r, json_number s = Some r -> length r < length s.
Proof.
  intros s r H. unfold json_number in H.
  set (u := match s with
            | [] => s
            | c :: s' => if Ascii.eqb c "-" then s' else s
            end) in H.
  assert (Hu : length u <= length s).
  { subst u. destruct s as [|c s]; [lia|]. destruct (Ascii.eqb c "-"); simpl; lia. }
  destruct u as [|c u']; [discriminate|]. simpl in Hu.
  destruct (Ascii.eqb c "0").
  - apply json_fraction_length in H. lia.
  - destruct (is_digit c); [|discriminate]. apply json_fraction_length in H.
    pose proof (drop_while_length is_digit u'). lia.
Qed.

Lemma json_literal_shorter : forall s r, json_literal s = Some r -> length r < length s.
Proof.
  intros s r H. unfold json_literal in H.
  destruct (strip_prefix (lit "true") s) eqn:E1.
  - inversion H; subst. apply strip_prefix_length in E1. simpl in E1. lia.
  - destruct (strip_prefix (lit "false") s) eqn:E2.
    + inversion H; subst. apply strip_prefix_length in E2. simpl in E2. lia.
    + apply strip_prefix_length in H. simpl in H. lia.
Qed.

Lemma elements_adequate :
  forall value value' bound,
    extends value value' bound ->
    forall k s r,
      json_elements value k s = Some r ->
      length r < length s
      /\ forall k', length s - length r <= k' -> length s - length r <= bound ->
                    json_elements value' k' s = Some r.
Proof.
  intros value value' bound Hext. induction k as [|k IH]; intros s r H; [discriminate|].
  simpl in H. destruct (value s) as [r1|] eqn:Ev; [|discriminate].
  destruct (Hext s r1 Ev) as [L1 Hv'].
  destruct (skip_ws r1) as [|c r'] eqn:Ew; [discriminate|].
  pose proof (skip_ws_cons r1 c r' Ew) as L2.
  destruct (Ascii.eqb c ",") eqn:Ec.
  - destruct (IH r' r H) as [L3 Hrest]. split; [lia|].
    intros k' Hk Hb. destruct k' as [|k']; [lia|].
    simpl. rewrite Hv' by lia. rewrite Ew, Ec. apply Hrest; lia.
  - destruct (Ascii.eqb c "]") eqn:Ec2; [|discriminate]. inversion H; subst r'.
    split; [lia|]. intros k' Hk Hb. destruct k' as [|k']; [lia|].
    simpl. rewrite Hv' by lia. rewrite Ew, Ec, Ec2. reflexivity.
Qed.

Lemma members_adequate :
  forall value value' bound,
    extends value value' bound ->
    forall k s r,
      json_members value k s = Some r ->
      length r < length s
      /\ forall k', length s - length r <= k' -> length s - length r <= bound ->
                    json_members value' k' s = Some r.
Proof.
  intros value value' bound Hext. induction k as [|k IH]; intros s r H; [discriminate|].
  simpl in H.
  destruct (skip_ws s) as [|q s1] eqn:E0; [discriminate|].
  pose proof (skip_ws_cons s q s1 E0) as L0.
  destruct (Ascii.eqb q dq) eqn:Eq; [|discriminate].
  destruct (json_string s1) as [s2|] eqn:Es; [|discriminate].
  pose proof (json_string_shorter s1 s2 Es) as Ls.
  destruct (skip_ws s2) as [|c s3] eqn:E2; [discriminate|].
  pose proof (skip_ws_cons s2 c s3 E2) as L2.
  destruct (Ascii.eqb c ":") eqn:Ec; [|discriminate].
  destruct (value s3) as [r1|] eqn:Ev; [|discriminate].
  destruct (Hext s3 r1 Ev) as [L1 Hv'].
  destruct (skip_ws r1) as [|d r'] eqn:Ew; [discriminate|].
  pose proof (skip_ws_cons r1 d r' Ew) as L3.
  destruct (Ascii.eqb d ",") eqn:Ed.
  - destruct (IH r' r H) as [L4 Hrest]. split; [lia|].
    intros k' Hk Hb. destruct k' as [|k']; [lia|].
    simpl. rewrite E0, Eq, Es, E2, Ec. rewrite Hv' by lia. rewrite Ew, Ed.
    apply Hrest; lia.
  - destruct (Ascii.eqb d "}") eqn:Ed2; [|discriminate]. inversion H; subst r'.
    split; [lia|]. intros k' Hk Hb. destruct k' as [|k']; [lia|].
    simpl. rewrite E0, Eq, Es, E2, Ec. rewrite Hv' by lia. rewrite Ew, Ed, Ed2.
    reflexivity.
Qed.

Lemma step_adequate :
  forall value value' bound n s r,
    extends value value' bound ->
    json_step value n s = Some r ->
    length r < length s
    /\ forall n', length s - length r <= n' -> length s - length r <= S bound ->
                  json_step value' n' s = Some r.
Proof.
  intros value value' bound n s r Hext H. unfold json_step in *.
  destruct (skip_ws s) as [|c s1] eqn:E0; [discriminate|].
  pose proof (skip_ws_cons s c s1 E0) as L0.
  destruct (Ascii.eqb c "{") eqn:Eo.
  - destruct (skip_ws s1) as [|d s2] eqn:E1; [discriminate|].
    pose proof (skip_ws_cons s1 d s2 E1) as L1.
    destruct (Ascii.eqb d "}") eqn:Ed.
    + inversion H; subst. split; [lia | reflexivity].
    + destruct (members_adequate value value' bound Hext n s1 r H) as [L2 Hm].
      split; [lia|]. intros n' Hn Hb. apply Hm; lia.
  - destruct (Ascii.eqb c "[") eqn:Ea.
    + destruct (skip_ws s1) as [|d s2] eqn:E1; [discriminate|].
      pose proof (skip_ws_cons s1 d s2 E1) as L1.
      destruct (Ascii.eqb d "]") eqn:Ed.
      * inversion H; subst. split; [lia | reflexivity].
      * destruct (elements_adequate value value' bound Hext n s1 r H) as [L2 Hm].
        split; [lia|]. intros n' Hn Hb. apply Hm; lia.
    + destruct (Ascii.eqb c dq).
      * apply json_string_shorter in H as L. split; [lia | intros; exact H].
      * destruct (json_literal (c :: s1)) as [r'|] eqn:El.
        -- inversion H; subst r'. apply json_literal_shorter in El. simpl in El.
           split; [lia | reflexivity].
        -- apply json_number_shorter in H as L. simpl in L. split; [lia | intros; exact H].
Qed.

Lemma value_adequate :
  forall depth n s r,
    json_value depth n s = Some r ->
    length r < length s
    /\ forall depth' n', length s - length r <= depth' -> length s - length r <= n' ->
                         json_value depth' n' s = Some r.
Proof.
  induction depth as [|depth IH]; intros n s r H; [discriminate|].
  simpl in H.
  assert (Hshort : length r < length s).
  { eapply (step_adequate _ (json_value depth n) 0 n s r); [|exact H].
    intros s1 r1 H1. destruct (IH n s1 r1 H1) as [L Hfuel]. split; [exact L|].
    intro Hb. exact H1. }
  split; [exact Hshort|].
  intros depth' n' Hd Hn. destruct depth' as [|depth']; [lia|]. simpl.
  eapply (step_adequate (json_value depth n) (json_value depth' n')
            (length s - length r - 1) n s r); [|exact H|lia|lia].
  intros s1 r1 H1. destruct (IH n s1 r1 H1) as [L Hfuel]. split; [exact L|].
  intro Hb. apply Hfuel; lia.
Qed.

(** The bounds of [jsonParses] do not restrict it. *)
Lemma jsonParses_any_bound :
  forall s,
    jsonParses s = true
    <-> exists depth n r, json_value depth n s = Some r /\ skip_ws r = [].
Proof.
  intro s. unfold jsonParses. split.
  - destruct (json_value (S (length s)) (S (length s)) s) as [r|] eqn:E; [|discriminate].
    intro H. exists (S (length s)), (S (length s)), r. split; [exact E|].
    destruct (skip_ws r); [reflexivity | discriminate].
  - intros (depth & n & r & H & Hr).
    destruct (value_adequate depth n s r H) as [L Hfuel].
    rewrite (Hfuel (S (length s)) (S (length s))) by lia. rewrite Hr. reflexivity.
Qed.

(** ** Quality gate *)

Lemma chunks_unmatched :
  forall ci r t b rest,
    (forall x b a, In x t -> exec ci r b (x :: a) = None) ->
    chunks ci r b (t ++ rest) 0 = map Plain t ++ chunks ci r (rev t ++ b) rest 0.
Proof.
  intros ci r. induction t as [|x t IH]; intros b rest H; [reflexivity|].
  simpl. rewrite H by (left; reflexivity).
  rewrite IH by (intros; apply H; right; assumption).
  rewrite <- app_assoc. reflexivity.
Qed.

Lemma pieces_plain :
  forall w cur l, pieces cur (map Plain w ++ l) = pieces (rev w ++ cur) l.
Proof.
  induction w as [|x w IH]; intros cur l; [reflexivity|].
  simpl. rewrite IH, <- app_assoc. reflexivity.
Qed.

Lemma spaces_skip_word_char :
  forall x b a, is_space x = false -> exec false spacesRe b (x :: a) = None.
Proof. intros x b a H. unfold exec. simpl. rewrite H. reflexivity. Qed.

Lemma spaces_single :
  forall y b a,
    is_space y = false ->
    exec false spacesRe b (" "%char :: y :: a) = Some (mkHit (lit " ") [] (y :: a)).
Proof. intros y b a H. unfold exec. simpl. rewrite H. reflexivity. Qed.

Lemma isWord_chars :
  forall w x, isWord w = true -> In x w -> is_space x = false.
Proof.
  intros w x Hw Hx. unfold isWord in Hw. apply andb_true_iff in Hw. destruct Hw as [_ Hw].
  rewrite forallb_forall in Hw. apply Hw in Hx. destruct (is_space x); [discriminate|reflexivity].
Qed.

(** Splitting words joined by single spaces gives the words back. *)
Lemma split_joined_words :
  forall ws b,
    ws <> [] ->
    forallb isWord ws = true ->
    pieces [] (chunks false spacesRe b (join (lit " ") ws) 0) = ws.
Proof.
  induction ws as [|w ws IH]; intros b Hne Hws; [contradiction|].
  simpl in Hws. apply andb_true_iff in Hws. destruct Hws as [Hw Hws].
  assert (Hchars : forall x b a, In x w -> exec false spacesRe b (x :: a) = None)
    by (intros x b0 a Hx; apply spaces_skip_word_char, (isWord_chars w x Hw Hx)).
  destruct ws as [|w2 ws].
  - simpl join. rewrite <- (app_nil_r w) at 1.
    rewrite (chunks_unmatched _ _ _ _ _ Hchars).
    rewrite pieces_plain. simpl. rewrite app_nil_r, rev_involutive. reflexivity.
  - rewrite join_cons by discriminate.
    rewrite (chunks_unmatched _ _ _ _ _ Hchars), pieces_plain.
    assert (Hw2 : isWord w2 = true)
      by (simpl in Hws; apply andb_true_iff in Hws; apply Hws).
    destruct w2 as [|y w2]; [discriminate Hw2|].
    assert (Hy : is_space y = false) by (apply (isWord_chars _ y Hw2); left; reflexivity).
    assert (Hj : exists rest, join (lit " ") ((y :: w2) :: ws) = y :: rest).
    { destruct ws; [exists w2; reflexivity|]. rewrite join_cons by discriminate.
      eexists. reflexivity. }
    destruct Hj as [rest Hj].
    specialize (IH (" "%char :: rev w ++ b)). unfold str in *. rewrite Hj in IH |- *.
    cbn [app lit list_ascii_of_string chunks].
    rewrite (spaces_single y _ rest Hy). cbn [h_text length lit list_ascii_of_string pieces].
    rewrite app_nil_r, rev_involutive. f_equal. apply IH; [discriminate | exact Hws].
Qed.

Lemma words_of_joined :
  forall body ws,
    textOnly body = join (lit " ") ws ->
    forallb isWord ws = true ->
    wordCountOf body = length ws.
Proof.
  intros body ws Htext Hws. unfold wordCountOf, wordsOf, splitRe, scan. rewrite Htext.
  destruct ws as [|w ws]; [reflexivity|].
  rewrite split_joined_words by (discriminate || exact Hws).
  f_equal. apply forallb_filter_id.
  rewrite forallb_forall in *. intros x Hx. apply Hws in Hx.
  unfold isWord in Hx. apply andb_true_iff in Hx. destruct Hx as [Hx _].
  destruct x; [discriminate | reflexivity].
Qed.

(** C8: a body whose text, with the tags stripped and the white space
    collapsed, is 500 words throws [ContentTooShortError] against a minimum
    of 2200, and the error carries the count 500 and the body as it was; a
    body over the maximum of a target range returns its count after a
    warning. *)
Theorem enforceWordCount_gate :
  (forall body ws maxWords,
      textOnly body = join (lit " ") ws ->
      forallb isWord ws = true ->
      length ws = 500 ->
      enforceWordCount body 2200 maxWords
        = ([ConsoleLog (wordCountLine 500 2200 maxWords)],
           inl (mkContentTooShort (tooShortMessage 500 2200) body 500)))
  /\ (forall body minWords maxWords,
        (minWords <= maxWords)%Z ->
        (Z.of_nat (wordCountOf body) > maxWords)%Z ->
        enforceWordCount body minWords maxWords
          = ([ConsoleLog (wordCountLine (wordCountOf body) minWords maxWords);
              ConsoleWarn (overTargetLine (wordCountOf body) maxWords)],
             inr (wordCountOf body))).
Proof.
  split.
  - intros body ws maxWords Htext Hws Hlen. unfold enforceWordCount.
    rewrite (words_of_joined body ws Htext Hws), Hlen. reflexivity.
  - intros body minWords maxWords Hrange Hover. unfold enforceWordCount.
    replace (Z.of_nat (wordCountOf body) <? minWords)%Z with false
      by (symmetry; apply Z.ltb_ge; lia).
    replace (Z.of_nat (wordCountOf body) >? maxWords)%Z with true
      by (symmetry; apply Z.gtb_lt; lia).
    reflexivity.
Qed.

Lemma enforceWordCount_gate_witness :
  enforceWordCount fiveHundredWords 2200 3000
    = ([ConsoleLog (wordCountLine 500 2200 3000)],
       inl (mkContentTooShort (tooShortMessage 500 2200) fiveHundredWords 500))
  /\ snd (enforceWordCount threeWords 1 2) = inr 3.
Proof.
  destruct enforceWordCount_gate as [Hshort Hover]. split.
  - apply (Hshort fiveHundredWords theFiveHundred 3000%Z); vm_compute; reflexivity.
  - rewrite (Hover threeWords 1%Z 2%Z); [reflexivity | lia | vm_compute; reflexivity].
Defined.

(* ------------------------------------------------------------------ *)
(** ** More on the retry controller *)

Lemma truthyNum_nonzero : forall n, n <> 0%Z -> truthyNum (Some n) = Some n.
Proof.
  intros n Hn. unfold truthyNum. destruct (n =? 0)%Z eqn:E; [|reflexivity].
  apply Z.eqb_eq in E. contradiction.
Qed.

Lemma client_status_fails_fast :
  forall error status,
    err_status error = Some status ->
    (400 <= status < 500)%Z ->
    status <> 429%Z ->
    failsFast error = true.
Proof.
  intros error status Hs Hrange Hne. unfold failsFast, isNonRetriableClientError, statusCodeOf.
  rewrite Hs, !truthyNum_nonzero by lia.
  replace (400 <=? status)%Z with true by (symmetry; apply Z.leb_le; lia).
  replace (status <? 500)%Z with true by (symmetry; apply Z.ltb_lt; lia).
  replace (status =? 429)%Z with false by (symmetry; apply Z.eqb_neq; exact Hne).
  reflexivity.
Qed.

(** [callAiWithRetry], lines 696-763: an error whose status is a client
    error other than 429 is never retried.  Whatever the retry budget (at
    least one attempt), the operation is invoked once, nothing is waited
    for, and the caller gets the very error the operation raised. *)
Theorem client_error_is_not_retried :
  forall (A : Type) (apiCall : nat -> Outcome A) amb maxRetries initialDelay error status,
    (1 <= maxRetries)%Z ->
    apiCall 0 = Rejected error ->
    err_status error = Some status ->
    (400 <= status < 500)%Z ->
    status <> 429%Z ->
    callAiWithRetry apiCall amb maxRetries initialDelay = ([Invoke 0], Rethrown error).
Proof.
  intros A apiCall amb maxRetries initialDelay error status Hmax Hcall Hs Hrange Hne.
  unfold callAiWithRetry.
  destruct (Z.to_nat maxRetries) as [|left] eqn:E; [lia|].
  cbn [attempts]. rewrite Hcall.
  rewrite (client_status_fails_fast error status Hs Hrange Hne). reflexivity.
Qed.

Lemma client_error_is_not_retried_witness :
  callAiWithRetry (fun _ : nat => @Rejected nat (mkAiError (lit "Unauthorized") (Some 401%Z) None))
    noJitter 5 (1000 # 1)
  = ([Invoke 0], Rethrown (mkAiError (lit "Unauthorized") (Some 401%Z) None)).
Proof.
  apply (client_error_is_not_retried nat _ noJitter 5%Z (1000 # 1)
           (mkAiError (lit "Unauthorized") (Some 401%Z) None) 401%Z).
  - lia.
  - reflexivity.
  - reflexivity.
  - lia.
  - discriminate.
Defined.

(** The events of [k] rejected attempts from attempt [from] on: each
    invocation is followed by its wait. *)
Lemma attempts_until_success :
  forall (A : Type) (apiCall : nat -> Outcome A) (err : nat -> AiError) amb maxRetries
         initialDelay k (v : A),
    (forall i, i < k -> apiCall i = Rejected (err i) /\ failsFast (err i) = false) ->
    apiCall k = Resolved v ->
    forall j from left,
      from + j = k ->
      j < left ->
      Z.of_nat (from + left) = maxRetries ->
      attempts apiCall amb maxRetries initialDelay left from
        = (flat_map (fun i => [Invoke i; Sleep (delayFor amb initialDelay i (err i))]) (seq from j)
             ++ [Invoke k],
           Returned v).
Proof.
  intros A apiCall err amb maxRetries initialDelay k v Hrej Hok.
  induction j as [|j IH]; intros from left Hsum Hlt Hmax.
  - destruct left as [|left]; [lia|].
    replace from with k by lia. cbn [attempts]. rewrite Hok. reflexivity.
  - destruct left as [|left]; [lia|].
    destruct (Hrej from) as [Hcall Hretry]; [lia|].
    rewrite (attempts_rejected A apiCall amb maxRetries initialDelay left from
               (err from) Hcall Hretry) by (apply Z.eqb_neq; lia).
    rewrite (IH (S from) left) by lia.
    reflexivity.
Qed.

(** [callAiWithRetry], lines 696-763: when the operation is rejected [k]
    times with retriable errors and then resolves, and the budget allows
    more than [k] attempts, the call returns the resolved value after
    exactly [k + 1] invocations, having waited once after each rejection
    for the delay computed from that rejection. *)
Theorem retries_until_first_success :
  forall (A : Type) (apiCall : nat -> Outcome A) (err : nat -> AiError) amb maxRetries
         initialDelay k (v : A),
    (Z.of_nat k < maxRetries)%Z ->
    (forall i, i < k -> apiCall i = Rejected (err i) /\ failsFast (err i) = false) ->
    apiCall k = Resolved v ->
    callAiWithRetry apiCall amb maxRetries initialDelay
      = (flat_map (fun i => [Invoke i; Sleep (delayFor amb initialDelay i (err i))]) (seq 0 k)
           ++ [Invoke k],
         Returned v).
Proof.
  intros A apiCall err amb maxRetries initialDelay k v Hk Hrej Hok.
  unfold callAiWithRetry.
  apply (attempts_until_success A apiCall err amb maxRetries initialDelay k v Hrej Hok); lia.
Qed.

Lemma retries_until_first_success_witness :
  callAiWithRetry
    (fun i => if i <? 3 then Rejected serviceUnavailable else Resolved 7)
    noJitter 5 (1000 # 1)
  = (flat_map (fun i => [Invoke i; Sleep (delayFor noJitter (1000 # 1) i serviceUnavailable)])
       (seq 0 3) ++ [Invoke 3],
     Returned 7).
Proof.
  apply (retries_until_first_success nat
           (fun i => if i <? 3 then Rejected serviceUnavailable else Resolved 7)
           (fun _ => serviceUnavailable) noJitter 5%Z (1000 # 1) 3 7).
  - lia.
  - intros i Hi. apply Nat.ltb_lt in Hi. rewrite Hi. split; [reflexivity | vm_compute; reflexivity].
  - reflexivity.
Defined.

Lemma attempts_bounded :
  forall (A : Type) (apiCall : nat -> Outcome A) amb maxRetries initialDelay left from,
    invocations (fst (attempts apiCall amb maxRetries initialDelay left from)) <= left.
Proof.
  intros A apiCall amb maxRetries initialDelay.
  induction left as [|left IH]; intro from; [apply Nat.le_refl|].
  cbn [attempts]. destruct (apiCall from) as [v|error].
  - cbn. lia.
  - destruct (failsFast error); [cbn; lia|].
    destruct (Z.of_nat from =? maxRetries - 1)%Z; [cbn; lia|].
    specialize (IH (S from)).
    destruct (attempts apiCall amb maxRetries initialDelay left (S from)) as [evs c].
    unfold invocations in *. cbn [fst filter length] in *. lia.
Qed.

Lemma attempts_never_exhaust :
  forall (A : Type) (apiCall : nat -> Outcome A) amb maxRetries initialDelay left from msg,
    Z.of_nat (from + S left) = maxRetries ->
    snd (attempts apiCall amb maxRetries initialDelay (S left) from) <> NewError msg.
Proof.
  intros A apiCall amb maxRetries initialDelay.
  induction left as [|left IH]; intros from msg Hsum.
  - cbn [attempts]. destruct (apiCall from) as [v|error]; [discriminate|].
    destruct (failsFast error); [discriminate|].
    replace (Z.of_nat from =? maxRetries - 1)%Z with true
      by (symmetry; apply Z.eqb_eq; lia).
    discriminate.
  - remember (S left) as n eqn:En. cbn [attempts].
    destruct (apiCall from) as [v|error]; [discriminate|].
    destruct (failsFast error); [discriminate|].
    destruct (Z.of_nat from =? maxRetries - 1)%Z; [discriminate|].
    subst n. specialize (IH (S from) msg).
    destruct (attempts apiCall amb maxRetries initialDelay (S left) (S from)) as [evs c].
    cbn [snd] in *. apply IH. lia.
Qed.

(** [callAiWithRetry], lines 696-763: the operation is never invoked more
    than [maxRetries] times, and the generic error
    [AI call failed after all retries.] is thrown only when no attempt was
    allowed at all: as soon as the operation has been invoked once, the call
    ends with the operation's value or with one of the operation's own
    errors. *)
Theorem retry_budget_is_respected :
  forall (A : Type) (apiCall : nat -> Outcome A) amb maxRetries initialDelay,
    invocations (fst (callAiWithRetry apiCall amb maxRetries initialDelay))
      <= Z.to_nat maxRetries
    /\ (forall msg,
          snd (callAiWithRetry apiCall amb maxRetries initialDelay) = NewError msg ->
          (maxRetries <= 0)%Z
          /\ fst (callAiWithRetry apiCall amb maxRetries initialDelay) = []).
Proof.
  intros A apiCall amb maxRetries initialDelay. split.
  - apply attempts_bounded.
  - intros msg H. unfold callAiWithRetry in *.
    destruct (Z.to_nat maxRetries) as [|left] eqn:E.
    + split; [lia | reflexivity].
    + exfalso. revert H. apply attempts_never_exhaust. lia.
Qed.

(* ------------------------------------------------------------------ *)
(** ** Placeholders written and read back *)












Lemma truthy_nonempty : forall s : str, s <> [] -> truthy s = true.
Proof. intros [|x s] H; [contradiction | reflexivity]. Qed.

Lemma truthy_false : forall s : str, truthy s = false -> s = [].
Proof. intros [|x s] H; [reflexivity | discriminate]. Qed.



Lemma concatOpt_plain :
  forall (g : hit -> option str) t l,
    concatOpt (map (fun c => match c with Plain x => Some [x] | Hit h => g h end)
                 (map Plain t ++ l))
    = match concatOpt (map (fun c => match c with Plain x => Some [x] | Hit h => g h end) l) with
      | Some out => Some (t ++ out)
      | None => None
      end.
Proof.
  intros g. induction t as [|x t IH]; intro l.
  - cbn [map app]. destruct (concatOpt _); reflexivity.
  - cbn [map app concatOpt]. rewrite IH. destruct (concatOpt _); reflexivity.
Qed.


Lemma process_is_replaceAllOpt :
  forall utmUrl pages post,
    pages <> [] ->
    processInternalLinks utmUrl post (Some pages)
      = replaceAllOpt false placeholderRegex (resolveOne utmUrl pages) post.
Proof.
  intros utmUrl pages post Hp. unfold processInternalLinks.
  destruct pages as [|p pages]; [contradiction|]. cbn [length Nat.eqb orb].
  rewrite orb_false_r. destruct post as [|x post]; [|reflexivity].
  cbn [truthy str_eqb negb]. unfold replaceAllOpt, scan.
  rewrite (chunks_nil _ _ _ placeholder_opens). reflexivity.
Qed.






Lemma replaceAll_bracket_free :
  forall r f body,
    opensWithBracket false r -> forallb noOpen body = true -> replaceAll false r f body = body.
Proof.
  intros r f body Hr Hb. unfold replaceAll, scan.
  rewrite <- (app_nil_r body) at 1.
  rewrite (chunks_plain _ _ Hr) by exact Hb.
  rewrite (chunks_nil _ _ _ Hr), app_nil_r. apply emit_plain.
Qed.

(** [sanitizeBrokenPlaceholders] (lines 1229-1245),
    [validateAndRepairInternalLinks] (lines 1011-1088) and
    [processInternalLinks] (lines 1188-1221): a body in which no opening
    square bracket occurs goes through each of the three passes unchanged,
    whatever the catalogue, and the resolver computes no URL for it (it
    cannot throw). *)
Theorem bracket_free_body_passes_unchanged :
  forall (utmUrl : str -> option str) (body : str) (pages : option (list Page)),
    forallb noOpen body = true ->
    sanitizeBrokenPlaceholders body = body
    /\ validateAndRepairInternalLinks body pages = body
    /\ processInternalLinks utmUrl body pages = Some body.
Proof.
  intros utmUrl body pages Hb. split; [|split].
  - apply replaceAll_bracket_free; [exact broken_opens | exact Hb].
  - destruct pages as [[|p pages]|]; [|  |reflexivity].
    { unfold validateAndRepairInternalLinks. cbn [length Nat.eqb].
      rewrite orb_true_r. reflexivity. }
    rewrite validate_is_replaceAll by discriminate.
    apply replaceAll_bracket_free; [exact placeholder_opens | exact Hb].
  - destruct pages as [[|p pages]|]; [|  |reflexivity].
    { unfold processInternalLinks. cbn [length Nat.eqb].
      rewrite orb_true_r. reflexivity. }
    rewrite process_is_replaceAllOpt by discriminate.
    unfold replaceAllOpt, scan. rewrite <- (app_nil_r body) at 1.
    rewrite (chunks_plain _ _ placeholder_opens) by exact Hb.
    rewrite concatOpt_plain, (chunks_nil _ _ _ placeholder_opens). cbn [map concatOpt].
    rewrite app_nil_r. reflexivity.
Qed.

Lemma bracket_free_body_passes_unchanged_witness :
  sanitizeBrokenPlaceholders threeWords = threeWords
  /\ validateAndRepairInternalLinks threeWords (Some [seoGuide]) = threeWords
  /\ processInternalLinks (fun _ => None) threeWords (Some [seoGuide]) = Some threeWords.
Proof.
  apply (bracket_free_body_passes_unchanged (fun _ => None) threeWords (Some [seoGuide])).
  reflexivity.
Defined.

Lemma sanitizeSegment_idempotent :
  forall s, sanitizeSegment (sanitizeSegment s) = sanitizeSegment s.
Proof.
  intros [t|inner]; [reflexivity|].
  assert (sanitizeSegment (Bracketed inner)
          = if (isLinkToken inner && negb (isValidToken (renderSegment (Bracketed inner))))%bool
            then Text (sanitizeToken (renderSegment (Bracketed inner)))
            else Bracketed inner) as H by reflexivity.
  rewrite H.
  destruct (isLinkToken inner && negb (isValidToken (renderSegment (Bracketed inner))))%bool
    eqn:E; [reflexivity|].
  rewrite H. reflexivity.
Qed.

(** [sanitizeBrokenPlaceholders], lines 1229-1245: on a body without
    nested brackets the sanitizer is idempotent: running it a second time
    changes nothing. *)
Theorem sanitizer_is_idempotent :
  forall l : list Segment,
    flat l = true ->
    sanitizeBrokenPlaceholders (sanitizeBrokenPlaceholders (render l))
      = sanitizeBrokenPlaceholders (render l).
Proof.
  intros l Hl. rewrite (sanitize_flat l Hl).
  rewrite (sanitize_flat _ (flat_sanitize l Hl)).
  rewrite map_map. f_equal. apply map_ext. intro s. apply sanitizeSegment_idempotent.
Qed.

Lemma sanitizer_is_idempotent_witness :
  sanitizeBrokenPlaceholders (sanitizeBrokenPlaceholders (render mixedResolved))
    = sanitizeBrokenPlaceholders (render mixedResolved).
Proof.
  apply (sanitizer_is_idempotent mixedResolved). reflexivity.
Defined.

(* ------------------------------------------------------------------ *)
(** ** What the quota pass does to a body *)

(** A global scan cuts the subject into pieces that make it up again. *)
Lemma chunks_partition :
  forall ci r a b skip,
    concat (map (emit (@h_text)) (chunks ci r b a skip)) = skipn skip a.
Proof.
  intros ci r. induction a as [|x a IH]; intros b skip.
  - destruct skip as [|n]; [|reflexivity]. cbn [chunks skipn].
    destruct (exec ci r b []) as [h|] eqn:E; [|reflexivity].
    apply exec_spec in E. destruct E as [E _]. cbn [map concat emit].
    rewrite app_nil_r. symmetry in E. apply app_eq_nil in E. tauto.
  - destruct skip as [|n]; [|cbn [chunks skipn]; apply IH].
    cbn [chunks skipn].
    destruct (exec ci r b (x :: a)) as [h|] eqn:E.
    + apply exec_spec in E. destruct E as [E _].
      destruct (h_text h) as [|y t] eqn:Et.
      * cbn [length map concat emit]. rewrite Et, IH. reflexivity.
      * cbn [length map concat emit]. rewrite Et, IH.
        cbn [app] in E. inversion E; subst y.
        rewrite skipn_app, Nat.sub_diag, skipn_all. reflexivity.
    + cbn [map concat emit]. rewrite IH. reflexivity.
Qed.

Lemma chunks_hits_exec :
  forall ci r a b skip h,
    In (Hit h) (chunks ci r b a skip) -> exists b' a', exec ci r b' a' = Some h.
Proof.
  intros ci r. induction a as [|x a IH]; intros b skip h Hin.
  - destruct skip as [|n]; [|contradiction]. cbn [chunks] in Hin.
    destruct (exec ci r b []) as [h'|] eqn:E; [|contradiction].
    destruct Hin as [Hin|[]]. inversion Hin; subst h'. exists b, []. exact E.
  - destruct skip as [|n]; [|exact (IH _ _ _ Hin)].
    cbn [chunks] in Hin.
    destruct (exec ci r b (x :: a)) as [h'|] eqn:E.
    + destruct (length (h_text h')).
      * destruct Hin as [Hin|[Hin|Hin]]; [| discriminate Hin | exact (IH _ _ _ Hin)].
        inversion Hin; subst h'. exists b, (x :: a). exact E.
      * destruct Hin as [Hin|Hin]; [| exact (IH _ _ _ Hin)].
        inversion Hin; subst h'. exists b, (x :: a). exact E.
    + destruct Hin as [Hin|Hin]; [discriminate Hin | exact (IH _ _ _ Hin)].
Qed.

(** Under the [i] flag a literal matches a text with the same letters. *)
Lemma lits_letters :
  forall (R : Type) (s m a : str) (k : str -> str -> option R) res,
    lits true s m a k = Some res ->
    exists u a', a = u ++ a' /\ map canon_char u = map canon_char s
                 /\ k (rev u ++ m) a' = Some res.
Proof.
  intros R s. induction s as [|c s IH]; intros m a k res H.
  - exists [], a. simpl in *. auto.
  - cbn [lits] in H. destruct a as [|x a]; [discriminate|].
    unfold chr_eq in H. destruct (Ascii.eqb (canon_char c) (canon_char x)) eqn:E; [|discriminate].
    apply Ascii.eqb_eq in E.
    apply IH in H. destruct H as (u & a' & -> & Hu & Hk).
    exists (x :: u), a'. cbn [map app rev]. rewrite <- app_assoc, Hu, E. auto.
Qed.

Lemma searchRegex_letters :
  forall term b a h,
    exec true (searchRegex term) b a = Some h ->
    map canon_char (h_text h) = map canon_char term.
Proof.
  intros term b a h H. unfold exec, searchRegex, seqs in H. cbn [fold_right run] in H.
  destruct (previous b []) as [x|]; [|discriminate].
  destruct (one_of ">(" x || is_space x)%bool; [|discriminate].
  apply lits_letters in H. destruct H as (u & a' & -> & Hu & H).
  destruct a' as [|y a']; [discriminate|].
  destruct (one_of "<.,!?)" y || is_space y)%bool; [|discriminate].
  inversion H; subst h. cbn [h_text]. rewrite app_nil_r, rev_involutive. exact Hu.
Qed.

Lemma injectOnce_replaced :
  forall slug l, injectOnce slug true l = (true, concat (map (emit (@h_text)) l)).
Proof.
  intros slug. induction l as [|[x|h] l IH]; [reflexivity| |].
  - cbn [injectOnce]. rewrite IH. reflexivity.
  - cbn [injectOnce]. rewrite IH. reflexivity.
Qed.

Lemma injectOnce_spec :
  forall slug l placed out,
    injectOnce slug false l = (placed, out) ->
    (placed = false /\ out = concat (map (emit (@h_text)) l))
    \/ (placed = true
        /\ exists u h v,
             In (Hit h) l
             /\ concat (map (emit (@h_text)) l) = u ++ h_text h ++ v
             /\ out = u ++ placeholder slug (h_text h) ++ v).
Proof.
  intros slug. induction l as [|[x|h] l IH]; intros placed out H.
  - inversion H. left. auto.
  - cbn [injectOnce] in H.
    destruct (injectOnce slug false l) as [placed' out'] eqn:E.
    inversion H; subst placed out.
    destruct (IH placed' out' eq_refl) as [[Hp Ho]|[Hp (u & h & v & Hin & Hc & Ho)]].
    + left. subst. auto.
    + right. split; [exact Hp|]. exists (x :: u), h, v.
      cbn [map concat emit]. rewrite Hc, Ho. split; [right; exact Hin | auto].
  - cbn [injectOnce] in H. rewrite injectOnce_replaced in H.
    inversion H; subst placed out. right. split; [reflexivity|].
    exists [], h, (concat (map (emit (@h_text)) l)).
    split; [left; reflexivity | auto].
Qed.

Lemma placeLink_spec :
  forall slug terms c c',
    placeLink slug terms c = Some c' ->
    exists term u m v,
      In term terms /\ c = u ++ m ++ v /\ c' = u ++ placeholder slug m ++ v
      /\ map canon_char m = map canon_char term.
Proof.
  intros slug. induction terms as [|term terms IH]; intros c c' H; [discriminate|].
  cbn [placeLink] in H.
  destruct (injectOnce slug false (scan true (searchRegex term) c)) as [placed out] eqn:E.
  destruct placed.
  - inversion H; subst out.
    destruct (injectOnce_spec _ _ _ _ E) as [[Hp _]|[_ (u & h & v & Hin & Hc & Ho)]];
      [discriminate|].
    unfold scan in Hc, Hin. rewrite chunks_partition in Hc. cbn [skipn] in Hc.
    apply chunks_hits_exec in Hin. destruct Hin as (b' & a' & He).
    exists term, u, (h_text h), v.
    split; [left; reflexivity|]. split; [exact Hc|]. split; [exact Ho|].
    apply (searchRegex_letters term b' a' h He).
  - destruct (IH c c' H) as (t & u & m & v & Hin & Hrest).
    exists t, u, m, v. split; [right; exact Hin | exact Hrest].
Qed.

Lemma candidate_is_page :
  forall linkedSlugs pages cand,
    In cand (candidatePagesOf linkedSlugs pages) ->
    In (fst cand) pages /\ snd cand = searchTermsOf (p_title (fst cand)).
Proof.
  intros linkedSlugs pages cand H. unfold candidatePagesOf in H.
  apply filter_In in H. destruct H as [H _].
  apply in_map_iff in H. destruct H as (p & <- & Hp).
  apply filter_In in Hp. cbn [fst snd]. tauto.
Qed.

Lemma setHas_false : forall l x, setHas l x = false -> ~ In x l.
Proof.
  intros l x H Hin. unfold setHas in H.
  assert (existsb (str_eqb x) l = true) as E.
  { apply existsb_exists. exists x. split; [exact Hin | apply str_eqb_eq; reflexivity]. }
  rewrite E in H. discriminate.
Qed.

Lemma quota_loop_wraps :
  forall pages content d0 cands st,
    (forall cand, In cand cands ->
       In (fst cand) pages /\ snd cand = searchTermsOf (p_title (fst cand))) ->
    wraps pages (newlyLinkedSlugs st) content (newContent st) ->
    NoDup (newlyLinkedSlugs st) ->
    (deficit st = d0 - Z.of_nat (length (newlyLinkedSlugs st)))%Z ->
    (0 <= deficit st)%Z ->
    let st' := fold_left quotaStep cands st in
    wraps pages (newlyLinkedSlugs st') content (newContent st')
    /\ NoDup (newlyLinkedSlugs st')
    /\ (Z.of_nat (length (newlyLinkedSlugs st')) <= d0)%Z.
Proof.
  intros pages content d0. induction cands as [|cand cands IH]; intros st Hc Hw Hnd Hd Hpos.
  - cbn [fold_left]. split; [exact Hw|]. split; [exact Hnd | lia].
  - cbn [fold_left].
    assert (forall c, In c cands ->
              In (fst c) pages /\ snd c = searchTermsOf (p_title (fst c))) as Hc'
      by (intros c Hin; apply Hc; right; exact Hin).
    destruct (Hc cand (or_introl eq_refl)) as [Hpage Hterms].
    assert (wraps pages (newlyLinkedSlugs (quotaStep st cand)) content
              (newContent (quotaStep st cand))
            /\ NoDup (newlyLinkedSlugs (quotaStep st cand))
            /\ (deficit (quotaStep st cand)
                = d0 - Z.of_nat (length (newlyLinkedSlugs (quotaStep st cand))))%Z
            /\ (0 <= deficit (quotaStep st cand))%Z) as (H1 & H2 & H3 & H4).
    { unfold quotaStep.
      destruct (deficit st <=? 0)%Z eqn:Ed; [tauto|].
      destruct (setHas (newlyLinkedSlugs st) (p_slug (fst cand))) eqn:Eh; [tauto|].
      destruct (placeLink (p_slug (fst cand)) (snd cand) (newContent st)) as [temp|] eqn:Ep;
        [|tauto].
      apply Z.leb_gt in Ed.
      apply placeLink_spec in Ep. destruct Ep as (term & u & m & v & Hin & Hcur & Htemp & Hm).
      cbn [newlyLinkedSlugs newContent deficit length].
      split; [|split; [|split]].
      - rewrite Htemp. apply (wraps_more pages _ content u m v (fst cand) term);
          [rewrite <- Hcur; exact Hw | exact Hpage | rewrite <- Hterms; exact Hin | exact Hm].
      - constructor; [apply setHas_false; exact Eh | exact Hnd].
      - lia.
      - lia. }
    apply IH; assumption.
Qed.

(** [enforceInternalLinkQuota], lines 1100-1178: all the pass ever does to
    a body is wrap pieces of its text in placeholders.  Every wrapped piece
    is a search term of a catalogue page (up to letter case) and is kept as
    the anchor text, the text around it is unchanged, no page is linked
    twice in one run, and the number of placeholders added is at most the
    deficit, that is [minLinks] minus the placeholders already there. *)
Theorem quota_only_wraps_title_phrases :
  forall (content : str) (pages : list Page) (primaryKeyword : str) (minLinks : Z),
    exists slugs,
      wraps pages slugs content
        (enforceInternalLinkQuota content (Some pages) primaryKeyword minLinks)
      /\ NoDup slugs
      /\ (Z.of_nat (length slugs)
          <= Z.max 0 (minLinks
                      - Z.of_nat (length (matchAll false placeholderRegexNoGroups content))))%Z.
Proof.
  intros content pages primaryKeyword minLinks. unfold enforceInternalLinkQuota.
  destruct (length pages =? 0).
  { exists []. split; [constructor|]. split; [constructor | cbn; lia]. }
  set (existing := matchAll false placeholderRegexNoGroups content).
  destruct (minLinks - Z.of_nat (length existing) <=? 0)%Z eqn:Ed.
  { exists []. split; [constructor|]. split; [constructor | cbn; lia]. }
  apply Z.leb_gt in Ed.
  set (st0 := mkQuotaState (minLinks - Z.of_nat (length existing)) [] content).
  set (cands := candidatePagesOf (map (fun m => capOpt 1 (snd m)) existing) pages).
  destruct (quota_loop_wraps pages content (minLinks - Z.of_nat (length existing)) cands st0)
    as (Hw & Hnd & Hlen).
  - intros cand Hin. apply (candidate_is_page _ _ _ Hin).
  - constructor.
  - constructor.
  - cbn. lia.
  - cbn. lia.
  - exists (newlyLinkedSlugs (fold_left quotaStep cands st0)).
    split; [exact Hw|]. split; [exact Hnd | lia].
Qed.

(* ------------------------------------------------------------------ *)
(** ** Passes applied to their own output *)

(** [extractJson], lines 497-605: what the extractor returns is a fixed
    point of it.  Extracting again from a returned text gives that text
    back; it never throws on its own output. *)
Theorem extractJson_is_idempotent :
  forall text s, extractJson text = Ok s -> extractJson s = Ok s.
Proof.
  intros text s H. apply extractJson_sound in H.
  unfold extractJson. destruct s as [|x s]; [discriminate H|].
  cbn [truthy str_eqb negb]. rewrite H. reflexivity.
Qed.

Lemma extractJson_is_idempotent_witness : extractJson goodJson = Ok goodJson.
Proof.
  apply (extractJson_is_idempotent withTrailingCommas goodJson).
  vm_compute. reflexivity.
Defined.

Lemma orElse_idempotent :
  forall x d : str,
    (if truthy (if truthy x then x else d) then (if truthy x then x else d) else d)
    = (if truthy x then x else d).
Proof.
  intros x d. destruct (truthy x) eqn:E; [rewrite E; reflexivity|].
  destruct (truthy d); reflexivity.
Qed.

Lemma truthyStr_some : forall x : str, truthyStr (Some x) = truthy x.
Proof. reflexivity. Qed.

Lemma orEmpty_idempotent :
  forall x : str, (if truthy x then x else []) = x.
Proof. intros [|c x]; reflexivity. Qed.

(** [normalizeGeneratedContent], lines 1405-1465: the normaliser is
    idempotent.  Normalising an already normalised payload with the same
    item title changes no field; in particular the image placeholders are
    injected once and default images are not synthesised again. *)
Theorem normalize_is_idempotent :
  forall (parsedJson : Content) (itemTitle : str),
    normalizeGeneratedContent (normalizeGeneratedContent parsedJson itemTitle) itemTitle
      = normalizeGeneratedContent parsedJson itemTitle.
Proof.
  intros [t s c i md pk sk st js sm] itemTitle.
  unfold normalizeGeneratedContent at 2 3.
  cbn [title slug content imageDetails metaDescription primaryKeyword semanticKeywords
       strategy jsonLdSchema socialMediaCopy].
  set (title1 := if truthyStr t then strOf t else itemTitle).
  set (slug1 := if truthyStr s then strOf s else slugify itemTitle).
  set (content1 := if truthyStr c then strOf c else []).
  set (md1 := if truthyStr md then strOf md
              else lit "Read this comprehensive guide on " ++ title1 ++ lit ".").
  set (pk1 := if truthyStr pk then strOf pk else itemTitle).
  assert (truthy md1 = true) as Hmd.
  { subst md1. destruct (truthyStr md) eqn:E; [exact E | reflexivity]. }
  assert ((if truthy title1 then title1 else itemTitle) = title1) as Ht
    by (subst title1; unfold truthyStr; apply orElse_idempotent).
  assert ((if truthy slug1 then slug1 else slugify itemTitle) = slug1) as Hs
    by (subst slug1; unfold truthyStr; apply orElse_idempotent).
  assert ((if truthy pk1 then pk1 else itemTitle) = pk1) as Hpk
    by (subst pk1; unfold truthyStr; apply orElse_idempotent).
  destruct (needsImages i) eqn:Hi.
  - unfold normalizeGeneratedContent.
    cbn [title slug content imageDetails metaDescription primaryKeyword semanticKeywords
         strategy jsonLdSchema socialMediaCopy needsImages defaultImages].
    rewrite !truthyStr_some. cbn [strOf].
    rewrite Ht, Hs, Hpk, Hmd, orEmpty_idempotent. reflexivity.
  - destruct i as [[|d l]|]; try discriminate Hi.
    unfold normalizeGeneratedContent.
    cbn [title slug content imageDetails metaDescription primaryKeyword semanticKeywords
         strategy jsonLdSchema socialMediaCopy needsImages].
    rewrite !truthyStr_some. cbn [strOf].
    rewrite Ht, Hs, Hpk, Hmd, orEmpty_idempotent. reflexivity.
Qed.

(* ------------------------------------------------------------------ *)
(** ** The frame of the video guardian *)

Lemma index_from_here :
  forall t s i, starts_with t s = true -> index_from i t s = Some i.
Proof. intros t [|x s] i H; cbn [index_from]; rewrite H; reflexivity. Qed.

(** A match found by a global scan lies in the subject at its index. *)
Lemma hits_positions :
  forall ci r a b skip idx h,
    In (idx, h) (hits_from (length b + skip) (chunks ci r b a skip)) ->
    exists pre, rev b ++ a = pre ++ h_text h ++ h_rest h /\ length pre = idx.
Proof.
  intros ci r. induction a as [|x a IH]; intros b skip idx h Hin.
  - destruct skip as [|n]; [|contradiction]. cbn [chunks] in Hin.
    destruct (exec ci r b []) as [h'|] eqn:E; [|contradiction].
    destruct Hin as [Hin|[]]. inversion Hin; subst.
    apply exec_spec in E. destruct E as [E _].
    exists (rev b). rewrite <- E. rewrite length_rev. split; [reflexivity | lia].
  - assert (rev (x :: b) ++ a = rev b ++ x :: a) as Hrev
      by (cbn [rev]; rewrite <- app_assoc; reflexivity).
    destruct skip as [|n].
    + cbn [chunks] in Hin. destruct (exec ci r b (x :: a)) as [h'|] eqn:E.
      * pose proof (exec_spec _ _ _ _ _ E) as [Es _].
        destruct (length (h_text h')) as [|n] eqn:El.
        -- cbn [hits_from] in Hin. destruct Hin as [Hin|Hin].
           ++ inversion Hin; subst. exists (rev b). rewrite <- Es, length_rev.
              split; [reflexivity | lia].
           ++ rewrite <- Hrev. apply (IH (x :: b) 0). cbn [length].
              rewrite El in Hin. replace (S (length b) + 0) with (S (length b + 0 + 0)) by lia.
              exact Hin.
        -- cbn [hits_from] in Hin. destruct Hin as [Hin|Hin].
           ++ inversion Hin; subst. exists (rev b). rewrite <- Es, length_rev.
              split; [reflexivity | lia].
           ++ rewrite <- Hrev. apply (IH (x :: b) n). cbn [length].
              rewrite El in Hin. replace (S (length b) + n) with (length b + 0 + S n) by lia.
              exact Hin.
      * cbn [hits_from] in Hin. rewrite <- Hrev. apply (IH (x :: b) 0). cbn [length].
        replace (S (length b) + 0) with (S (length b + 0)) by lia. exact Hin.
    + cbn [chunks] in Hin. rewrite <- Hrev. apply (IH (x :: b) n). cbn [length].
      replace (S (length b) + n) with (length b + S n) by lia. exact Hin.
Qed.

Lemma matchAll_positions :
  forall ci r s idx h,
    In (idx, h) (matchAll ci r s) ->
    exists pre, s = pre ++ h_text h ++ h_rest h /\ length pre = idx.
Proof.
  intros ci r s idx h Hin. apply (hits_positions ci r s [] 0 idx h Hin).
Qed.

(** [enforceUniqueVideoEmbeds], lines 1359-1395: the guardian changes at
    most one piece of the body, the tag of the second embed.  Either the
    body is returned as it is, or it is the body with exactly that tag
    rewritten, by replacing in it the first occurrence of the duplicated
    identifier with the identifier of the second selected video; the text
    before the tag, which holds the first embed, and the text after it are
    unchanged. *)
Theorem video_guardian_frame :
  forall (body : str) (videos : list Video),
    enforceUniqueVideoEmbeds body (Some videos) = body
    \/ exists pre post tag chosen,
         nth_error (matchAll false iframeRegex body) 1 = Some (length pre, tag)
         /\ nth_error videos 1 = Some chosen
         /\ body = pre ++ h_text tag ++ post
         /\ enforceUniqueVideoEmbeds body (Some videos)
            = pre ++ replaceStr (nth 0 (embeddedIds body) []) (videoId chosen) (h_text tag)
                ++ post.
Proof.
  intros body videos. unfold enforceUniqueVideoEmbeds.
  destruct (length videos <? 2); [left; reflexivity|].
  destruct (length (matchAll false iframeRegex body) <? 2); [left; reflexivity|].
  destruct (forallb _ _); [|left; reflexivity].
  destruct (nth_error videos 1) as [chosen|] eqn:Ev; [|left; reflexivity].
  destruct (nth_error (matchAll false iframeRegex body) 1) as [[index tag]|] eqn:Em;
    [|left; reflexivity].
  destruct (truthy (videoId chosen) && _)%bool; [|left; reflexivity].
  pose proof (nth_error_In _ _ Em) as Hin.
  apply matchAll_positions in Hin. destruct Hin as (pre & Hbody & Hlen).
  assert (indexOfFrom (h_text tag) body index = Some index) as Hidx.
  { unfold indexOfFrom. rewrite Hbody. subst index.
    rewrite length_app, Nat.min_l by lia.
    rewrite skipn_app, Nat.sub_diag, skipn_all. cbn [app skipn].
    apply index_from_here. apply starts_with_iff. exists (h_rest tag). reflexivity. }
  rewrite Hidx. right. exists pre, (h_rest tag), tag, chosen.
  subst index. split; [reflexivity|]. split; [reflexivity|]. split; [exact Hbody|].
  assert (firstn (length pre) body = pre) as Hfirst.
  { rewrite Hbody, firstn_app, Nat.sub_diag, firstn_all. cbn [firstn]. apply app_nil_r. }
  assert (skipn (length pre + length (h_text tag)) body = h_rest tag) as Hskip.
  { rewrite Hbody, app_assoc, <- length_app, skipn_app, Nat.sub_diag, skipn_all. reflexivity. }
  unfold substring, embeddedIds. cbn [skipn]. rewrite Nat.sub_0_r, Hfirst, Hskip.
  reflexivity.
Qed.

(* ------------------------------------------------------------------ *)
(** ** Video selection *)

Lemma str_eqb_refl : forall s, str_eqb s s = true.
Proof. intro s. apply str_eqb_eq. reflexivity. Qed.

Lemma str_eqb_sym : forall s t, str_eqb s t = str_eqb t s.
Proof.
  intros s t. destruct (str_eqb s t) eqn:E.
  - apply str_eqb_eq in E. subst. symmetry. apply str_eqb_refl.
  - destruct (str_eqb t s) eqn:E'; [|reflexivity].
    apply str_eqb_eq in E'. subst. rewrite str_eqb_refl in E. discriminate.
Qed.

Lemma filter_comm :
  forall (A : Type) (p q : A -> bool) l, filter p (filter q l) = filter q (filter p l).
Proof.
  intros A p q. induction l as [|x l IH]; [reflexivity|]. cbn [filter].
  destruct (q x) eqn:Eq, (p x) eqn:Ep; cbn [filter]; rewrite ?Eq, ?Ep, IH; reflexivity.
Qed.

Lemma filter_and :
  forall (A : Type) (p q : A -> bool) l,
    filter p (filter q l) = filter (fun x => (q x && p x)%bool) l.
Proof.
  intros A p q. induction l as [|x l IH]; [reflexivity|]. cbn [filter].
  destruct (q x); cbn [filter andb]; [destruct (p x)|]; rewrite IH; reflexivity.
Qed.

Lemma filter_absorb :
  forall (p : str -> bool) x l,
    p x = false ->
    filter p (filter (fun y => negb (str_eqb x y)) l) = filter p l.
Proof.
  intros p x l Hx. induction l as [|y l IH]; [reflexivity|]. cbn [filter].
  destruct (str_eqb x y) eqn:E; cbn [negb filter].
  - apply str_eqb_eq in E. subst y. rewrite Hx. exact IH.
  - rewrite IH. reflexivity.
Qed.

(** Removing elements commutes with removing duplicates. *)
Lemma setOf_filter : forall (p : str -> bool) l, filter p (setOf l) = setOf (filter p l).
Proof.
  intros p. induction l as [|x l IH]; [reflexivity|].
  cbn [setOf filter]. destruct (p x) eqn:Ep.
  - cbn [setOf]. rewrite <- IH, filter_comm. reflexivity.
  - rewrite filter_absorb by exact Ep. exact IH.
Qed.

Lemma setOf_NoDup : forall l, NoDup (setOf l).
Proof.
  induction l as [|x l IH]; [constructor|]. cbn [setOf]. constructor.
  - intro Hin. apply filter_In in Hin. destruct Hin as [_ Hin].
    rewrite str_eqb_refl in Hin. discriminate.
  - apply NoDup_filter. exact IH.
Qed.

Lemma NoDup_firstn : forall (A : Type) n (l : list A), NoDup l -> NoDup (firstn n l).
Proof.
  intros A. induction n as [|n IH]; intros l H; [constructor|].
  destruct l as [|x l]; [constructor|]. cbn [firstn].
  inversion H as [|? ? Hnotin Hnd]; subst. constructor; [|apply IH; exact Hnd].
  intro Hin. apply Hnotin. rewrite <- (firstn_skipn n l). apply in_or_app. left. exact Hin.
Qed.

(** The identifiers the loop ends with: those it had, then the first
    distinct new ones, as many as [count] still allows. *)
Lemma selectVideos_ids :
  forall count videos acc used,
    map sel_videoId (selectVideos count videos acc used)
      = map sel_videoId acc
        ++ firstn (Z.to_nat count - length acc)
             (setOf (filter (fun i => (truthy i && negb (setHas used i))%bool)
                       (map videoIdOf videos))).
Proof.
  intros count. induction videos as [|video rest IH]; intros acc used.
  - cbn [selectVideos map filter setOf]. rewrite firstn_nil, app_nil_r. reflexivity.
  - cbn [selectVideos].
    destruct (count <=? Z.of_nat (length acc))%Z eqn:Ec.
    + apply Z.leb_le in Ec.
      replace (Z.to_nat count - length acc) with 0 by lia.
      cbn [firstn]. rewrite app_nil_r. reflexivity.
    + apply Z.leb_gt in Ec. cbn [map filter].
      destruct (truthy (videoIdOf video) && negb (setHas used (videoIdOf video)))%bool eqn:Ep.
      * rewrite IH. rewrite map_app, length_app, <- app_assoc. cbn [map length app sel_videoId].
        f_equal.
        replace (Z.to_nat count - length acc) with (S (Z.to_nat count - (length acc + 1)))
          by lia.
        cbn [setOf firstn]. f_equal. f_equal.
        rewrite setOf_filter, filter_and. f_equal.
        apply filter_ext. intro i. unfold setHas. cbn [existsb].
        rewrite (str_eqb_sym i (videoIdOf video)).
        destruct (truthy i), (str_eqb (videoIdOf video) i), (existsb (str_eqb i) used);
          reflexivity.
      * apply IH.
Qed.

(** [getUniqueYoutubeVideos], lines 382-420: the videos selected are those
    of the first [count] distinct identifiers of the input, in the order of
    the input, a video without any identifier being passed over; the result
    is [null] when there is none. *)
Theorem unique_videos_are_the_first_distinct :
  forall (videos : list FoundVideo) (count : Z),
    option_map (map sel_videoId) (getUniqueYoutubeVideos (Some videos) count)
      = match firstn (Z.to_nat count) (setOf (filter truthy (map videoIdOf videos))) with
        | [] => None
        | ids => Some ids
        end.
Proof.
  intros videos count. unfold getUniqueYoutubeVideos.
  pose proof (selectVideos_ids count videos [] []) as H.
  cbn [map length app] in H. rewrite Nat.sub_0_r in H.
  assert (filter (fun i => (truthy i && negb (setHas [] i))%bool) (map videoIdOf videos)
          = filter truthy (map videoIdOf videos)) as Hf.
  { apply filter_ext. intro i. cbn. rewrite andb_true_r. reflexivity. }
  rewrite Hf in H. clear Hf.
  destruct videos as [|video rest].
  - cbn. rewrite firstn_nil. reflexivity.
  - cbn [length Nat.eqb]. rewrite <- H.
    destruct (selectVideos count (video :: rest) [] []) as [|v l]; reflexivity.
Qed.

Lemma selectVideos_sound :
  forall count videos acc used v,
    In v (selectVideos count videos acc used) ->
    In v acc
    \/ (In (sel_source v) videos
        /\ sel_videoId v = videoIdOf (sel_source v)
        /\ truthy (sel_videoId v) = true
        /\ sel_embedUrl v = embedUrlOf (sel_videoId v)).
Proof.
  intros count. induction videos as [|video rest IH]; intros acc used v Hin.
  - left. exact Hin.
  - cbn [selectVideos] in Hin.
    destruct (count <=? Z.of_nat (length acc))%Z; [left; exact Hin|].
    destruct (truthy (videoIdOf video) && negb (setHas used (videoIdOf video)))%bool eqn:Ep.
    + apply IH in Hin. destruct Hin as [Hin|(H1 & H2)].
      * apply in_app_or in Hin. destruct Hin as [Hin|[Hin|[]]]; [left; exact Hin|].
        subst v. right. cbn [sel_source sel_videoId sel_embedUrl].
        apply andb_true_iff in Ep. destruct Ep as [Ep _].
        split; [left; reflexivity|]. auto.
      * right. split; [right; exact H1 | exact H2].
    + apply IH in Hin. destruct Hin as [Hin|(H1 & H2)]; [left; exact Hin|].
      right. split; [right; exact H1 | exact H2].
Qed.

(** [getUniqueYoutubeVideos], lines 382-420: a list that the function
    returns is never empty, holds at most [count] videos and no identifier
    twice; each of its videos comes from the input, has a non-empty
    identifier, and carries the canonical embed URL of that identifier,
    whatever embed URL the input gave. *)
Theorem unique_videos_are_distinct_and_canonical :
  forall (videos : option (list FoundVideo)) (count : Z) (selected : list SelectedVideo),
    getUniqueYoutubeVideos videos count = Some selected ->
    selected <> []
    /\ (Z.of_nat (length selected) <= count)%Z
    /\ NoDup (map sel_videoId selected)
    /\ forall v, In v selected ->
         (exists vs, videos = Some vs /\ In (sel_source v) vs)
         /\ sel_videoId v <> []
         /\ sel_embedUrl v = lit "https://www.youtube.com/embed/" ++ sel_videoId v.
Proof.
  intros [vs|] count selected H; [|discriminate].
  unfold getUniqueYoutubeVideos in H.
  destruct (length vs =? 0); [discriminate|].
  destruct (0 <? length (selectVideos count vs [] [])) eqn:El; [|discriminate].
  inversion H; subst selected. clear H. apply Nat.ltb_lt in El.
  pose proof (selectVideos_ids count vs [] []) as Hids.
  cbn [map length app] in Hids. rewrite Nat.sub_0_r in Hids.
  split; [intro E; rewrite E in El; cbn in El; lia|].
  split.
  - rewrite <- (length_map sel_videoId), Hids.
    rewrite length_firstn. rewrite <- (length_map sel_videoId), Hids, length_firstn in El. lia.
  - split.
    + rewrite Hids. apply NoDup_firstn, setOf_NoDup.
    + intros v Hin. apply selectVideos_sound in Hin.
      destruct Hin as [[]|(H1 & H2 & H3 & H4)].
      split; [exists vs; auto|]. split; [|exact H4].
      intro E. rewrite E in H3. discriminate.
Qed.

Lemma unique_videos_are_distinct_and_canonical_witness :
  let twice := mkFoundVideo (lit "dQw4w9WgXcQ") [] [] (lit "Never gonna") in
  let byUrl := mkFoundVideo [] [] (lit "https://www.youtube.com/watch?v=9bZkp7q19f0&t=1") [] in
  let selected :=
    [ mkSelectedVideo twice (lit "dQw4w9WgXcQ") (lit "https://www.youtube.com/embed/dQw4w9WgXcQ");
      mkSelectedVideo byUrl (lit "9bZkp7q19f0") (lit "https://www.youtube.com/embed/9bZkp7q19f0") ] in
  selected <> []
  /\ (Z.of_nat (length selected) <= YOUTUBE_EMBED_COUNT)%Z
  /\ NoDup (map sel_videoId selected)
  /\ forall v, In v selected ->
       (exists vs, Some [twice; twice; byUrl] = Some vs /\ In (sel_source v) vs)
       /\ sel_videoId v <> []
       /\ sel_embedUrl v = lit "https://www.youtube.com/embed/" ++ sel_videoId v.
Proof.
  intros twice byUrl selected.
  apply (unique_videos_are_distinct_and_canonical (Some [twice; twice; byUrl])
           YOUTUBE_EMBED_COUNT selected).
  vm_compute. reflexivity.
Defined.

(* ------------------------------------------------------------------ *)
(** ** HTML snippets *)

Lemma search_from_spec :
  forall ci r a b pre h,
    search_from ci r b a = Some (pre, h) ->
    rev b ++ a = pre ++ h_text h ++ h_rest h.
Proof.
  intros ci r. induction a as [|x a IH]; intros b pre h H.
  - cbn [search_from] in H. destruct (exec ci r b []) as [h'|] eqn:E; [|discriminate].
    inversion H; subst. apply exec_spec in E. destruct E as [E _]. rewrite <- E. reflexivity.
  - cbn [search_from] in H. destruct (exec ci r b (x :: a)) as [h'|] eqn:E.
    + inversion H; subst. apply exec_spec in E. destruct E as [E _]. rewrite <- E. reflexivity.
    + apply IH in H. cbn [rev] in H. rewrite <- app_assoc in H. exact H.
Qed.

Lemma drop_while_head :
  forall p s x r, drop_while p s = x :: r -> p x = false.
Proof.
  intros p. induction s as [|y s IH]; intros x r H; [discriminate|].
  cbn [drop_while] in H. destruct (p y) eqn:E; [exact (IH _ _ H)|].
  inversion H; subst. exact E.
Qed.

Lemma drop_while_keeps_last :
  forall p l x, p x = false -> drop_while p (l ++ [x]) = drop_while p l ++ [x].
Proof.
  intros p. induction l as [|y l IH]; intros x Hx.
  - cbn [app drop_while]. rewrite Hx. reflexivity.
  - cbn [app drop_while]. destruct (p y); [apply IH; exact Hx | reflexivity].
Qed.

Lemma trim_nonspace_head :
  forall x s, is_space x = false -> exists r, trim (x :: s) = x :: r.
Proof.
  intros x s Hx. unfold trim. cbn [drop_while]. rewrite Hx. cbn [rev].
  rewrite drop_while_keeps_last by exact Hx. rewrite rev_app_distr. cbn [rev app].
  eexists. reflexivity.
Qed.

Lemma trim_head : forall s x r, trim s = x :: r -> is_space x = false.
Proof.
  intros s x r H. unfold trim in H.
  destruct (drop_while is_space s) as [|y d] eqn:E; [discriminate H|].
  pose proof (drop_while_head _ _ _ _ E) as Hy. cbn [rev] in H.
  rewrite drop_while_keeps_last in H by exact Hy. rewrite rev_app_distr in H.
  cbn [rev app] in H. inversion H; subst. exact Hy.
Qed.

(** The first occurrence of a character cuts a text in two. *)
Lemma index_of_char :
  forall c s i j,
    index_from i [c] s = Some j ->
    exists u v, s = u ++ c :: v /\ j = i + length u /\ forallb (fun x => negb (Ascii.eqb c x)) u = true.
Proof.
  intros c. induction s as [|x s IH]; intros i j H; [discriminate|].
  cbn [index_from] in H. unfold starts_with in H. cbn [strip_prefix] in H.
  destruct (Ascii.eqb c x) eqn:E.
  - inversion H; subst. apply Ascii.eqb_eq in E. subst x.
    exists [], s. cbn. split; [reflexivity | split; [lia | reflexivity]].
  - apply IH in H. destruct H as (u & v & -> & -> & Hu).
    exists (x :: u), v. cbn [app length forallb]. rewrite E, Hu.
    split; [reflexivity | split; [lia | reflexivity]].
Qed.

Lemma noTag_sym : forall u,
  forallb (fun x => negb (Ascii.eqb "<" x)) u = true -> forallb noTag u = true.
Proof.
  intros u H. rewrite forallb_forall in *. intros x Hx. specialize (H x Hx).
  unfold noTag. rewrite Ascii.eqb_sym. exact H.
Qed.

(** [sanitizeHtmlResponse], lines 613-637: the result either holds no tag
    at all, or starts with a tag, or starts with a text of at least 100
    characters (after trimming) before its first tag.  What the function
    drops in front of the first tag holds no tag and fewer than 100
    characters after trimming: the result is the text without its fences, or
    that text from its first tag on. *)
Theorem sanitizeHtmlResponse_shape :
  forall rawHtml : str,
    (includes (sanitizeHtmlResponse rawHtml) (lit "<") = false
     \/ starts_with (lit "<") (sanitizeHtmlResponse rawHtml) = true
     \/ exists text rest,
          sanitizeHtmlResponse rawHtml = text ++ "<"%char :: rest
          /\ forallb noTag text = true
          /\ 100 <= length (trim text))
    /\ (rawHtml = []
        \/ exists dropped,
             stripFences rawHtml = dropped ++ sanitizeHtmlResponse rawHtml
             /\ forallb noTag dropped = true
             /\ length (trim dropped) < 100).
Proof.
  intro rawHtml. unfold sanitizeHtmlResponse.
  destruct rawHtml as [|c0 raw0]; [split; left; reflexivity|].
  cbn [truthy str_eqb negb]. set (raw := c0 :: raw0).
  set (cleaned := stripFences raw).
  assert (forall (P : Prop), P -> raw = [] \/ P) as Hright by (intros; right; assumption).
  destruct (indexOf (lit "<") cleaned) as [i|] eqn:Ei.
  - unfold indexOf in Ei. apply index_of_char in Ei.
    destruct Ei as (u & v & Hc & Hi & Hu). cbn [Nat.add] in Hi. subst i.
    apply noTag_sym in Hu.
    destruct u as [|x u].
    + cbn [length Nat.ltb Nat.leb]. rewrite Hc. split.
      * right. left. reflexivity.
      * apply Hright. exists []. split; [reflexivity | split; [reflexivity | cbn; lia]].
    + assert ((0 <? length (x :: u)) = true) as Hpos by reflexivity. rewrite Hpos.
      assert (substring 0 (length (x :: u)) cleaned = x :: u) as Hsub.
      { unfold substring. cbn [skipn]. rewrite Nat.sub_0_r, Hc.
        rewrite firstn_app, Nat.sub_diag, firstn_all. cbn [firstn]. apply app_nil_r. }
      rewrite Hsub.
      assert (is_space x = false) as Hx.
      { apply (trim_head (replaceFirst false closingFenceRe nothing
                            (replaceFirst true htmlOpeningFenceRe nothing raw)) x (u ++ "<"%char :: v)).
        exact Hc. }
      destruct (trim_nonspace_head x u Hx) as [r Hr].
      assert ((0 <? length (trim (x :: u))) = true) as Hne by (rewrite Hr; reflexivity).
      rewrite Hne. cbn [andb].
      destruct (length (trim (x :: u)) <? 100) eqn:El.
      * assert (skipn (length (x :: u)) cleaned = "<"%char :: v) as Hskip.
        { rewrite Hc, skipn_app, Nat.sub_diag, skipn_all. reflexivity. }
        rewrite Hskip. split.
        -- right. left. reflexivity.
        -- apply Hright. exists (x :: u). split; [exact Hc|]. split; [exact Hu|].
           apply Nat.ltb_lt. exact El.
      * apply Nat.ltb_ge in El. split.
        -- right. right. exists (x :: u), v. auto.
        -- apply Hright. exists []. split; [reflexivity | split; [reflexivity | cbn; lia]].
  - split.
    + left. unfold includes. rewrite Ei. reflexivity.
    + apply Hright. exists []. split; [reflexivity | split; [reflexivity | cbn; lia]].
Qed.

Lemma search_from_here :
  forall ci r b a h, exec ci r b a = Some h -> search_from ci r b a = Some (rev b, h).
Proof. intros ci r b [|x a] h H; cbn [search_from]; rewrite H; reflexivity. Qed.

Lemma search_from_next :
  forall ci r b x a,
    exec ci r b (x :: a) = None -> search_from ci r b (x :: a) = search_from ci r (x :: b) a.
Proof. intros ci r b x a H. cbn [search_from]. rewrite H. reflexivity. Qed.

Lemma exec_closing_fence_spec :
  forall b a h,
    exec false closingFenceRe b a = Some h ->
    exists u, a = u ++ fence /\ forallb is_space u = true.
Proof.
  intros b a h H. unfold exec, closingFenceRe, seqs in H. cbn [fold_right run] in H.
  apply star_spec in H. destruct H as (u & a' & -> & Hu & H).
  rewrite lits_exact in H.
  destruct (strip_prefix fence a') as [a2|] eqn:E; [|discriminate].
  apply strip_prefix_eq in E. destruct a2 as [|y a2]; [|discriminate].
  exists u. rewrite E, app_nil_r. auto.
Qed.

Lemma exec_closing_fence :
  forall b u,
    forallb is_space u = true ->
    exec false closingFenceRe b (u ++ fence) = Some (mkHit (u ++ fence) [] []).
Proof.
  intros b u Hu. unfold exec, closingFenceRe, seqs. cbn [fold_right run].
  change fence with ("`"%char :: lit "``").
  apply star_until; [exact Hu | reflexivity |].
  rewrite lits_exact.
  change ("`"%char :: lit "``") with (("`"%char :: lit "``") ++ []).
  rewrite strip_prefix_self. cbn [run]. f_equal. f_equal.
  repeat (rewrite ?rev_app_distr, ?rev_involutive, ?app_nil_r, <- ?app_assoc). reflexivity.
Qed.

(** The closing fence of a text that ends with a tag, white space and the
    fence is found behind the tag. *)
Lemma search_closing_fence :
  forall ws, forallb is_space ws = true ->
  forall w b,
    search_from false closingFenceRe b (w ++ lit ">" ++ ws ++ fence)
      = Some (rev b ++ w ++ lit ">", mkHit (ws ++ fence) [] []).
Proof.
  intros ws Hws.
  assert (forall b t, exec false closingFenceRe b (t ++ lit ">" ++ ws ++ fence) = None) as Hfail.
  { intros b t. destruct (exec false closingFenceRe b (t ++ lit ">" ++ ws ++ fence)) as [h|] eqn:E;
      [|reflexivity].
    apply exec_closing_fence_spec in E. destruct E as (u & E & Hu).
    rewrite !app_assoc in E. apply app_inv_tail in E. subst u.
    rewrite !forallb_app in Hu. cbn in Hu. rewrite andb_false_r in Hu. discriminate Hu. }
  induction w as [|x w IH]; intro b.
  - cbn [app]. change (lit ">" ++ ws ++ fence) with (">"%char :: ws ++ fence).
    rewrite search_from_next by exact (Hfail b []).
    rewrite (search_from_here _ _ _ _ _ (exec_closing_fence _ ws Hws)).
    reflexivity.
  - cbn [app]. rewrite search_from_next by exact (Hfail b (x :: w)).
    rewrite IH. cbn [rev]. rewrite <- app_assoc. reflexivity.
Qed.

Lemma trim_of_fragment :
  forall inner, trim ("<"%char :: inner ++ lit ">") = "<"%char :: inner ++ lit ">".
Proof.
  intro inner. unfold trim. cbn [drop_while].
  change (is_space "<") with false. cbn iota.
  change ("<"%char :: inner ++ lit ">") with (("<"%char :: inner) ++ lit ">").
  rewrite rev_app_distr. cbn [lit list_ascii_of_string rev app drop_while].
  change (is_space ">") with false. cbn iota.
  change (">"%char :: rev inner ++ ["<"%char]) with (rev (lit ">") ++ rev ("<"%char :: inner)).
  rewrite <- rev_app_distr, rev_involutive. reflexivity.
Qed.

(** [sanitizeHtmlResponse], lines 613-637: an HTML fragment (a text that
    starts with a tag and ends with a tag) wrapped in a markdown fence with
    the language tag [html], with any white space between the fences and
    the fragment, comes back as the bare fragment. *)
Theorem fenced_html_is_unwrapped :
  forall inner ws1 ws2 : str,
    forallb is_space ws1 = true ->
    forallb is_space ws2 = true ->
    sanitizeHtmlResponse
      (lit "```html" ++ ws1 ++ ("<"%char :: inner ++ lit ">") ++ ws2 ++ lit "```")
      = "<"%char :: inner ++ lit ">".
Proof.
  intros inner ws1 ws2 H1 H2.
  assert (replaceFirst true htmlOpeningFenceRe nothing
            (lit "```html" ++ ws1 ++ ("<"%char :: inner ++ lit ">") ++ ws2 ++ lit "```")
          = ("<"%char :: inner) ++ lit ">" ++ ws2 ++ fence) as Hopen.
  { unfold replaceFirst.
    assert (exec true htmlOpeningFenceRe []
              (lit "```html" ++ ws1 ++ ("<"%char :: inner ++ lit ">") ++ ws2 ++ lit "```")
            = Some (mkHit (lit "```html" ++ ws1) []
                      (("<"%char :: inner) ++ lit ">" ++ ws2 ++ fence))) as He.
    { unfold exec, htmlOpeningFenceRe, seqs, fence. simpl.
      erewrite star_until; [| exact H1 | reflexivity | reflexivity].
      f_equal. f_equal.
      - rewrite rev_app_distr, rev_involutive. reflexivity.
      - rewrite <- !app_assoc. reflexivity. }
    rewrite (search_from_here _ _ _ _ _ He). reflexivity. }
  unfold sanitizeHtmlResponse, stripFences.
  cbn [lit list_ascii_of_string app truthy str_eqb negb]. 
  change ("`"%char :: "`"%char :: "`"%char :: "h"%char :: "t"%char :: "m"%char :: "l"%char
            :: ws1 ++ "<"%char :: (inner ++ [">"%char]) ++ ws2 ++ ["`"%char; "`"%char; "`"%char])
    with (lit "```html" ++ ws1 ++ ("<"%char :: inner ++ lit ">") ++ ws2 ++ lit "```").
  rewrite Hopen. unfold replaceFirst.
  rewrite (search_closing_fence ws2 H2 ("<"%char :: inner) []).
  cbn [rev h_rest nothing]. rewrite !app_nil_r. cbn [app].
  rewrite trim_of_fragment. reflexivity.
Qed.

Lemma fenced_html_is_unwrapped_witness :
  sanitizeHtmlResponse
    (lit "```html" ++ newline ++ ("<"%char :: lit "p>Hello</p" ++ lit ">") ++ newline ++ lit "```")
    = "<"%char :: lit "p>Hello</p" ++ lit ">".
Proof.
  apply (fenced_html_is_unwrapped (lit "p>Hello</p") newline newline); reflexivity.
Defined.

(* ------------------------------------------------------------------ *)
(** ** Escaping a term for a pattern *)

Lemma special_is_syntax_or_slash :
  forall c, isRegExpSpecial c = (isSyntaxCharacter c || Ascii.eqb c "/")%bool.
Proof.
  intros [[] [] [] [] [] [] [] []]; reflexivity.
Qed.

Lemma escape_chunks :
  forall s b,
    concat (map (emit (fun h => "\"%char :: h_text h))
              (chunks false (Cls isRegExpSpecial) b s 0))
      = flat_map (fun x => if isRegExpSpecial x then ["\"%char; x] else [x]) s.
Proof.
  induction s as [|x s IH]; intro b; [reflexivity|].
  cbn [chunks flat_map]. unfold exec at 1. cbn [run].
  destruct (isRegExpSpecial x).
  - cbn [h_text rev app length map concat emit]. rewrite IH. reflexivity.
  - cbn [map concat emit app]. rewrite IH. reflexivity.
Qed.

(** [escapeRegExp], lines 2200-2202: an escaped term is a pattern source
    that denotes exactly the term.  Whatever characters the term holds, the
    source consists of literal characters and identity escapes only, and
    reading it gives the term back: the patterns built from
    [escapeRegExp(term)] match the term literally. *)
Theorem escapeRegExp_denotes_the_term :
  forall term : str, patternLiteral (escapeRegExp term) = Some term.
Proof.
  intro term. unfold escapeRegExp, replaceAll, scan. rewrite escape_chunks.
  induction term as [|x term IH]; [reflexivity|].
  cbn [flat_map]. destruct (isRegExpSpecial x) eqn:E.
  - cbn [app patternLiteral]. rewrite Ascii.eqb_refl.
    rewrite <- special_is_syntax_or_slash, E, IH. reflexivity.
  - cbn [app patternLiteral].
    rewrite special_is_syntax_or_slash in E. apply orb_false_iff in E. destruct E as [E1 E2].
    destruct (Ascii.eqb x "\") eqn:Eb.
    + apply Ascii.eqb_eq in Eb. subst x. discriminate E1.
    + rewrite E1, IH. reflexivity.
Qed.

(* ------------------------------------------------------------------ *)
(** ** Writing score *)

Lemma exec_literal :
  forall p b a,
    exec false (Lit p) b a
      = match strip_prefix p a with
        | Some a' => Some (mkHit p [] a')
        | None => None
        end.
Proof.
  intros p b a. unfold exec. cbn [run]. rewrite lits_exact.
  destruct (strip_prefix p a); [|reflexivity].
  rewrite app_nil_r, rev_involutive. reflexivity.
Qed.

(** A literal has no match in a text exactly when the text does not
    include it. *)
Lemma literal_hits_none :
  forall p a b i j,
    hits_from i (chunks false (Lit p) b a 0) = [] <-> index_from j p a = None.
Proof.
  intros p. induction a as [|x a IH]; intros b i j.
  - cbn [chunks index_from]. rewrite exec_literal. unfold starts_with.
    destruct (strip_prefix p []); cbn; split; intro H; try discriminate; reflexivity.
  - cbn [chunks index_from]. rewrite exec_literal. unfold starts_with.
    destruct (strip_prefix p (x :: a)) as [a'|].
    + cbn [h_text]. split; intro H; [|discriminate].
      destruct (length p); discriminate H.
    + cbn [hits_from]. apply IH.
Qed.

Lemma occurrences_zero :
  forall phrase text, occurrences phrase text = 0 <-> includes text phrase = false.
Proof.
  intros phrase text. unfold occurrences, matchAll, scan, includes, indexOf.
  rewrite length_zero_iff_nil, (literal_hits_none phrase text [] 0 0).
  destruct (index_from 0 phrase text); split; intro H; try discriminate; reflexivity.
Qed.

Lemma phrase_penalties :
  forall (lowerContent : str) (step : Z -> str -> Z),
    (forall aiScore phrase,
       step aiScore phrase
       = if 0 <? occurrences phrase lowerContent
         then (aiScore + Z.of_nat (occurrences phrase lowerContent) * 10)%Z
         else aiScore) ->
    forall l a,
      (a <= fold_left step l a)%Z
      /\ (fold_left step l a = a
          <-> forall phrase, In phrase l -> occurrences phrase lowerContent = 0).
Proof.
  intros lowerContent step Hstep. induction l as [|p l IH]; intro a.
  - cbn [fold_left]. split; [lia|]. split; [intros _ q []| reflexivity].
  - cbn [fold_left]. rewrite Hstep.
    destruct (occurrences p lowerContent) as [|n] eqn:Ec.
    + cbn [Nat.ltb Nat.leb]. destruct (IH a) as [Hle Hiff]. split; [exact Hle|].
      rewrite Hiff. split.
      * intros H q [<-|Hq]; [exact Ec | exact (H q Hq)].
      * intros H q Hq. apply H. right. exact Hq.
    + cbn [Nat.ltb Nat.leb].
      destruct (IH (a + Z.of_nat (S n) * 10)%Z) as [Hle _]. split; [lia|].
      split.
      * intro H. rewrite H in Hle. lia.
      * intro H. specialize (H p (or_introl eq_refl)). rewrite Ec in H. discriminate H.
Qed.

(** [checkHumanWritingScore], lines 327-375: the score lies between 0 and
    100, and it is 100 exactly when the lower-cased content includes none
    of the listed phrases and the average sentence is not above 25 words. *)
Theorem human_score_is_full_iff_clean :
  forall content : str,
    (0 <= checkHumanWritingScore content <= 100)%Z
    /\ (checkHumanWritingScore content = 100%Z
        <-> (forall phrase, In phrase aiPhrases ->
               includes (toLowerCase content) phrase = false)
            /\ averageTooLong (sentencesOf content) = false).
Proof.
  intro content. unfold checkHumanWritingScore.
  destruct (phrase_penalties (toLowerCase content) _ (fun _ _ => eq_refl) aiPhrases 0%Z)
    as [Hle Hiff].
  set (aiScore := fold_left _ aiPhrases 0%Z) in *.
  assert ((forall phrase, In phrase aiPhrases -> includes (toLowerCase content) phrase = false)
          <-> aiScore = 0%Z) as Hclean.
  { rewrite Hiff. split; intros H p Hp; apply occurrences_zero; apply H; exact Hp. }
  rewrite Hclean.
  destruct (averageTooLong (sentencesOf content)); split; lia.
Qed.

(** Every phrase of the list is a pattern source of literal characters. *)
Lemma phrases_are_literal :
  forallb (fun phrase => match patternLiteral phrase with
                         | Some p => str_eqb p phrase
                         | None => false
                         end) aiPhrases = true.
Proof. vm_compute. reflexivity. Qed.

Lemma phrase_costs :
  forall (lowerContent : str) (step : Z -> str -> Z),
    (forall aiScore phrase,
       step aiScore phrase
       = if 0 <? occurrences phrase lowerContent
         then (aiScore + Z.of_nat (occurrences phrase lowerContent) * 10)%Z
         else aiScore) ->
    forall l a phrase,
      In phrase l ->
      (a + 10 * Z.of_nat (occurrences phrase lowerContent) <= fold_left step l a)%Z.
Proof.
  intros lowerContent step Hstep. induction l as [|q l IH]; intros a phrase Hin; [contradiction|].
  cbn [fold_left].
  assert (a <= step a q)%Z as Hmono.
  { rewrite Hstep. destruct (0 <? occurrences q lowerContent); lia. }
  destruct Hin as [->|Hin].
  - destruct (phrase_penalties lowerContent step Hstep l (step a phrase)) as [Hle _].
    rewrite Hstep in Hle at 1.
    destruct (occurrences phrase lowerContent) as [|n]; cbn [Nat.ltb Nat.leb] in Hle; lia.
  - specialize (IH (step a q) phrase Hin). lia.
Qed.

(** [checkHumanWritingScore], lines 327-375: every occurrence of a listed
    phrase in the lower-cased content costs ten points.  With [n]
    occurrences of one phrase the score is at most [100 - 10 n], and 0 from
    ten occurrences on. *)
Theorem human_score_pays_each_occurrence :
  forall (content phrase : str),
    In phrase aiPhrases ->
    (checkHumanWritingScore content
     <= Z.max 0 (100 - 10 * Z.of_nat (occurrences phrase (toLowerCase content))))%Z.
Proof.
  intros content phrase Hin. unfold checkHumanWritingScore.
  pose proof (phrase_costs (toLowerCase content) _ (fun _ _ => eq_refl) aiPhrases 0%Z
                phrase Hin) as H.
  set (aiScore := fold_left _ aiPhrases 0%Z) in *.
  destruct (averageTooLong (sentencesOf content)); lia.
Qed.

Lemma human_score_pays_each_occurrence_witness :
  (checkHumanWritingScore (lit "We Delve Into robust tools. They unlock robust results.")
   <= Z.max 0 (100 - 10 * Z.of_nat
                 (occurrences (lit "robust")
                    (toLowerCase (lit "We Delve Into robust tools. They unlock robust results.")))))%Z.
Proof.
  apply (human_score_pays_each_occurrence
           (lit "We Delve Into robust tools. They unlock robust results.") (lit "robust")).
  do 6 right. left. reflexivity.
Defined.

(* ------------------------------------------------------------------ *)
(** ** The response cache *)

Lemma entryOf_entrySet :
  forall (V : Type) (m : list (str * V)) k v k',
    entryOf (entrySet m k v) k' = if str_eqb k k' then Some v else entryOf m k'.
Proof.
  intros V. induction m as [|[k0 v0] m IH]; intros k v k'.
  - cbn [entrySet entryOf]. destruct (str_eqb k k'); reflexivity.
  - cbn [entrySet entryOf]. destruct (str_eqb k0 k) eqn:E.
    + apply str_eqb_eq in E. subst k0. cbn [entryOf].
      destruct (str_eqb k k'); reflexivity.
    + cbn [entryOf]. rewrite IH.
      destruct (str_eqb k0 k') eqn:E'; [|reflexivity].
      apply str_eqb_eq in E'. subst k0. rewrite str_eqb_sym, E. reflexivity.
Qed.

(** [ContentCache], lines 452-469: after [set(key, data)] at time [t0], a
    [get] of that key at time [t] gives [data] exactly while less than an
    hour (3600000 ms) has passed, and [null] afterwards, whatever was stored
    for the key before; a [get] of any other key is not affected by the
    [set]. *)
Theorem cache_get_after_set :
  forall (A : Type) (cache : ContentCache A) (key key' : str) (data : A) (t0 t : Z),
    cacheGet (cacheSet cache key data t0) key' t
      = if str_eqb key key'
        then (if (t - t0 <? 3600000)%Z then Some data else None)
        else cacheGet cache key' t.
Proof.
  intros A cache key key' data t0 t. unfold cacheGet, cacheSet.
  rewrite entryOf_entrySet. destruct (str_eqb key key'); reflexivity.
Qed.

(* ------------------------------------------------------------------ *)
(** ** The items state *)

Lemma reducer_keeps_identity :
  forall action state,
    updatesInPlace action = true ->
    map (fun i => (item_id i, item_title i, item_type i, item_originalUrl i))
      (itemsReducer state action)
    = map (fun i => (item_id i, item_title i, item_type i, item_originalUrl i)) state.
Proof.
  intros action state H. destruct action as [payload|id st tx|id g|id c]; [discriminate| | |];
    cbn [itemsReducer]; rewrite map_map; apply map_ext; intro i;
    destruct (str_eqb (item_id i) id); reflexivity.
Qed.

(** [itemsReducer], lines 1813-1838: whatever sequence of [UPDATE_STATUS],
    [SET_CONTENT] and [SET_CRAWLED_CONTENT] actions is dispatched, the list
    keeps its items in place: their number, order, identifiers, titles,
    types and original URLs never change.  Only [SET_ITEMS] replaces the
    list. *)
Theorem status_actions_keep_the_items :
  forall (actions : list ItemsAction) (state : list ContentItem),
    forallb updatesInPlace actions = true ->
    map (fun i => (item_id i, item_title i, item_type i, item_originalUrl i))
      (fold_left itemsReducer actions state)
    = map (fun i => (item_id i, item_title i, item_type i, item_originalUrl i)) state.
Proof.
  induction actions as [|a actions IH]; intros state H; [reflexivity|].
  cbn [forallb] in H. apply andb_true_iff in H. destruct H as [Ha H].
  cbn [fold_left]. rewrite (IH _ H). apply reducer_keeps_identity. exact Ha.
Qed.

Lemma status_actions_keep_the_items_witness :
  map (fun i => (item_id i, item_title i, item_type i, item_originalUrl i))
    (fold_left itemsReducer
       [ UPDATE_STATUS (lit "seo-basics") Generating (lit "Stage 1/5");
         SET_CRAWLED_CONTENT (lit "link-building") (lit "<p>old</p>");
         SET_CONTENT (lit "seo-basics") emptyObject ]
       [draftItem; finishedItem])
  = map (fun i => (item_id i, item_title i, item_type i, item_originalUrl i))
      [draftItem; finishedItem].
Proof.
  apply (status_actions_keep_the_items
           [ UPDATE_STATUS (lit "seo-basics") Generating (lit "Stage 1/5");
             SET_CRAWLED_CONTENT (lit "link-building") (lit "<p>old</p>");
             SET_CONTENT (lit "seo-basics") emptyObject ]
           [draftItem; finishedItem]).
  reflexivity.
Defined.

(** [handleSaveChanges] with [itemsReducer], lines 4109-4140 and
    1815-1816: the handler dispatches the edited list through [SET_ITEMS],
    and [SET_ITEMS] resets what it is given.  So after a save that is
    dispatched the list has the same identifiers as before, but every item,
    the edited one included, is idle with the text [Not Started] and has no
    generated content: the edit is not kept in the state. *)
Theorem saving_changes_resets_every_item :
  forall (rebuild : Content -> SeoFields -> str -> Content) (items : list ContentItem)
         (itemId : str) (updatedSeo : SeoFields) (updatedContent : str)
         (saved : list ContentItem),
    handleSaveChanges rebuild items itemId updatedSeo updatedContent = Some saved ->
    map item_id saved = map item_id items
    /\ Forall (fun i => item_generatedContent i = None
                        /\ item_status i = Idle
                        /\ item_statusText i = lit "Not Started") saved.
Proof.
  intros rebuild items itemId updatedSeo updatedContent saved H.
  unfold handleSaveChanges in H.
  destruct (find (fun i => str_eqb (item_id i) itemId) items) as [itemToUpdate|] eqn:Ef;
    [|discriminate].
  destruct (item_generatedContent itemToUpdate) as [generated|]; [|discriminate].
  inversion H; subst saved. clear H. cbn [itemsReducer].
  apply find_some in Ef. destruct Ef as [_ Eid]. apply str_eqb_eq in Eid.
  split.
  - rewrite !map_map. apply map_ext. intro i. cbn [item_id].
    destruct (str_eqb (item_id i) itemId) eqn:E; [|reflexivity].
    apply str_eqb_eq in E. cbn [item_id]. congruence.
  - apply Forall_forall. intros i Hi. rewrite map_map in Hi.
    apply in_map_iff in Hi. destruct Hi as (j & <- & _). cbn. auto.
Qed.

Lemma saving_changes_resets_every_item_witness :
  map item_id
    (itemsReducer [draftItem; finishedItem]
       (SET_ITEMS [draftItem;
                   mkContentItem (lit "link-building") (lit "Link Building") Cluster Done
                     (lit "Completed")
                     (Some (normalizeGeneratedContent sixParagraphs (lit "Link Building")))
                     None None None (Some StandardFormat)]))
  = map item_id [draftItem; finishedItem]
  /\ Forall (fun i => item_generatedContent i = None
                      /\ item_status i = Idle
                      /\ item_statusText i = lit "Not Started")
       (itemsReducer [draftItem; finishedItem]
          (SET_ITEMS [draftItem;
                      mkContentItem (lit "link-building") (lit "Link Building") Cluster Done
                        (lit "Completed")
                        (Some (normalizeGeneratedContent sixParagraphs (lit "Link Building")))
                        None None None (Some StandardFormat)])).
Proof.
  apply (saving_changes_resets_every_item (fun generated _ _ => generated)
           [draftItem; finishedItem] (lit "link-building")
           (mkSeoFields (lit "Link Building 101") (lit "A guide.") (lit "link-building"))
           (lit "<p>edited</p>")).
  reflexivity.
Defined.

Lemma rejected_error :
  forall body minWords maxWords out error,
    enforceWordCount body minWords maxWords = (out, inl error) ->
    cts_content error = body /\ cts_wordCount error = wordCountOf body.
Proof.
  intros body minWords maxWords out error H. unfold enforceWordCount in H.
  destruct (Z.of_nat (wordCountOf body) <? minWords)%Z.
  - inversion H; subst. split; reflexivity.
  - destruct (Z.of_nat (wordCountOf body) >? maxWords)%Z; discriminate H.
Qed.

(** The generation loop with [enforceWordCount], [normalizeGeneratedContent]
    and [itemsReducer] (lines 4070-4098): when the gate rejects the body of
    an item, the list keeps its items; the items with another identifier are
    untouched; the rejected item ends with status [error], the text
    [Word count too low: N] for the counted [N], and a generated content
    whose title is the item's title and whose body is the rejected body with
    the two image placeholders injected into it.  For a non-empty body the
    kept body contains both placeholder tokens. *)
Theorem rejected_body_is_kept_for_review :
  forall (state : list ContentItem) (item : ContentItem) (body : str) (minWords maxWords : Z)
         (out : list Console) (error : ContentTooShortError),
    enforceWordCount body minWords maxWords = (out, inl error) ->
    map item_id (keepTooShort state item error) = map item_id state
    /\ (forall other, In other state -> item_id other <> item_id item ->
          In other (keepTooShort state item error))
    /\ (forall kept, In kept (keepTooShort state item error) -> item_id kept = item_id item ->
          item_status kept = Failed
          /\ item_statusText kept
             = lit "Word count too low: " ++ string_of_Z (Z.of_nat (wordCountOf body))
          /\ exists generated,
               item_generatedContent kept = Some generated
               /\ title generated = Some (item_title item)
               /\ content generated
                  = Some (injectPlaceholder IMAGE_2 5 (injectPlaceholder IMAGE_1 2 body))
               /\ (body <> [] ->
                   includes (injectPlaceholder IMAGE_2 5 (injectPlaceholder IMAGE_1 2 body))
                     IMAGE_1 = true
                   /\ includes (injectPlaceholder IMAGE_2 5 (injectPlaceholder IMAGE_1 2 body))
                        IMAGE_2 = true)).
Proof.
  intros state item body minWords maxWords out error H.
  apply rejected_error in H. destruct H as [Hbody Hcount].
  unfold keepTooShort. cbn [itemsReducer]. rewrite Hcount.
  set (generated := partialContentOf error (item_title item)).
  split; [|split].
  - rewrite !map_map. apply map_ext. intro i.
    destruct (str_eqb (item_id i) (item_id item)) eqn:E; cbn [item_id]; rewrite E; reflexivity.
  - intros other Hin Hne. rewrite map_map. apply in_map_iff. exists other.
    split; [|exact Hin].
    destruct (str_eqb (item_id other) (item_id item)) eqn:E.
    + apply str_eqb_eq in E. contradiction.
    + rewrite E. reflexivity.
  - intros kept Hin Hid. rewrite map_map in Hin. apply in_map_iff in Hin.
    destruct Hin as (i & Hkept & _).
    destruct (str_eqb (item_id i) (item_id item)) eqn:E.
    + cbn [item_id] in Hkept. rewrite E in Hkept. subst kept.
      cbn [item_status item_statusText item_generatedContent].
      split; [reflexivity|]. split; [reflexivity|].
      exists generated. split; [reflexivity|].
      subst generated. unfold partialContentOf, normalizeGeneratedContent.
      cbn [title slug content imageDetails needsImages strOf].
      rewrite !truthyStr_some, Hbody, orEmpty_idempotent.
      split; [destruct (truthy (item_title item)); reflexivity|].
      split; [reflexivity|].
      intro Hne. apply injections_include_both. apply truthy_nonempty. exact Hne.
    + rewrite E in Hkept. subst kept. apply str_eqb_eq in Hid. congruence.
Qed.

Lemma rejected_body_is_kept_for_review_witness :
  let error := mkContentTooShort (tooShortMessage 3 2200) threeWords 3 in
  map item_id (keepTooShort [draftItem; finishedItem] draftItem error)
    = map item_id [draftItem; finishedItem]
  /\ (forall other, In other [draftItem; finishedItem] -> item_id other <> item_id draftItem ->
        In other (keepTooShort [draftItem; finishedItem] draftItem error))
  /\ (forall kept, In kept (keepTooShort [draftItem; finishedItem] draftItem error) ->
        item_id kept = item_id draftItem ->
        item_status kept = Failed
        /\ item_statusText kept
           = lit "Word count too low: " ++ string_of_Z (Z.of_nat (wordCountOf threeWords))
        /\ exists generated,
             item_generatedContent kept = Some generated
             /\ title generated = Some (item_title draftItem)
             /\ content generated
                = Some (injectPlaceholder IMAGE_2 5 (injectPlaceholder IMAGE_1 2 threeWords))
             /\ (threeWords <> [] ->
                 includes (injectPlaceholder IMAGE_2 5 (injectPlaceholder IMAGE_1 2 threeWords))
                   IMAGE_1 = true
                 /\ includes (injectPlaceholder IMAGE_2 5 (injectPlaceholder IMAGE_1 2 threeWords))
                      IMAGE_2 = true)).
Proof.
  intro error.
  apply (rejected_body_is_kept_for_review [draftItem; finishedItem] draftItem threeWords
           2200 2800 [ConsoleLog (wordCountLine 3 2200 2800)] error).
  vm_compute. reflexivity.
Defined.

(* ------------------------------------------------------------------ *)
(** ** Fetching *)

Lemma requestsOf_app :
  forall t t', requestsOf (t ++ t') = requestsOf t ++ requestsOf t'.
Proof. intros t t'. unfold requestsOf. apply flat_map_app. Qed.

(** The proxy loop asks the proxies in order and stops at the first
    response that passes the test. *)
Lemma proxyLoop_spec :
  forall fetch accept announce proxies i lastError trace result,
    proxyLoop fetch accept announce i proxies lastError = (trace, result) ->
    match result with
    | inl response =>
        exists n, n < length proxies
          /\ requestsOf trace = firstn (S n) (map snd proxies)
          /\ (forall m, m < n ->
                refused accept (fetch (S (i + m)) (nth m (map snd proxies) [])))
          /\ fetch (S (i + n)) (nth n (map snd proxies) []) = Responds response
          /\ accept response = true
    | inr lastError' =>
        requestsOf trace = map snd proxies
        /\ (forall m, m < length proxies ->
              refused accept (fetch (S (i + m)) (nth m (map snd proxies) [])))
        /\ (proxies = [] -> lastError' = lastError)
        /\ (forall front host proxyUrl,
              proxies = front ++ [(host, proxyUrl)] ->
              lastError'
                = Some (proxyError host (fetch (S (i + length front)) proxyUrl)))
    end.
Proof.
  intros fetch accept announce.
  induction proxies as [|[host proxyUrl] rest IH]; intros i lastError trace result H.
  - cbn [proxyLoop] in H. inversion H; subst. split; [reflexivity|].
    split; [intros m Hm; cbn in Hm; lia|].
    split; [reflexivity | intros [|p front] host proxyUrl E; discriminate E].
  - cbn [proxyLoop] in H. cbn [map snd length].
    set (attempt := (if announce
                     then [Progress (lit "Attempting fetch via proxy #"
                                       ++ string_of_Z (Z.of_nat (i + 1)) ++ lit ": " ++ host)]
                     else []) ++ [Request proxyUrl]) in *.
    assert (requestsOf attempt = [proxyUrl]) as Hreq
      by (subst attempt; destruct announce; reflexivity).
    assert (forall (lastError' : option JsError) outcome,
              fetch (S i) proxyUrl = outcome ->
              refused accept outcome ->
              (let '(trace0, result0) := proxyLoop fetch accept announce (S i) rest lastError' in
               (attempt ++ trace0, result0)) = (trace, result) ->
              lastError' = Some (proxyError host outcome) ->
              match result with
              | inl response =>
                  exists n, n < S (length rest)
                    /\ requestsOf trace = firstn (S n) (proxyUrl :: map snd rest)
                    /\ (forall m, m < n ->
                          refused accept (fetch (S (i + m)) (nth m (proxyUrl :: map snd rest) [])))
                    /\ fetch (S (i + n)) (nth n (proxyUrl :: map snd rest) []) = Responds response
                    /\ accept response = true
              | inr lastError2 =>
                  requestsOf trace = proxyUrl :: map snd rest
                  /\ (forall m, m < S (length rest) ->
                        refused accept (fetch (S (i + m)) (nth m (proxyUrl :: map snd rest) [])))
                  /\ ((host, proxyUrl) :: rest = [] -> lastError2 = lastError)
                  /\ (forall front host' proxyUrl',
                        (host, proxyUrl) :: rest = front ++ [(host', proxyUrl')] ->
                        lastError2
                          = Some (proxyError host' (fetch (S (i + length front)) proxyUrl')))
              end) as Hnext.
    { intros lastError' outcome Hout Href Hrec Hsome.
      destruct (proxyLoop fetch accept announce (S i) rest lastError') as [trace0 result0] eqn:E.
      inversion Hrec; subst trace result. clear Hrec.
      specialize (IH (S i) lastError' trace0 result0 E).
      destruct result0 as [response|lastError2].
      - destruct IH as (n & Hn & Hreqs & Hbefore & Hfetch & Hacc).
        exists (S n). split; [lia|]. split.
        + rewrite requestsOf_app, Hreq, Hreqs. reflexivity.
        + split; [|split].
          * intros [|m] Hm.
            -- rewrite Nat.add_0_r. cbn [nth]. rewrite Hout. exact Href.
            -- rewrite Nat.add_succ_r. cbn [nth]. apply (Hbefore m). lia.
          * rewrite Nat.add_succ_r. cbn [nth]. exact Hfetch.
          * exact Hacc.
      - destruct IH as (Hreqs & Hall & Hnil & Hcons).
        split; [rewrite requestsOf_app, Hreq, Hreqs; reflexivity|].
        split; [|split].
        + intros [|m] Hm.
          * rewrite Nat.add_0_r. cbn [nth]. rewrite Hout. exact Href.
          * rewrite Nat.add_succ_r. cbn [nth]. apply (Hall m). lia.
        + intro Habs. discriminate Habs.
        + intros [|p front] host' proxyUrl' Efront; cbn [app] in Efront.
          * inversion Efront; subst host' proxyUrl' rest.
            rewrite (Hnil eq_refl), Hsome, Nat.add_0_r, Hout. reflexivity.
          * inversion Efront; subst p rest. cbn [length].
            rewrite Nat.add_succ_r. apply (Hcons front host' proxyUrl' eq_refl). }
    destruct (fetch (S i) proxyUrl) as [response|error] eqn:Ef.
    + destruct (accept response) eqn:Ea.
      * inversion H; subst trace result. exists 0. split; [lia|].
        split; [rewrite requestsOf_app, Hreq; destruct announce; reflexivity|].
        split; [intros m Hm; lia|]. rewrite Nat.add_0_r. cbn [nth]. auto.
      * apply (Hnext _ (Responds response) eq_refl Ea H). reflexivity.
    + apply (Hnext _ (Rejects error) eq_refl I H). reflexivity.
Qed.

(** [fetchWithProxies], lines 775-872: the target is asked first, then the
    five proxies in their fixed order, each at most once, and the call stops
    at the first response with a 2xx status, which it returns.  Every
    request before that one was rejected or answered with another status.
    The call throws only after all six requests have failed, and the
    message then always ends with the [Last Error] of the last proxy,
    [cors-proxy.fringe.zone]: its status and the first hundred characters
    of its answer, its timeout, or the message of the error its request
    was rejected with.  The failure of the direct request and those of the
    four proxies before are never the one reported. *)
Theorem fetchWithProxies_asks_in_order :
  forall (fetch : nat -> str -> FetchOutcome) (encodeURIComponent : str -> str) (url : str),
    let all := url :: map snd (proxiesOf encodeURIComponent url) in
    exists n,
      n < 6
      /\ requestsOf (fst (fetchWithProxies fetch encodeURIComponent url)) = firstn (S n) all
      /\ (forall m, m < n -> refused resp_ok (fetch m (nth m all [])))
      /\ match snd (fetchWithProxies fetch encodeURIComponent url) with
         | inl response =>
             fetch n (nth n all []) = Responds response /\ resp_ok response = true
         | inr error =>
             n = 5
             /\ refused resp_ok (fetch 5 (nth 5 all []))
             /\ error
                = newError
                    (baseErrorMessage ++ newline ++ lit "Last Error: "
                       ++ match fetch 5 (lit "https://cors-proxy.fringe.zone/" ++ url) with
                          | Responds response =>
                              lit "Proxy request failed with status "
                                ++ string_of_Z (resp_status response)
                                ++ lit " for cors-proxy.fringe.zone. Response: "
                                ++ substring 0 100
                                     (match resp_text response with
                                      | Some responseText => responseText
                                      | None => lit "(could not read response body)"
                                      end)
                          | Rejects rejection =>
                              if str_eqb (error_name rejection) (lit "AbortError")
                              then lit "Request timed out for proxy: cors-proxy.fringe.zone"
                              else error_message rejection
                          end)
         end.
Proof.
  intros fetch encodeURIComponent url all.
  assert (forall before lastError,
            requestsOf before = [url] ->
            refused resp_ok (fetch 0 url) ->
            exists n,
              n < 6
              /\ requestsOf
                   (fst (let '(trace, result) :=
                           proxyLoop fetch resp_ok true 0 (proxiesOf encodeURIComponent url)
                             lastError in
                         (before ++ trace,
                          match result with
                          | inl response => inl response
                          | inr (Some error) =>
                              inr (newError (baseErrorMessage ++ newline ++ lit "Last Error: "
                                               ++ error_message error))
                          | inr None => inr (newError baseErrorMessage)
                          end)))
                 = firstn (S n) all
              /\ (forall m, m < n -> refused resp_ok (fetch m (nth m all [])))
              /\ match snd (let '(trace, result) :=
                              proxyLoop fetch resp_ok true 0 (proxiesOf encodeURIComponent url)
                                lastError in
                            (before ++ trace,
                             match result with
                             | inl response => inl response
                             | inr (Some error) =>
                                 inr (newError (baseErrorMessage ++ newline
                                                  ++ lit "Last Error: " ++ error_message error))
                             | inr None => inr (newError baseErrorMessage)
                             end)) with
                 | inl response =>
                     fetch n (nth n all []) = Responds response /\ resp_ok response = true
                 | inr error =>
                     n = 5
                     /\ refused resp_ok (fetch 5 (nth 5 all []))
                     /\ error
                        = newError
                            (baseErrorMessage ++ newline ++ lit "Last Error: "
                               ++ error_message
                                    (proxyError (lit "cors-proxy.fringe.zone")
                                       (fetch 5 (lit "https://cors-proxy.fringe.zone/" ++ url))))
                 end) as Hproxies.
  { intros before lastError Hbefore Hdirect.
    destruct (proxyLoop fetch resp_ok true 0 (proxiesOf encodeURIComponent url) lastError)
      as [trace result] eqn:E.
    apply proxyLoop_spec in E. cbn [fst snd].
    destruct result as [response|lastError'].
    - destruct E as (n & Hn & Hreqs & Hrefused & Hfetch & Hok).
      exists (S n). split; [cbn in Hn; lia|].
      split; [rewrite requestsOf_app, Hbefore, Hreqs; reflexivity|].
      split; [|split; [exact Hfetch | exact Hok]].
      intros [|m] Hm; [exact Hdirect|]. apply (Hrefused m). lia.
    - destruct E as (Hreqs & Hrefused & _ & Hsome).
      exists 5. split; [lia|].
      split; [rewrite requestsOf_app, Hbefore, Hreqs; reflexivity|].
      split.
      + intros [|m] Hm; [exact Hdirect|]. apply (Hrefused m). cbn. lia.
      + rewrite (Hsome (firstn 4 (proxiesOf encodeURIComponent url))
                   (lit "cors-proxy.fringe.zone") (lit "https://cors-proxy.fringe.zone/" ++ url)
                   eq_refl).
        split; [reflexivity|]. split; [apply (Hrefused 4); cbn; lia|]. reflexivity. }
  assert (forall outcome,
            error_message (proxyError (lit "cors-proxy.fringe.zone") outcome)
            = match outcome with
              | Responds response =>
                  lit "Proxy request failed with status "
                    ++ string_of_Z (resp_status response)
                    ++ lit " for cors-proxy.fringe.zone. Response: "
                    ++ substring 0 100
                         (match resp_text response with
                          | Some responseText => responseText
                          | None => lit "(could not read response body)"
                          end)
              | Rejects rejection =>
                  if str_eqb (error_name rejection) (lit "AbortError")
                  then lit "Request timed out for proxy: cors-proxy.fringe.zone"
                  else error_message rejection
              end) as Hdetail.
  { intros [response|rejection]; cbn [proxyError].
    - unfold proxyFailure, newError. cbn [error_message].
      do 2 (apply f_equal). reflexivity.
    - unfold isAbort. destruct (str_eqb (error_name rejection) (lit "AbortError")); reflexivity. }
  rewrite <- Hdetail.
  unfold fetchWithProxies.
  destruct (fetch 0 url) as [directResponse|error] eqn:Ef.
  - destruct (resp_ok directResponse) eqn:Eok.
    + exists 0. cbn [fst snd]. split; [lia|]. split; [reflexivity|].
      split; [intros m Hm; lia|]. split; [exact Ef | exact Eok].
    + apply Hproxies; [reflexivity|]. try rewrite Ef. exact Eok.
  - apply Hproxies; [destruct (isAbort error); reflexivity|]. try rewrite Ef. exact I.
Qed.

(** [fetchWordPressWithRetry], lines 907-961: a request without an
    [Authorization] header asks the target and then the two proxies, in
    that order, and stops at the first response that is a success or a
    client error (2xx or 4xx), which it returns; a 5xx answer or a failure
    moves on to the next.  It throws only after all three have failed. *)
Theorem anonymous_request_falls_back_to_proxies :
  forall (fetch : nat -> str -> FetchOutcome) (encodeURIComponent : str -> str)
         (targetUrl : str),
    let all := targetUrl :: map snd (wordPressProxiesOf encodeURIComponent targetUrl) in
    exists n,
      n < 3
      /\ requestsOf (fst (fetchWordPressWithRetry fetch encodeURIComponent targetUrl []))
         = firstn (S n) all
      /\ (forall m, m < n -> refused okOrClientError (fetch m (nth m all [])))
      /\ match snd (fetchWordPressWithRetry fetch encodeURIComponent targetUrl []) with
         | inl response =>
             fetch n (nth n all []) = Responds response /\ okOrClientError response = true
         | inr _ => n = 2 /\ refused okOrClientError (fetch 2 (nth 2 all []))
         end.
Proof.
  intros fetch encodeURIComponent targetUrl all.
  assert (forall lastError,
            refused okOrClientError (fetch 0 targetUrl) ->
            exists n,
              n < 3
              /\ requestsOf
                   (fst (let '(trace, result) :=
                           proxyLoop fetch okOrClientError false 0
                             (wordPressProxiesOf encodeURIComponent targetUrl) lastError in
                         (Request targetUrl :: trace,
                          match result with
                          | inl response => inl response
                          | inr (Some error) => inr error
                          | inr None =>
                              inr (newError
                                     (lit "All attempts to connect to the WordPress API failed."))
                          end)))
                 = firstn (S n) all
              /\ (forall m, m < n -> refused okOrClientError (fetch m (nth m all [])))
              /\ match snd (let '(trace, result) :=
                              proxyLoop fetch okOrClientError false 0
                                (wordPressProxiesOf encodeURIComponent targetUrl) lastError in
                            (Request targetUrl :: trace,
                             match result with
                             | inl response => inl response
                             | inr (Some error) => inr error
                             | inr None =>
                                 inr (newError
                                        (lit "All attempts to connect to the WordPress API failed."))
                             end)) with
                 | inl response =>
                     fetch n (nth n all []) = Responds response
                     /\ okOrClientError response = true
                 | inr _ => n = 2 /\ refused okOrClientError (fetch 2 (nth 2 all []))
                 end) as Hproxies.
  { intros lastError Hdirect.
    destruct (proxyLoop fetch okOrClientError false 0
                (wordPressProxiesOf encodeURIComponent targetUrl) lastError)
      as [trace result] eqn:E.
    apply proxyLoop_spec in E. cbn [fst snd].
    destruct result as [response|lastError'].
    - destruct E as (n & Hn & Hreqs & Hrefused & Hfetch & Hok).
      exists (S n). split; [cbn in Hn; lia|].
      split; [cbn [requestsOf flat_map app]; fold (requestsOf trace); rewrite Hreqs; reflexivity|].
      split; [|split; [exact Hfetch | exact Hok]].
      intros [|m] Hm; [exact Hdirect|]. apply (Hrefused m). lia.
    - destruct E as (Hreqs & Hrefused & _ & _).
      exists 2. split; [lia|].
      split; [cbn [requestsOf flat_map app]; fold (requestsOf trace); rewrite Hreqs; reflexivity|].
      split.
      + intros [|m] Hm; [exact Hdirect|]. apply (Hrefused m). cbn. lia.
      + assert (refused okOrClientError (fetch 2 (nth 2 all []))) as H2
          by (apply (Hrefused 1); cbn; lia).
        destruct lastError'; split; auto. }
  unfold fetchWordPressWithRetry. cbn [truthy str_eqb negb].
  destruct (fetch 0 targetUrl) as [directResponse|error] eqn:Ef.
  - destruct (okOrClientError directResponse) eqn:Eok.
    + exists 0. cbn [fst snd]. split; [lia|]. split; [reflexivity|].
      split; [intros m Hm; lia|]. split; [exact Ef | exact Eok].
    + apply Hproxies. try rewrite Ef. exact Eok.
  - apply Hproxies. try rewrite Ef. exact I.
Qed.

(** [fetchWordPressWithRetry], lines 907-961: when a request without an
    [Authorization] header fails, the error thrown is the one of the last
    proxy, [api.allorigins.win]: its status and the first hundred
    characters of its answer, its timeout, or the error its request was
    rejected with.  The failure of the direct request is never the one
    thrown, and neither is the message of line 960, [All attempts to
    connect to the WordPress API failed.], unless the last proxy's request
    is rejected with that very error. *)
Theorem anonymous_failure_comes_from_the_last_proxy :
  forall (fetch : nat -> str -> FetchOutcome) (encodeURIComponent : str -> str)
         (targetUrl : str) (error : JsError),
    snd (fetchWordPressWithRetry fetch encodeURIComponent targetUrl []) = inr error ->
    error
    = match fetch 2 (lit "https://api.allorigins.win/raw?url=" ++ encodeURIComponent targetUrl)
      with
      | Responds response =>
          newError
            (lit "Proxy request failed with status " ++ string_of_Z (resp_status response)
               ++ lit " for api.allorigins.win. Response: "
               ++ substring 0 100
                    (match resp_text response with
                     | Some responseText => responseText
                     | None => lit "(could not read response body)"
                     end))
      | Rejects rejection =>
          if str_eqb (error_name rejection) (lit "AbortError")
          then newError (lit "Request timed out for proxy: api.allorigins.win")
          else rejection
      end.
Proof.
  intros fetch encodeURIComponent targetUrl error.
  assert (forall outcome,
            proxyError (lit "api.allorigins.win") outcome
            = match outcome with
              | Responds response =>
                  newError
                    (lit "Proxy request failed with status "
                       ++ string_of_Z (resp_status response)
                       ++ lit " for api.allorigins.win. Response: "
                       ++ substring 0 100
                            (match resp_text response with
                             | Some responseText => responseText
                             | None => lit "(could not read response body)"
                             end))
              | Rejects rejection =>
                  if str_eqb (error_name rejection) (lit "AbortError")
                  then newError (lit "Request timed out for proxy: api.allorigins.win")
                  else rejection
              end) as Hdetail.
  { intros [response|rejection]; cbn [proxyError]; [|reflexivity].
    unfold proxyFailure. do 3 (apply f_equal). reflexivity. }
  rewrite <- Hdetail.
  assert (forall lastError,
            snd (let '(trace, result) :=
                   proxyLoop fetch okOrClientError false 0
                     (wordPressProxiesOf encodeURIComponent targetUrl) lastError in
                 (Request targetUrl :: trace,
                  match result with
                  | inl response => inl response
                  | inr (Some error) => inr error
                  | inr None =>
                      inr (newError
                             (lit "All attempts to connect to the WordPress API failed."))
                  end)) = inr error ->
            error
            = proxyError (lit "api.allorigins.win")
                (fetch 2 (lit "https://api.allorigins.win/raw?url="
                            ++ encodeURIComponent targetUrl))) as Hproxies.
  { intros lastError H.
    destruct (proxyLoop fetch okOrClientError false 0
                (wordPressProxiesOf encodeURIComponent targetUrl) lastError)
      as [trace result] eqn:E.
    apply proxyLoop_spec in E. cbn [snd] in H.
    destruct result as [response|lastError']; [discriminate H|].
    destruct E as (_ & _ & _ & Hlast).
    rewrite (Hlast [(lit "corsproxy.io",
                     lit "https://corsproxy.io/?" ++ encodeURIComponent targetUrl)]
               (lit "api.allorigins.win")
               (lit "https://api.allorigins.win/raw?url=" ++ encodeURIComponent targetUrl)
               eq_refl) in H.
    inversion H. reflexivity. }
  unfold fetchWordPressWithRetry. cbn [truthy str_eqb negb].
  destruct (fetch 0 targetUrl) as [directResponse|rejection].
  - destruct (okOrClientError directResponse); [discriminate|]. apply Hproxies.
  - apply Hproxies.
Qed.

Lemma anonymous_failure_comes_from_the_last_proxy_witness :
  let fetch := fun (_ : nat) (_ : str) =>
                 Responds (mkResponse 503 (Some (lit "Service Unavailable"))) in
  let thrown :=
    newError (lit "Proxy request failed with status 503 for api.allorigins.win. Response: Service Unavailable") in
  snd (fetchWordPressWithRetry fetch (fun u => u)
         (lit "https://example.com/wp-json/wp/v2/posts") []) = inr thrown
  /\ thrown
     = newError
         (lit "Proxy request failed with status " ++ string_of_Z 503
            ++ lit " for api.allorigins.win. Response: "
            ++ substring 0 100 (lit "Service Unavailable")).
Proof.
  split; [reflexivity|].
  apply (anonymous_failure_comes_from_the_last_proxy
           (fun _ _ => Responds (mkResponse 503 (Some (lit "Service Unavailable"))))
           (fun u => u) (lit "https://example.com/wp-json/wp/v2/posts")).
  reflexivity.
Defined.

(* ------------------------------------------------------------------ *)
(** ** Slugs *)

Lemma starts_with_char :
  forall c x s, starts_with [c] (x :: s) = Ascii.eqb c x.
Proof. intros c x s. unfold starts_with. cbn [strip_prefix]. destruct (Ascii.eqb c x); reflexivity. Qed.

Lemma last_index_of_char :
  forall c s i found,
    (forallb (fun x => negb (Ascii.eqb x c)) s = true
     /\ last_index_from i [c] s found = found)
    \/ (exists u v,
          s = u ++ c :: v
          /\ forallb (fun x => negb (Ascii.eqb x c)) v = true
          /\ last_index_from i [c] s found = Some (i + length u)).
Proof.
  intros c. induction s as [|x s IH]; intros i found.
  - left. split; reflexivity.
  - cbn [last_index_from]. rewrite starts_with_char.
    destruct (IH (S i) (if Ascii.eqb c x then Some i else found))
      as [[Hs Hl]|(u & v & Hs & Hv & Hl)].
    + destruct (Ascii.eqb c x) eqn:E.
      * apply Ascii.eqb_eq in E. subst x. right. exists [], s.
        cbn [app length]. rewrite Nat.add_0_r.
        split; [reflexivity | split; [exact Hs | exact Hl]].
      * left. cbn [forallb]. rewrite Ascii.eqb_sym, E, Hs. auto.
    + right. exists (x :: u), v. subst s. cbn [app length].
      rewrite Nat.add_succ_r. auto.
Qed.

Lemma last_segment_no_slash :
  forall s,
    forallb noSlash
      (skipn (match lastIndexOf (lit "/") s with Some i => i + 1 | None => 0 end) s) = true.
Proof.
  intro s. unfold lastIndexOf.
  destruct (last_index_of_char "/" s 0 None) as [[Hs Hl]|(u & v & Hs & Hv & Hl)].
  - change (lit "/") with ["/"%char]. rewrite Hl. exact Hs.
  - change (lit "/") with ["/"%char]. rewrite Hl. subst s. cbn [Nat.add].
    replace (length u + 1) with (length (u ++ ["/"%char])) by (rewrite length_app; reflexivity).
    change (u ++ "/"%char :: v) with (u ++ ["/"%char] ++ v). rewrite app_assoc.
    rewrite skipn_app, Nat.sub_diag, skipn_all. exact Hv.
Qed.

Lemma replaceFirst_removes :
  forall ci r s,
    exists pre gone post, s = pre ++ gone ++ post /\ replaceFirst ci r nothing s = pre ++ post.
Proof.
  intros ci r s. unfold replaceFirst.
  destruct (search_from ci r [] s) as [[pre h]|] eqn:E.
  - apply search_from_spec in E. cbn [rev app] in E.
    exists pre, (h_text h), (h_rest h). auto.
  - exists s, [], []. rewrite !app_nil_r. auto.
Qed.

Lemma split_pieces_no_slash :
  forall s cur,
    forallb noSlash cur = true ->
    Forall (fun piece => forallb noSlash piece = true) (split_go (lit "/") cur s 0).
Proof.
  induction s as [|x s IH]; intros cur Hcur.
  - cbn [split_go]. constructor; [|constructor].
    rewrite forallb_forall in *. intros y Hy. apply Hcur. apply in_rev. exact Hy.
  - cbn [split_go]. unfold starts_with. cbn [lit list_ascii_of_string strip_prefix].
    destruct (Ascii.eqb "/" x) eqn:E.
    + constructor.
      * rewrite forallb_forall in *. intros y Hy. apply Hcur. apply in_rev. exact Hy.
      * cbn [length Nat.sub]. apply IH. reflexivity.
    + apply IH. cbn [forallb]. unfold noSlash at 1. rewrite Ascii.eqb_sym, E. exact Hcur.
Qed.

(** [extractSlugFromUrl], lines 660-682: the slug never contains a slash,
    whether the argument parses as a URL or not. *)
Theorem slug_has_no_slash :
  forall (pathnameOf : str -> option str) (urlString : str),
    forallb noSlash (extractSlugFromUrl pathnameOf urlString) = true.
Proof.
  intros pathnameOf urlString. unfold extractSlugFromUrl.
  destruct (pathnameOf urlString) as [url_pathname|].
  - set (pathname := if (endsWith (lit "/") url_pathname && (1 <? length url_pathname))%bool
                     then removelast url_pathname else url_pathname).
    pose proof (last_segment_no_slash pathname) as H.
    destruct (replaceFirst_removes false extensionRe
                (skipn (match lastIndexOf (lit "/") pathname with
                        | Some i => i + 1
                        | None => 0
                        end) pathname)) as (pre & gone & post & Hs & Hr).
    rewrite Hr. rewrite Hs, !forallb_app in H.
    apply andb_true_iff in H. destruct H as [H1 H2].
    apply andb_true_iff in H2. destruct H2 as [_ H2].
    rewrite forallb_app, H1, H2. reflexivity.
  - pose proof (split_pieces_no_slash urlString [] eq_refl) as H.
    unfold split.
    assert (forall l : list str,
              Forall (fun piece => forallb noSlash piece = true) l ->
              forallb noSlash (last l []) = true) as Hlast.
    { induction l as [|p l IHl]; intro Hl; [reflexivity|].
      inversion Hl; subst. destruct l as [|q l]; [assumption|].
      apply IHl. assumption. }
    apply Hlast. exact H.
Qed.

Lemma split_at_last :
  forall (c : ascii) u1 v1 u2 v2,
    u1 ++ c :: v1 = u2 ++ c :: v2 -> ~ In c v1 -> ~ In c v2 -> u1 = u2 /\ v1 = v2.
Proof.
  intros c. induction u1 as [|x u1 IH]; intros v1 u2 v2 H H1 H2.
  - destruct u2 as [|y u2]; cbn [app] in H.
    + inversion H. auto.
    + inversion H; subst. exfalso. apply H1. apply in_or_app. right. left. reflexivity.
  - destruct u2 as [|y u2]; cbn [app] in H.
    + inversion H; subst. exfalso. apply H2. apply in_or_app. right. left. reflexivity.
    + injection H as Hx Hrest. subst y.
      destruct (IH v1 u2 v2 Hrest H1 H2) as [-> ->]. auto.
Qed.

Lemma noSlash_not_in : forall s, forallb noSlash s = true -> ~ In "/"%char s.
Proof.
  intros s H Hin. rewrite forallb_forall in H. specialize (H _ Hin). discriminate H.
Qed.

(** The text behind the last slash of a path. *)
Lemma last_segment_of :
  forall dir segment,
    forallb noSlash segment = true ->
    skipn (match lastIndexOf (lit "/") (dir ++ lit "/" ++ segment) with
           | Some i => i + 1
           | None => 0
           end) (dir ++ lit "/" ++ segment) = segment.
Proof.
  intros dir segment Hseg. unfold lastIndexOf.
  change (lit "/") with ["/"%char]. cbn [app].
  destruct (last_index_of_char "/" (dir ++ "/"%char :: segment) 0 None)
    as [[Hs _]|(u & v & Hs & Hv & Hl)].
  - rewrite forallb_app in Hs. cbn in Hs. rewrite andb_false_r in Hs. discriminate Hs.
  - rewrite Hl. cbn [Nat.add].
    assert (forallb noSlash v = true) as Hv' by exact Hv.
    destruct (split_at_last "/" dir segment u v Hs (noSlash_not_in _ Hseg) (noSlash_not_in _ Hv'))
      as [-> ->].
    replace (length u + 1) with (length (u ++ ["/"%char])) by (rewrite length_app; reflexivity).
    change (u ++ "/"%char :: v) with (u ++ ["/"%char] ++ v). rewrite app_assoc.
    rewrite skipn_app, Nat.sub_diag, skipn_all. reflexivity.
Qed.

Lemma search_from_unmatched :
  forall ci r w b rest,
    (forall x b a, In x w -> exec ci r b (x :: a) = None) ->
    search_from ci r b (w ++ rest) = search_from ci r (rev w ++ b) rest.
Proof.
  intros ci r. induction w as [|x w IH]; intros b rest H; [reflexivity|].
  cbn [app]. rewrite search_from_next by (apply H; left; reflexivity).
  rewrite IH by (intros; apply H; right; assumption).
  cbn [rev]. rewrite <- app_assoc. reflexivity.
Qed.

Lemma extension_needs_dot :
  forall x b a, Ascii.eqb x "." = false -> exec false extensionRe b (x :: a) = None.
Proof.
  intros x b a H. unfold extensionRe, seqs. cbn [fold_right].
  apply exec_lit_mismatch. cbn [lit list_ascii_of_string strip_prefix].
  rewrite Ascii.eqb_sym, H. reflexivity.
Qed.

Lemma name_has_no_extension :
  forall name, forallb noSlashNoDot name = true ->
    replaceFirst false extensionRe nothing name = name.
Proof.
  intros name H. unfold replaceFirst.
  rewrite <- (app_nil_r name) at 1.
  rewrite search_from_unmatched.
  - cbn [search_from]. unfold extensionRe, seqs. cbn [fold_right].
    rewrite exec_lit_mismatch by reflexivity. reflexivity.
  - intros x b a Hin. apply extension_needs_dot.
    rewrite forallb_forall in H. specialize (H x Hin). unfold noSlashNoDot in H.
    apply negb_true_iff, orb_false_iff in H. tauto.
Qed.

Lemma extension_matches :
  forall ext b,
    forallb is_alnum ext = true ->
    2 <= length ext <= 5 ->
    exec false extensionRe b ("."%char :: ext) = Some (mkHit ("."%char :: ext) [] []).
Proof.
  intros ext b Hext Hlen.
  destruct ext as [|c1 [|c2 [|c3 [|c4 [|c5 [|c6 ext]]]]]]; cbn [length] in Hlen; try lia.
  all: cbn [forallb] in Hext; repeat rewrite andb_true_iff in Hext;
    repeat match goal with H : _ /\ _ |- _ => destruct H end.
  all: unfold exec, extensionRe, seqs;
    cbn [fold_right run lits rep chr_eq lit list_ascii_of_string];
    rewrite Ascii.eqb_refl;
    repeat match goal with H : is_alnum _ = true |- _ => rewrite H; clear H end;
    cbn [run]; reflexivity.
Qed.

Lemma extension_is_removed :
  forall name ext,
    forallb noSlashNoDot name = true ->
    forallb is_alnum ext = true ->
    2 <= length ext <= 5 ->
    replaceFirst false extensionRe nothing (name ++ "."%char :: ext) = name.
Proof.
  intros name ext Hname Hext Hlen. unfold replaceFirst.
  rewrite search_from_unmatched.
  - rewrite (search_from_here _ _ _ _ _ (extension_matches ext _ Hext Hlen)).
    cbn [h_rest nothing app]. rewrite !app_nil_r, rev_involutive. reflexivity.
  - intros x b a Hin. apply extension_needs_dot.
    rewrite forallb_forall in Hname. specialize (Hname x Hin). unfold noSlashNoDot in Hname.
    apply negb_true_iff, orb_false_iff in Hname. tauto.
Qed.

Lemma endsWith_slash :
  forall s c, endsWith (lit "/") (s ++ [c]) = Ascii.eqb "/" c.
Proof.
  intros s c. unfold endsWith. rewrite rev_app_distr. cbn [rev app lit list_ascii_of_string].
  apply starts_with_char.
Qed.

Lemma endsWith_segment :
  forall dir segment,
    segment <> [] ->
    forallb noSlash segment = true ->
    endsWith (lit "/") (dir ++ lit "/" ++ segment) = false.
Proof.
  intros dir segment Hne Hseg.
  destruct (exists_last Hne) as (s' & y & ->).
  rewrite !app_assoc, endsWith_slash.
  rewrite forallb_app in Hseg. cbn [forallb] in Hseg.
  apply andb_true_iff in Hseg. destruct Hseg as [_ Hy]. rewrite andb_true_r in Hy.
  unfold noSlash in Hy. apply negb_true_iff in Hy. rewrite Ascii.eqb_sym. exact Hy.
Qed.

Lemma alnum_is_plain : forall c, is_alnum c = true -> noSlashNoDot c = true.
Proof.
  intros c H. unfold noSlashNoDot.
  destruct (Ascii.eqb c "/") eqn:E1; [apply Ascii.eqb_eq in E1; subst c; discriminate H|].
  destruct (Ascii.eqb c ".") eqn:E2; [apply Ascii.eqb_eq in E2; subst c; discriminate H|].
  reflexivity.
Qed.

Lemma plain_is_noSlash : forall s, forallb noSlashNoDot s = true -> forallb noSlash s = true.
Proof.
  intros s H. rewrite forallb_forall in *. intros x Hx. specialize (H x Hx).
  unfold noSlashNoDot in H. unfold noSlash.
  apply negb_true_iff, orb_false_iff in H. destruct H as [H _]. rewrite H. reflexivity.
Qed.

(** [extractSlugFromUrl], lines 660-682: for a URL whose path ends with a
    segment [name], the slug is [name], whether the path stops there, goes
    on with one trailing slash, or goes on with a file extension of two to
    five letters or digits. *)
Theorem slug_of_a_page_path :
  forall (pathnameOf : str -> option str) (urlString dir name ending : str),
    name <> [] ->
    forallb noSlashNoDot name = true ->
    (ending = [] \/ ending = lit "/"
     \/ exists ext, ending = "."%char :: ext
                    /\ forallb is_alnum ext = true /\ 2 <= length ext <= 5) ->
    pathnameOf urlString = Some (dir ++ lit "/" ++ name ++ ending) ->
    extractSlugFromUrl pathnameOf urlString = name.
Proof.
  intros pathnameOf urlString dir name ending Hne Hname Hending Hpath.
  unfold extractSlugFromUrl. rewrite Hpath.
  destruct Hending as [->|[->|(ext & -> & Hext & Hlen)]].
  - rewrite app_nil_r.
    rewrite (endsWith_segment dir name Hne (plain_is_noSlash _ Hname)). cbn [andb].
    rewrite (last_segment_of dir name (plain_is_noSlash _ Hname)).
    apply name_has_no_extension. exact Hname.
  - assert (dir ++ lit "/" ++ name ++ lit "/" = (dir ++ lit "/" ++ name) ++ ["/"%char]) as Hsplit
      by (rewrite <- !app_assoc; reflexivity).
    rewrite Hsplit, endsWith_slash. cbn [andb Ascii.eqb Bool.eqb].
    assert ((1 <? length ((dir ++ lit "/" ++ name) ++ ["/"%char])) = true) as Hl.
    { apply Nat.ltb_lt. rewrite !length_app. cbn [length lit list_ascii_of_string]. lia. }
    rewrite Hl, removelast_last.
    rewrite (last_segment_of dir name (plain_is_noSlash _ Hname)).
    apply name_has_no_extension. exact Hname.
  - assert (forallb noSlash (name ++ "."%char :: ext) = true) as Hseg.
    { rewrite forallb_app. cbn [forallb]. rewrite (plain_is_noSlash _ Hname).
      rewrite (plain_is_noSlash ext); [reflexivity|].
      rewrite forallb_forall in *. intros x Hx. apply alnum_is_plain. apply Hext. exact Hx. }
    assert (name ++ "."%char :: ext <> []) as Hne' by (destruct name; discriminate).
    rewrite (endsWith_segment dir _ Hne' Hseg). cbn [andb].
    rewrite (last_segment_of dir (name ++ "."%char :: ext) Hseg).
    apply extension_is_removed; assumption.
Qed.

Lemma slug_of_a_page_path_witness :
  extractSlugFromUrl (fun _ => Some (lit "/blog/my-post.html"))
    (lit "https://example.com/blog/my-post.html?x=1")
  = lit "my-post".
Proof.
  apply (slug_of_a_page_path (fun _ => Some (lit "/blog/my-post.html"))
           (lit "https://example.com/blog/my-post.html?x=1")
           (lit "/blog") (lit "my-post") (lit ".html")).
  - discriminate.
  - reflexivity.
  - right. right. exists (lit "html"). split; [reflexivity|]. split; [reflexivity|].
    cbn. lia.
  - reflexivity.
Defined.

(* ------------------------------------------------------------------ *)
(** ** Repaired placeholders point into the catalogue *)





(* ------------------------------------------------------------------ *)
(** ** The characters of a generated slug *)

Lemma star_succeeds :
  forall (R : Type) p a m (k : str -> str -> option R),
    (forall m' a', k m' a' <> None) -> star p m a k <> None.
Proof.
  intros R p. induction a as [|x a IH]; intros m k Hk; cbn [star]; [apply Hk|].
  destruct (p x); [|apply Hk].
  destruct (star p (x :: m) a k) eqn:E; [discriminate | apply Hk].
Qed.

(** In a global scan for a run of a class, a character outside every match
    is not of the class. *)
Lemma plus_plain_chars :
  forall p a b skip x,
    In (Plain x) (chunks false (Plus p) b a skip) -> p x = false.
Proof.
  intros p. induction a as [|y a IH]; intros b skip x Hin.
  - destruct skip as [|n]; [|contradiction]. cbn [chunks] in Hin.
    destruct (exec false (Plus p) b []); [destruct Hin as [Hin|[]]; discriminate Hin | contradiction].
  - destruct skip as [|n]; [|exact (IH _ _ _ Hin)].
    cbn [chunks] in Hin.
    destruct (exec false (Plus p) b (y :: a)) as [h|] eqn:E.
    + assert (h_text h <> []) as Hne.
      { unfold exec in E. cbn [run] in E. destruct (p y); [|discriminate E].
        apply star_spec in E. destruct E as (u & a' & _ & _ & E).
        inversion E; subst h. cbn [h_text]. rewrite rev_app_distr. discriminate. }
      destruct (h_text h) as [|c t] eqn:Et; [contradiction|]. cbn [length] in Hin.
      destruct Hin as [Hin|Hin]; [discriminate Hin | exact (IH _ _ _ Hin)].
    + destruct Hin as [Hin|Hin]; [|exact (IH _ _ _ Hin)].
      inversion Hin; subst y.
      unfold exec in E. cbn [run] in E. destruct (p x) eqn:Ep; [|reflexivity].
      exfalso. revert E. apply star_succeeds. discriminate.
Qed.

Lemma replaceAll_chars :
  forall ci r (f : hit -> str) (P : ascii -> Prop) s,
    (forall x, In (Plain x) (scan ci r s) -> P x) ->
    (forall h, Forall P (f h)) ->
    Forall P (replaceAll ci r f s).
Proof.
  intros ci r f P s Hplain Hhit. unfold replaceAll, scan.
  assert (forall l, (forall x, In (Plain x) l -> P x) -> Forall P (concat (map (emit f) l))) as H.
  { induction l as [|[x|h] l IH]; intro Hl; [constructor| |].
    - cbn [map concat emit app]. constructor; [apply Hl; left; reflexivity|].
      apply IH. intros y Hy. apply Hl. right. exact Hy.
    - cbn [map concat emit]. apply Forall_app. split; [apply Hhit|].
      apply IH. intros y Hy. apply Hl. right. exact Hy. }
  apply H. exact Hplain.
Qed.

Lemma chunks_plain_in :
  forall ci r a b skip x, In (Plain x) (chunks ci r b a skip) -> In x a.
Proof.
  intros ci r. induction a as [|y a IH]; intros b skip x Hin.
  - destruct skip as [|n]; [|contradiction]. cbn [chunks] in Hin.
    destruct (exec ci r b []); [destruct Hin as [Hin|[]]; discriminate Hin | contradiction].
  - destruct skip as [|n]; [|right; exact (IH _ _ _ Hin)].
    cbn [chunks] in Hin. destruct (exec ci r b (y :: a)) as [h|].
    + destruct (length (h_text h)).
      * destruct Hin as [Hin|[Hin|Hin]]; [discriminate Hin | | right; exact (IH _ _ _ Hin)].
        inversion Hin. left. reflexivity.
      * destruct Hin as [Hin|Hin]; [discriminate Hin | right; exact (IH _ _ _ Hin)].
    + destruct Hin as [Hin|Hin]; [inversion Hin; left; reflexivity | right; exact (IH _ _ _ Hin)].
Qed.

Lemma lower_char_not_upper : forall c, in_range 65 90 (lower_char c) = false.
Proof. intros [[] [] [] [] [] [] [] []]; reflexivity. Qed.

Lemma word_or_dash_lower :
  forall c, in_range 65 90 c = false -> (is_word c || Ascii.eqb c "-")%bool = true ->
            slugChar c = true.
Proof. intros [[] [] [] [] [] [] [] []]; intros H1 H2; try reflexivity; discriminate. Qed.

(** [normalizeGeneratedContent], lines 1412-1414: a slug that the
    normaliser derives from the item title consists of lower-case letters,
    digits, underscores and hyphens only. *)
Theorem derived_slug_is_url_safe :
  forall (parsedJson : Content) (itemTitle : str),
    truthyStr (slug parsedJson) = false ->
    exists derived,
      slug (normalizeGeneratedContent parsedJson itemTitle) = Some derived
      /\ forallb slugChar derived = true.
Proof.
  intros parsedJson itemTitle Hslug. exists (slugify itemTitle). split.
  - unfold normalizeGeneratedContent. rewrite Hslug.
    destruct (needsImages (imageDetails parsedJson)); reflexivity.
  - apply forallb_forall. apply Forall_forall. unfold slugify.
    set (dashed := replaceAll false spacesRe (fun _ => lit "-") (toLowerCase itemTitle)).
    assert (Forall (fun c => in_range 65 90 c = false) dashed) as Hlower.
    { subst dashed. apply replaceAll_chars.
      - intros x Hin. apply chunks_plain_in in Hin. unfold toLowerCase in Hin.
        apply in_map_iff in Hin. destruct Hin as (c & <- & _). apply lower_char_not_upper.
      - intro h. repeat constructor. }
    apply replaceAll_chars.
    + intros x Hin.
      pose proof (plus_plain_chars _ _ _ _ _ Hin) as Hx. cbn beta in Hx.
      apply negb_false_iff in Hx.
      apply word_or_dash_lower; [|exact Hx].
      apply chunks_plain_in in Hin. rewrite Forall_forall in Hlower. apply Hlower. exact Hin.
    + intro h. constructor.
Qed.

Lemma derived_slug_is_url_safe_witness :
  exists derived,
    slug (normalizeGeneratedContent emptyObject (lit "My Topic: 10 Tips!")) = Some derived
    /\ forallb slugChar derived = true.
Proof.
  apply (derived_slug_is_url_safe emptyObject (lit "My Topic: 10 Tips!")).
  reflexivity.
Defined.

(* ------------------------------------------------------------------ *)
(** ** The JSON extractor recovers damaged text

    The scan of lines 545-571 counts the brackets of one kind outside
    strings.  Over the text of a JSON value it comes back to the state it
    started in, so it finds the closer of the structure it follows where
    the grammar has it, and after a structure that lost closers of its kind
    it ends with the number of closers lost. *)

Lemma findEnd_steps :
  forall sc ec p st st' i rest,
    scanSteps sc ec st p = Some st' ->
    findEnd sc ec st i (p ++ rest) = findEnd sc ec st' (i + length p) rest.
Proof.
  intros sc ec. induction p as [|c p IH]; intros st st' i rest H.
  - cbn in H. inversion H; subst. cbn. rewrite Nat.add_0_r. reflexivity.
  - cbn [scanSteps] in H. destruct (scanStep sc ec st c) as [st1|] eqn:E; [|discriminate].
    cbn [app findEnd length]. rewrite Nat.add_succ_r, <- Nat.add_succ_l.
    rewrite <- (IH st1 st' (S i) rest H).
    unfold scanStep in E.
    destruct (escapeNext st); [inversion E; reflexivity|].
    destruct (Ascii.eqb c "\").
    { destruct (inString st); [inversion E; reflexivity | discriminate]. }
    cbv zeta in E |- *.
    destruct (if Ascii.eqb c dq then negb (inString st) else inString st);
      [inversion E; reflexivity|].
    destruct ((if Ascii.eqb c sc then (balance st + 1)%Z
               else if Ascii.eqb c ec then (balance st - 1)%Z else balance st) =? 0)%Z;
      [discriminate | inversion E; reflexivity].
Qed.

Lemma scanSteps_app :
  forall sc ec p q st,
    scanSteps sc ec st (p ++ q)
    = match scanSteps sc ec st p with
      | Some st' => scanSteps sc ec st' q
      | None => None
      end.
Proof.
  intros sc ec. induction p as [|c p IH]; intros q st; [reflexivity|].
  cbn [app scanSteps]. destruct (scanStep sc ec st c); [apply IH | reflexivity].
Qed.

Lemma Scans_nil : forall sc ec, Scans sc ec [].
Proof. intros sc ec st _. reflexivity. Qed.

Lemma Scans_app :
  forall sc ec p q, Scans sc ec p -> Scans sc ec q -> Scans sc ec (p ++ q).
Proof.
  intros sc ec p q Hp Hq st Hst. rewrite scanSteps_app, (Hp st Hst). apply Hq. exact Hst.
Qed.

Lemma kind_chars :
  forall sc ec, bracketKind sc ec ->
    one_of "{}[]" sc = true /\ one_of "{}[]" ec = true /\ Ascii.eqb ec sc = false
    /\ Ascii.eqb ec "\" = false /\ Ascii.eqb ec dq = false.
Proof. intros sc ec [[-> ->]|[-> ->]]; repeat split; reflexivity. Qed.

Lemma neutral_step :
  forall sc ec c st,
    Ascii.eqb c "\" = false -> Ascii.eqb c dq = false ->
    Ascii.eqb c sc = false -> Ascii.eqb c ec = false ->
    calm st -> scanStep sc ec st c = Some st.
Proof.
  intros sc ec c [b s e] H1 H2 E1 E2 (Hs & He & Hb). cbn in Hs, He, Hb. subst s e.
  unfold scanStep. cbn [escapeNext inString balance]. rewrite H1, H2, E1, E2.
  destruct (b =? 0)%Z eqn:E; [|reflexivity].
  apply Z.eqb_eq in E. lia.
Qed.

Lemma plain_step :
  forall sc ec c st,
    bracketKind sc ec -> plainChar c = true -> calm st -> scanStep sc ec st c = Some st.
Proof.
  intros sc ec c st Hk Hc Hst.
  unfold plainChar in Hc. apply negb_true_iff in Hc.
  apply orb_false_iff in Hc. destruct Hc as [Hc H3].
  apply orb_false_iff in Hc. destruct Hc as [H1 H2].
  assert (forall x, one_of "{}[]" x = true -> Ascii.eqb c x = false) as Hx.
  { intros x Hx. destruct (Ascii.eqb c x) eqn:E; [|reflexivity].
    apply Ascii.eqb_eq in E. subst x. rewrite H3 in Hx. discriminate Hx. }
  apply neutral_step; try assumption;
    destruct Hk as [[-> ->]|[-> ->]]; apply Hx; reflexivity.
Qed.

Lemma Scans_plain :
  forall sc ec p, bracketKind sc ec -> forallb plainChar p = true -> Scans sc ec p.
Proof.
  intros sc ec p Hk. induction p as [|c p IH]; intros Hp st Hst; [reflexivity|].
  cbn [forallb] in Hp. apply andb_true_iff in Hp. destruct Hp as [Hc Hp].
  cbn [scanSteps]. rewrite (plain_step sc ec c st Hk Hc Hst). apply IH; assumption.
Qed.

(** A bracket pair of either kind around a text the scan goes over. *)
Lemma Scans_braces :
  forall sc ec p, bracketKind sc ec -> Scans sc ec p -> Scans sc ec ("{"%char :: p ++ ["}"%char]).
Proof.
  intros sc ec p Hk Hp [b s e] (Hs & He & Hb). cbn in Hs, He, Hb. subst s e.
  cbn [scanSteps]. destruct Hk as [[-> ->]|[-> ->]].
  - unfold scanStep at 1. cbn [escapeNext inString balance Ascii.eqb Bool.eqb].
    cbn -[Z.add Z.eqb scanSteps].
    destruct (b + 1 =? 0)%Z eqn:E; [apply Z.eqb_eq in E; lia|].
    rewrite scanSteps_app, (Hp (mkScan (b + 1) false false))
      by (repeat split; cbn; try reflexivity; lia).
    cbn [scanSteps]. unfold scanStep. cbn -[Z.add Z.sub Z.eqb].
    destruct (b + 1 - 1 =? 0)%Z eqn:E'; [apply Z.eqb_eq in E'; lia|].
    replace (b + 1 - 1)%Z with b by lia. reflexivity.
  - rewrite (neutral_step "["%char "]"%char "{"%char (mkScan b false false));
      [| reflexivity .. | repeat split; cbn; try reflexivity; lia].
    rewrite scanSteps_app, (Hp (mkScan b false false))
      by (repeat split; cbn; try reflexivity; lia).
    cbn [scanSteps].
    rewrite (neutral_step "["%char "]"%char "}"%char (mkScan b false false));
      [reflexivity | reflexivity .. | repeat split; cbn; try reflexivity; lia].
Qed.

Lemma Scans_squares :
  forall sc ec p, bracketKind sc ec -> Scans sc ec p -> Scans sc ec ("["%char :: p ++ ["]"%char]).
Proof.
  intros sc ec p Hk Hp [b s e] (Hs & He & Hb). cbn in Hs, He, Hb. subst s e.
  cbn [scanSteps]. destruct Hk as [[-> ->]|[-> ->]].
  - rewrite (neutral_step "{"%char "}"%char "["%char (mkScan b false false));
      [| reflexivity .. | repeat split; cbn; try reflexivity; lia].
    rewrite scanSteps_app, (Hp (mkScan b false false))
      by (repeat split; cbn; try reflexivity; lia).
    cbn [scanSteps].
    rewrite (neutral_step "{"%char "}"%char "]"%char (mkScan b false false));
      [reflexivity | reflexivity .. | repeat split; cbn; try reflexivity; lia].
  - unfold scanStep at 1. cbn [escapeNext inString balance Ascii.eqb Bool.eqb].
    cbn -[Z.add Z.eqb scanSteps].
    destruct (b + 1 =? 0)%Z eqn:E; [apply Z.eqb_eq in E; lia|].
    rewrite scanSteps_app, (Hp (mkScan (b + 1) false false))
      by (repeat split; cbn; try reflexivity; lia).
    cbn [scanSteps]. unfold scanStep. cbn -[Z.add Z.sub Z.eqb].
    destruct (b + 1 - 1 =? 0)%Z eqn:E'; [apply Z.eqb_eq in E'; lia|].
    replace (b + 1 - 1)%Z with b by lia. reflexivity.
Qed.

Lemma instring_step :
  forall sc ec b c,
    Ascii.eqb c "\" = false -> Ascii.eqb c dq = false ->
    scanStep sc ec (mkScan b true false) c = Some (mkScan b true false).
Proof.
  intros sc ec b c H1 H2. unfold scanStep. cbn [escapeNext inString balance].
  rewrite H1, H2. reflexivity.
Qed.

Lemma hex_in_string : forall h, is_hex h = true -> Ascii.eqb h "\" = false /\ Ascii.eqb h dq = false.
Proof.
  intros h H. split; (destruct (Ascii.eqb h _) eqn:E; [|reflexivity]);
    apply Ascii.eqb_eq in E; subst h; discriminate H.
Qed.

(** The scan leaves a string where the recogniser ends it. *)
Lemma string_scans :
  forall sc ec, bracketKind sc ec ->
  forall n s r,
    length s <= n ->
    json_string s = Some r ->
    exists p, s = p ++ r
      /\ forall b, b <> 0%Z ->
           scanSteps sc ec (mkScan b true false) p = Some (mkScan b false false).
Proof.
  intros sc ec Hk. induction n as [|n IH]; intros s r Hn H.
  - destruct s; [discriminate H | cbn in Hn; lia].
  - destruct s as [|c s']; [discriminate H|]. cbn [json_string] in H. cbn [length] in Hn.
    destruct (Ascii.eqb c dq) eqn:Edq.
    + inversion H; subst r. apply Ascii.eqb_eq in Edq. subst c.
      exists [dq]. split; [reflexivity|]. intros b Hb.
      cbn [scanSteps]. unfold scanStep. cbn [escapeNext inString balance].
      change (Ascii.eqb dq "\") with false. rewrite Ascii.eqb_refl. cbn [negb].
      destruct (kind_chars sc ec Hk) as (_ & _ & _ & _ & Hec).
      assert (Ascii.eqb dq sc = false /\ Ascii.eqb dq ec = false) as [E1 E2]
        by (destruct Hk as [[-> ->]|[-> ->]]; split; reflexivity).
      rewrite E1, E2. destruct (b =? 0)%Z eqn:E; [apply Z.eqb_eq in E; contradiction|].
      reflexivity.
    + destruct (Ascii.eqb c "\") eqn:Ebs.
      * destruct s' as [|e s2]; [discriminate H|]. cbn [length] in Hn.
        assert (forall t, length t <= n -> json_string t = Some r ->
                  forall skipped, s2 = skipped ++ t ->
                    (forall b, scanSteps sc ec (mkScan b true false) skipped
                               = Some (mkScan b true false)) ->
                    exists p, c :: e :: s2 = p ++ r
                      /\ forall b, b <> 0%Z ->
                           scanSteps sc ec (mkScan b true false) p
                           = Some (mkScan b false false)) as Hgo.
        { intros t Ht Hjs skipped -> Hskipped.
          destruct (IH t r Ht Hjs) as (p & -> & Hp).
          exists (c :: e :: skipped ++ p). split; [cbn; rewrite <- app_assoc; reflexivity|].
          intros b Hb. cbn [scanSteps]. unfold scanStep at 1.
          cbn [escapeNext inString balance]. rewrite Ebs.
          unfold scanStep at 1. cbn [escapeNext inString balance].
          rewrite scanSteps_app, Hskipped. apply Hp. exact Hb. }
        destruct (Ascii.eqb e dq || one_of "\/bfnrt" e)%bool.
        -- apply (Hgo s2 ltac:(lia) H []); reflexivity.
        -- destruct (Ascii.eqb e "u"); [|discriminate H].
           destruct s2 as [|h1 [|h2 [|h3 [|h4 s6]]]]; try discriminate H.
           destruct (is_hex h1 && is_hex h2 && is_hex h3 && is_hex h4)%bool eqn:Eh;
             [|discriminate H].
           apply andb_true_iff in Eh. destruct Eh as [Eh H4].
           apply andb_true_iff in Eh. destruct Eh as [Eh H3].
           apply andb_true_iff in Eh. destruct Eh as [H1 H2].
           cbn [length] in Hn.
           apply (Hgo s6 ltac:(lia) H [h1; h2; h3; h4]); [reflexivity|].
           intro b. cbn [scanSteps].
           apply hex_in_string in H1, H2, H3, H4.
           destruct H1 as [A1 B1], H2 as [A2 B2], H3 as [A3 B3], H4 as [A4 B4].
           rewrite !instring_step by assumption. reflexivity.
      * destruct (N.ltb (code c) 32); [discriminate H|].
        destruct (IH s' r ltac:(lia) H) as (p & -> & Hp).
        exists (c :: p). split; [reflexivity|]. intros b Hb.
        cbn [scanSteps]. rewrite instring_step by assumption. apply Hp. exact Hb.
Qed.

Lemma Scans_string :
  forall sc ec s r,
    bracketKind sc ec -> json_string s = Some r ->
    exists p, s = p ++ r /\ Scans sc ec (dq :: p).
Proof.
  intros sc ec s r Hk H.
  destruct (string_scans sc ec Hk (length s) s r (le_n _) H) as (p & -> & Hp).
  exists p. split; [reflexivity|].
  intros [b i e] (Hi & He & Hb). cbn in Hi, He, Hb. subst i e.
  cbn [scanSteps]. unfold scanStep. cbn [escapeNext inString balance].
  change (Ascii.eqb dq "\") with false. rewrite Ascii.eqb_refl. cbn [negb].
  apply Hp. lia.
Qed.

Lemma drop_while_prefix :
  forall p s, exists w, s = w ++ drop_while p s /\ forallb p w = true.
Proof.
  intros p. induction s as [|x s IH]; [exists []; split; reflexivity|].
  cbn [drop_while]. destruct (p x) eqn:E.
  - destruct IH as (w & Hw & Hp). exists (x :: w). cbn [app forallb].
    rewrite E, Hp. split; [f_equal; exact Hw | reflexivity].
  - exists []. split; reflexivity.
Qed.

Lemma ws_is_plain : forall c, is_json_ws c = true -> plainChar c = true.
Proof. intros [[] [] [] [] [] [] [] []]; cbn; intro H; try reflexivity; discriminate H. Qed.

Lemma numberChar_is_plain : forall c, numberChar c = true -> plainChar c = true.
Proof. intros [[] [] [] [] [] [] [] []]; cbn; intro H; try reflexivity; discriminate H. Qed.

Lemma forallb_impl :
  forall (p q : ascii -> bool) l,
    (forall c, p c = true -> q c = true) -> forallb p l = true -> forallb q l = true.
Proof.
  intros p q l H Hl. rewrite forallb_forall in *. intros x Hx. apply H, Hl, Hx.
Qed.

Lemma Scans_ws :
  forall sc ec s, bracketKind sc ec ->
    exists w, s = w ++ skip_ws s /\ Scans sc ec w.
Proof.
  intros sc ec s Hk. destruct (drop_while_prefix is_json_ws s) as (w & Hw & Hp).
  exists w. split; [exact Hw|]. apply Scans_plain; [exact Hk|].
  apply (forallb_impl is_json_ws); [exact ws_is_plain | exact Hp].
Qed.

Lemma digits1_chars :
  forall s r, digits1 s = Some r -> exists p, s = p ++ r /\ forallb numberChar p = true.
Proof.
  intros [|c s] r H; [discriminate H|]. cbn [digits1] in H.
  destruct (is_digit c) eqn:E; [|discriminate H]. inversion H; subst r.
  destruct (drop_while_prefix is_digit s) as (w & Hw & Hp).
  exists (c :: w). cbn [app forallb]. split; [f_equal; exact Hw|].
  unfold numberChar at 1. rewrite E. cbn [orb andb].
  apply (forallb_impl is_digit); [|exact Hp].
  intros x Hx. unfold numberChar. rewrite Hx. reflexivity.
Qed.

Lemma json_exponent_chars :
  forall s r, json_exponent s = Some r -> exists p, s = p ++ r /\ forallb numberChar p = true.
Proof.
  intros [|c s] r H; cbn [json_exponent] in H.
  - inversion H. exists []. split; reflexivity.
  - destruct (one_of "eE" c) eqn:E.
    + assert (numberChar c = true) as Hc.
      { revert E. clear. destruct c as [[] [] [] [] [] [] [] []]; cbn; intro H;
          try reflexivity; discriminate H. }
      destruct s as [|d s2]; [discriminate H|].
      destruct (one_of "+-" d) eqn:Ed.
      * assert (numberChar d = true) as Hd.
        { revert Ed. clear. destruct d as [[] [] [] [] [] [] [] []]; cbn; intro H;
            try reflexivity; discriminate H. }
        destruct (digits1_chars _ _ H) as (p & -> & Hp).
        exists (c :: d :: p). cbn [app forallb]. rewrite Hc, Hd, Hp. split; reflexivity.
      * destruct (digits1_chars _ _ H) as (p & Hs & Hp).
        exists (c :: p). cbn [app forallb]. rewrite Hc, Hp, <- Hs. split; reflexivity.
    + inversion H. exists []. split; reflexivity.
Qed.

Lemma json_fraction_chars :
  forall s r, json_fraction s = Some r -> exists p, s = p ++ r /\ forallb numberChar p = true.
Proof.
  intros [|c s] r H; cbn [json_fraction] in H.
  - inversion H. exists []. split; reflexivity.
  - destruct (Ascii.eqb c ".") eqn:E.
    + apply Ascii.eqb_eq in E. subst c.
      destruct (digits1 s) as [r1|] eqn:E1; [|discriminate H]. cbn [bindOpt] in H.
      destruct (digits1_chars _ _ E1) as (p1 & -> & Hp1).
      destruct (json_exponent_chars _ _ H) as (p2 & -> & Hp2).
      exists ("."%char :: p1 ++ p2). cbn [app forallb]. rewrite <- app_assoc.
      split; [reflexivity|]. rewrite forallb_app, Hp1, Hp2. reflexivity.
    + apply json_exponent_chars. exact H.
Qed.

Lemma json_number_chars :
  forall s r, json_number s = Some r -> exists p, s = p ++ r /\ forallb numberChar p = true.
Proof.
  intros s r H. unfold json_number in H.
  assert (forall u, match u with
                    | c :: u' =>
                        if Ascii.eqb c "0" then json_fraction u'
                        else if is_digit c then json_fraction (drop_while is_digit u')
                        else None
                    | [] => None
                    end = Some r ->
                    exists p, u = p ++ r /\ forallb numberChar p = true) as Hu.
  { intros [|c u'] Hc; [discriminate Hc|].
    destruct (Ascii.eqb c "0") eqn:E0.
    - apply Ascii.eqb_eq in E0. subst c.
      destruct (json_fraction_chars _ _ Hc) as (p & -> & Hp).
      exists ("0"%char :: p). cbn [app forallb]. rewrite Hp. split; reflexivity.
    - destruct (is_digit c) eqn:Ed; [|discriminate Hc].
      destruct (json_fraction_chars _ _ Hc) as (p & Hs & Hp).
      destruct (drop_while_prefix is_digit u') as (w & Hw & Hpw).
      exists (c :: w ++ p). cbn [app forallb]. rewrite <- app_assoc, <- Hs, <- Hw.
      split; [reflexivity|]. unfold numberChar at 1. rewrite Ed. cbn [orb andb].
      rewrite forallb_app, Hp, andb_true_r.
      apply (forallb_impl is_digit); [|exact Hpw].
      intros x Hx. unfold numberChar. rewrite Hx. reflexivity. }
  destruct s as [|c s']; [discriminate H|].
  destruct (Ascii.eqb c "-") eqn:Em.
  - apply Ascii.eqb_eq in Em. subst c.
    destruct (Hu s' H) as (p & -> & Hp).
    exists ("-"%char :: p). cbn [app forallb]. rewrite Hp. split; reflexivity.
  - apply Hu. exact H.
Qed.

Lemma json_literal_chars :
  forall s r, json_literal s = Some r -> exists p, s = p ++ r /\ forallb plainChar p = true.
Proof.
  intros s r H. unfold json_literal in H.
  destruct (strip_prefix (lit "true") s) as [r1|] eqn:E1.
  - inversion H; subst r1. apply strip_prefix_eq in E1. exists (lit "true"). split; [exact E1 | reflexivity].
  - destruct (strip_prefix (lit "false") s) as [r2|] eqn:E2.
    + inversion H; subst r2. apply strip_prefix_eq in E2. exists (lit "false").
      split; [exact E2 | reflexivity].
    + apply strip_prefix_eq in H. exists (lit "null"). split; [exact H | reflexivity].
Qed.

Ltac flatten_app := repeat (progress (cbn [app]; rewrite <- ?app_assoc)).

Lemma Scans_char :
  forall sc ec c, bracketKind sc ec -> plainChar c = true -> Scans sc ec [c].
Proof. intros sc ec c Hk Hc. apply Scans_plain; [exact Hk|]. cbn. rewrite Hc. reflexivity. Qed.

Lemma skip_ws_split :
  forall sc ec s c r, bracketKind sc ec -> skip_ws s = c :: r ->
    exists w, s = w ++ c :: r /\ Scans sc ec w.
Proof.
  intros sc ec s c r Hk H. destruct (Scans_ws sc ec s Hk) as (w & Hw & Hs).
  exists w. rewrite <- H. split; assumption.
Qed.

Lemma elements_scan :
  forall sc ec value, bracketKind sc ec -> ValueScans sc ec value ->
  forall k s r,
    json_elements value k s = Some r ->
    exists p, s = p ++ "]"%char :: r /\ Scans sc ec p.
Proof.
  intros sc ec value Hk Hv. induction k as [|k IH]; intros s r H; [discriminate H|].
  cbn [json_elements] in H.
  destruct (value s) as [r1|] eqn:E1; [|discriminate H].
  destruct (Hv s r1 E1) as (p1 & -> & Hp1).
  destruct (skip_ws r1) as [|c r'] eqn:E2; [discriminate H|].
  destruct (skip_ws_split sc ec r1 c r' Hk E2) as (w & -> & Hw).
  destruct (Ascii.eqb c ",") eqn:Ec.
  - apply Ascii.eqb_eq in Ec. subst c.
    destruct (IH r' r H) as (p2 & -> & Hp2).
    exists (p1 ++ w ++ ","%char :: p2). split.
    + rewrite <- !app_assoc. reflexivity.
    + apply Scans_app; [exact Hp1|]. apply Scans_app; [exact Hw|].
      apply (Scans_app sc ec [","%char] p2); [|exact Hp2].
      apply Scans_char; [exact Hk | reflexivity].
  - destruct (Ascii.eqb c "]") eqn:Ec'; [|discriminate H].
    apply Ascii.eqb_eq in Ec'. subst c. inversion H; subst r'.
    exists (p1 ++ w). split; [rewrite <- app_assoc; reflexivity|].
    apply Scans_app; assumption.
Qed.

Lemma members_scan :
  forall sc ec value, bracketKind sc ec -> ValueScans sc ec value ->
  forall k s r,
    json_members value k s = Some r ->
    exists p, s = p ++ "}"%char :: r /\ Scans sc ec p.
Proof.
  intros sc ec value Hk Hv. induction k as [|k IH]; intros s r H; [discriminate H|].
  cbn [json_members] in H.
  destruct (skip_ws s) as [|q s1] eqn:E0; [discriminate H|].
  destruct (skip_ws_split sc ec s q s1 Hk E0) as (w0 & -> & Hw0).
  destruct (Ascii.eqb q dq) eqn:Eq; [|discriminate H].
  apply Ascii.eqb_eq in Eq. subst q.
  destruct (json_string s1) as [s2|] eqn:Es; [|discriminate H].
  destruct (Scans_string sc ec s1 s2 Hk Es) as (ps & -> & Hps).
  destruct (skip_ws s2) as [|c s3] eqn:E1; [discriminate H|].
  destruct (skip_ws_split sc ec s2 c s3 Hk E1) as (w1 & -> & Hw1).
  destruct (Ascii.eqb c ":") eqn:Ec; [|discriminate H].
  apply Ascii.eqb_eq in Ec. subst c.
  destruct (value s3) as [r1|] eqn:Ev; [|discriminate H].
  destruct (Hv s3 r1 Ev) as (pv & -> & Hpv).
  destruct (skip_ws r1) as [|d r'] eqn:E2; [discriminate H|].
  destruct (skip_ws_split sc ec r1 d r' Hk E2) as (w2 & -> & Hw2).
  assert (Scans sc ec (w0 ++ (dq :: ps) ++ w1 ++ [":"%char] ++ pv ++ w2)) as Hhead.
  { repeat (apply Scans_app; try assumption).
    apply Scans_char; [exact Hk | reflexivity]. }
  destruct (Ascii.eqb d ",") eqn:Ed.
  - apply Ascii.eqb_eq in Ed. subst d.
    destruct (IH r' r H) as (p2 & -> & Hp2).
    exists ((w0 ++ (dq :: ps) ++ w1 ++ [":"%char] ++ pv ++ w2) ++ [","%char] ++ p2). split.
    + flatten_app. reflexivity.
    + apply Scans_app; [exact Hhead|]. apply Scans_app; [|exact Hp2].
      apply Scans_char; [exact Hk | reflexivity].
  - destruct (Ascii.eqb d "}") eqn:Ed'; [|discriminate H].
    apply Ascii.eqb_eq in Ed'. subst d. inversion H; subst r'.
    exists (w0 ++ (dq :: ps) ++ w1 ++ [":"%char] ++ pv ++ w2). split; [|exact Hhead].
    flatten_app. reflexivity.
Qed.

(** What follows an opening bracket in a value: text the scan goes over,
    then the closer of its kind. *)
Lemma object_scan :
  forall sc ec value n r0 r, bracketKind sc ec -> ValueScans sc ec value ->
    match skip_ws r0 with
    | d :: r' => if Ascii.eqb d "}" then Some r' else json_members value n r0
    | [] => None
    end = Some r ->
    exists p, r0 = p ++ "}"%char :: r /\ Scans sc ec p.
Proof.
  intros sc ec value n r0 r Hk Hv H.
  destruct (skip_ws r0) as [|d r'] eqn:E; [discriminate H|].
  destruct (Ascii.eqb d "}") eqn:Ed.
  - apply Ascii.eqb_eq in Ed. subst d. inversion H; subst r'.
    apply (skip_ws_split sc ec r0 _ _ Hk E).
  - apply (members_scan sc ec value Hk Hv n r0 r H).
Qed.

Lemma array_scan :
  forall sc ec value n r0 r, bracketKind sc ec -> ValueScans sc ec value ->
    match skip_ws r0 with
    | d :: r' => if Ascii.eqb d "]" then Some r' else json_elements value n r0
    | [] => None
    end = Some r ->
    exists p, r0 = p ++ "]"%char :: r /\ Scans sc ec p.
Proof.
  intros sc ec value n r0 r Hk Hv H.
  destruct (skip_ws r0) as [|d r'] eqn:E; [discriminate H|].
  destruct (Ascii.eqb d "]") eqn:Ed.
  - apply Ascii.eqb_eq in Ed. subst d. inversion H; subst r'.
    apply (skip_ws_split sc ec r0 _ _ Hk E).
  - apply (elements_scan sc ec value Hk Hv n r0 r H).
Qed.

Lemma step_scans :
  forall sc ec value n, bracketKind sc ec -> ValueScans sc ec value ->
    ValueScans sc ec (json_step value n).
Proof.
  intros sc ec value n Hk Hv s r H. unfold json_step in H.
  destruct (skip_ws s) as [|c r0] eqn:E0; [discriminate H|].
  destruct (skip_ws_split sc ec s c r0 Hk E0) as (w & -> & Hw).
  destruct (Ascii.eqb c "{") eqn:E1.
  { apply Ascii.eqb_eq in E1. subst c.
    destruct (object_scan sc ec value n r0 r Hk Hv H) as (p & -> & Hp).
    exists (w ++ "{"%char :: p ++ ["}"%char]). split.
    - flatten_app. reflexivity.
    - apply Scans_app; [exact Hw|]. apply Scans_braces; assumption. }
  destruct (Ascii.eqb c "[") eqn:E2.
  { apply Ascii.eqb_eq in E2. subst c.
    destruct (array_scan sc ec value n r0 r Hk Hv H) as (p & -> & Hp).
    exists (w ++ "["%char :: p ++ ["]"%char]). split.
    - flatten_app. reflexivity.
    - apply Scans_app; [exact Hw|]. apply Scans_squares; assumption. }
  destruct (Ascii.eqb c dq) eqn:E3.
  { apply Ascii.eqb_eq in E3. subst c.
    destruct (Scans_string sc ec r0 r Hk H) as (p & -> & Hp).
    exists (w ++ dq :: p). split; [rewrite <- app_assoc; reflexivity|].
    apply Scans_app; assumption. }
  destruct (json_literal (c :: r0)) as [r'|] eqn:E4.
  - inversion H; subst r'. destruct (json_literal_chars _ _ E4) as (p & Hs & Hp).
    exists (w ++ p). rewrite Hs, <- app_assoc. split; [reflexivity|].
    apply Scans_app; [exact Hw|]. apply Scans_plain; assumption.
  - destruct (json_number_chars _ _ H) as (p & Hs & Hp).
    exists (w ++ p). rewrite Hs, <- app_assoc. split; [reflexivity|].
    apply Scans_app; [exact Hw|]. apply Scans_plain; [exact Hk|].
    apply (forallb_impl numberChar); [exact numberChar_is_plain | exact Hp].
Qed.

Lemma value_scans :
  forall sc ec, bracketKind sc ec -> forall depth n, ValueScans sc ec (json_value depth n).
Proof.
  intros sc ec Hk. induction depth as [|depth IH]; intros n s r H; [discriminate H|].
  cbn [json_value] in H. apply (step_scans sc ec (json_value depth n) n Hk (IH n) s r H).
Qed.

(** A value that starts with the bracket the scan follows: the scan goes
    over what is inside, and the closer that ends the value is the one of
    the scan. *)
Lemma structure_scans :
  forall sc ec depth n w r,
    bracketKind sc ec ->
    json_value depth n (sc :: w) = Some r ->
    exists inner, w = inner ++ ec :: r /\ Scans sc ec inner.
Proof.
  intros sc ec depth n w r Hk H. destruct depth as [|depth]; [discriminate H|].
  cbn [json_value] in H. unfold json_step in H.
  pose proof (value_scans sc ec Hk depth n) as Hv.
  destruct Hk as [[-> ->]|[-> ->]].
  - change (skip_ws ("{"%char :: w)) with ("{"%char :: w) in H.
    cbn [Ascii.eqb Bool.eqb] in H.
    apply (object_scan "{"%char "}"%char (json_value depth n) n w r);
      [left; split; reflexivity | exact Hv | exact H].
  - change (skip_ws ("["%char :: w)) with ("["%char :: w) in H.
    cbn [Ascii.eqb Bool.eqb] in H.
    apply (array_scan "["%char "]"%char (json_value depth n) n w r);
      [right; split; reflexivity | exact Hv | exact H].
Qed.

Lemma scanStep_escapes :
  forall sc ec st c st', scanStep sc ec st c = Some st' -> escapesInString st'.
Proof.
  intros sc ec [b i e] c st' H. unfold scanStep in H. cbn [escapeNext inString balance] in H.
  destruct e; [inversion H; intro A; discriminate A|].
  destruct (Ascii.eqb c "\").
  { destruct i; [inversion H; intros _; reflexivity | discriminate H]. }
  cbv zeta in H.
  destruct (if Ascii.eqb c dq then negb i else i); [inversion H; intro A; discriminate A|].
  match type of H with
  | (if ?t then _ else _) = _ => destruct t; [discriminate H | inversion H; intro A; discriminate A]
  end.
Qed.

Lemma scanSteps_escapes :
  forall sc ec p st st',
    escapesInString st -> scanSteps sc ec st p = Some st' -> escapesInString st'.
Proof.
  intros sc ec. induction p as [|c p IH]; intros st st' Hst H.
  - inversion H; subst. exact Hst.
  - cbn [scanSteps] in H. destruct (scanStep sc ec st c) as [st1|] eqn:E; [|discriminate H].
    apply (IH st1 st' (scanStep_escapes sc ec st c st1 E) H).
Qed.

(** A run of closers that brings the scan to balance one, outside every
    string, started outside every string with as many structures more. *)
Lemma closers_scan :
  forall sc ec, bracketKind sc ec ->
  forall m st,
    escapesInString st ->
    scanSteps sc ec st (repeat_str [ec] m) = Some (mkScan 1 false false) ->
    st = mkScan (1 + Z.of_nat m) false false.
Proof.
  intros sc ec Hk. destruct (kind_chars sc ec Hk) as (_ & _ & E1 & E2 & E3).
  induction m as [|m IH]; intros st Hst H.
  - cbn in H. inversion H. reflexivity.
  - cbn [repeat_str app scanSteps] in H.
    destruct (scanStep sc ec st ec) as [st1|] eqn:E; [|discriminate H].
    pose proof (IH st1 (scanStep_escapes sc ec st ec st1 E) H) as ->.
    destruct st as [b i e]. unfold scanStep in E. cbn [escapeNext inString balance] in E.
    destruct e.
    { inversion E; subst. specialize (Hst eq_refl). discriminate Hst. }
    rewrite E2, E3, E1, Ascii.eqb_refl in E.
    destruct i; [discriminate E|].
    destruct (b - 1 =? 0)%Z; [discriminate E|].
    injection E as Eb. change (b - 1 = 1 + Z.of_nat m)%Z in Eb. f_equal. lia.
Qed.

Lemma repeat_str_snoc :
  forall (c : ascii) n, repeat_str [c] (S n) = repeat_str [c] n ++ [c].
Proof.
  intros c. induction n as [|n IH]; [reflexivity|].
  change (c :: repeat_str [c] (S n) = c :: (repeat_str [c] n ++ [c])).
  f_equal. exact IH.
Qed.

Lemma index_from_skip :
  forall x prose s i,
    forallb (fun y => negb (Ascii.eqb x y)) prose = true ->
    index_from i [x] (prose ++ s) = index_from (i + length prose) [x] s.
Proof.
  intros x. induction prose as [|y prose IH]; intros s i H.
  - cbn. rewrite Nat.add_0_r. reflexivity.
  - cbn [forallb] in H. apply andb_true_iff in H. destruct H as [Hy H].
    apply negb_true_iff in Hy.
    cbn [app index_from length]. unfold starts_with. cbn [strip_prefix]. rewrite Hy.
    rewrite (IH s (S i) H). f_equal. lia.
Qed.

Lemma index_from_ge : forall t s i j, index_from i t s = Some j -> i <= j.
Proof.
  intros t. induction s as [|x s IH]; intros i j H; cbn [index_from] in H.
  - destruct (starts_with t []); [inversion H; lia | discriminate H].
  - destruct (starts_with t (x :: s)); [inversion H; lia|].
    apply IH in H. lia.
Qed.

Lemma noBracket_chars :
  forall prose, forallb noBracket prose = true ->
    forallb (fun y => negb (Ascii.eqb "{" y)) prose = true
    /\ forallb (fun y => negb (Ascii.eqb "[" y)) prose = true.
Proof.
  intros prose H. split; apply (forallb_impl noBracket); try exact H;
    intros c Hc; unfold noBracket, one_of in Hc; cbn [lit list_ascii_of_string existsb] in Hc;
    apply negb_true_iff in Hc; apply orb_false_iff in Hc; destruct Hc as [A Hc];
    apply orb_false_iff in Hc; destruct Hc as [B _];
    rewrite Ascii.eqb_sym; [rewrite A | rewrite B]; reflexivity.
Qed.

(** Lines 521-532: the scan starts at the first bracket. *)
Lemma start_of_structure :
  forall prose sc ec rest,
    bracketKind sc ec -> forallb noBracket prose = true ->
    minOpt (indexOf (lit "{") (prose ++ sc :: rest)) (indexOf (lit "[") (prose ++ sc :: rest))
    = Some (length prose).
Proof.
  intros prose sc ec rest Hk Hp. destruct (noBracket_chars prose Hp) as [H1 H2].
  unfold indexOf. change (lit "{") with ["{"%char]. change (lit "[") with ["["%char].
  rewrite (index_from_skip _ prose _ 0 H1), (index_from_skip _ prose _ 0 H2).
  cbn [Nat.add].
  destruct Hk as [[-> _]|[-> _]].
  - rewrite (index_from_here ["{"%char]) by reflexivity.
    destruct (index_from (length prose) ["["%char] ("{"%char :: rest)) as [j|] eqn:E;
      [|reflexivity].
    apply index_from_ge in E. cbn [minOpt]. rewrite Nat.min_l by exact E. reflexivity.
  - rewrite (index_from_here ["["%char]) by reflexivity.
    destruct (index_from (length prose) ["{"%char] ("["%char :: rest)) as [j|] eqn:E;
      [|reflexivity].
    apply index_from_ge in E. cbn [minOpt]. rewrite Nat.min_r by exact E. reflexivity.
Qed.

Lemma isJsonValue_parses : forall v, isJsonValue v = true -> jsonParses v = true.
Proof.
  intros v H. unfold isJsonValue in H. unfold jsonParses.
  destruct (json_value (S (length v)) (S (length v)) v) as [[|c r]|]; try discriminate H.
  reflexivity.
Qed.

Lemma skipn_length_app : forall (a b : str), skipn (length a) (a ++ b) = b.
Proof. induction a as [|x a IH]; intro b; [reflexivity | apply IH]. Qed.

Lemma firstn_length_app : forall (a b : str), firstn (length a) (a ++ b) = a.
Proof. induction a as [|x a IH]; intro b; [reflexivity | cbn; f_equal; apply IH]. Qed.

(** The recovery of lines 508-589: when the cleaned text is some prose
    without a bracket, then a JSON object or array that may have lost
    closers of its own kind at the very end, the candidate is that object
    or array, closed again. *)
Lemma extractJson_recovers :
  forall text prose opener closer w tail k,
    jsonParses text = false ->
    bracketKind opener closer ->
    cleanUp text = prose ++ (opener :: w) ++ tail ->
    forallb noBracket prose = true ->
    isJsonValue (opener :: w ++ repeat_str [closer] k) = true ->
    k = 0 \/ tail = [] ->
    extractJson text = Ok (opener :: w ++ repeat_str [closer] k).
Proof.
  intros text prose opener closer w tail k Hnp Hk Hc Hp Hv Hcut.
  assert (truthy text = true) as Ht.
  { destruct text; [|reflexivity]. exfalso.
    change (cleanUp []) with (@nil ascii) in Hc. destruct prose; discriminate Hc. }
  pose proof (isJsonValue_parses _ Hv) as Hparses.
  unfold extractJson. rewrite Ht, Hnp, Hc. cbn [negb].
  change (prose ++ (opener :: w) ++ tail) with (prose ++ opener :: (w ++ tail)).
  rewrite (start_of_structure prose opener closer (w ++ tail) Hk Hp).
  cbv zeta. rewrite skipn_length_app. cbn [nth tl].
  replace (if Ascii.eqb opener "{" then "}"%char else "]"%char) with closer
    by (destruct Hk as [[-> ->]|[-> ->]]; reflexivity).
  destruct (kind_chars opener closer Hk) as (_ & _ & E1 & E2 & E3).
  unfold isJsonValue in Hv.
  destruct (json_value (S (length (opener :: w ++ repeat_str [closer] k)))
              (S (length (opener :: w ++ repeat_str [closer] k)))
              (opener :: w ++ repeat_str [closer] k)) as [[|c r]|] eqn:Ev;
    try discriminate Hv.
  destruct (structure_scans opener closer _ _ _ _ Hk Ev) as (inner & Hinner & Hscans).
  assert (calm (mkScan 1 false false)) as Hcalm by (repeat split; cbn; try reflexivity; lia).
  destruct k as [|k].
  - cbn [repeat_str] in *. rewrite app_nil_r in Hinner, Hparses |- *. subst w.
    rewrite <- app_assoc.
    rewrite (findEnd_steps opener closer inner _ _ 1 ([closer] ++ tail)
               (Hscans _ Hcalm)).
    cbn [app findEnd escapeNext inString balance]. rewrite E2, E3, E1, Ascii.eqb_refl.
    cbn [Z.sub Z.add Z.opp Z.pos_sub Z.eqb].
    unfold substring. cbn [skipn].
    replace (1 + length inner + 1 - 0) with (length (opener :: inner ++ [closer]))
      by (cbn [length]; rewrite length_app; cbn [length]; lia).
    change (opener :: inner ++ closer :: tail) with ((opener :: inner ++ [closer]) ++ tail)
      || (replace (opener :: inner ++ closer :: tail)
            with ((opener :: inner ++ [closer]) ++ tail)
            by (cbn [app]; rewrite <- app_assoc; reflexivity)).
    rewrite firstn_length_app. rewrite Hparses. reflexivity.
  - destruct Hcut as [Hcut | ->]; [discriminate Hcut|].
    rewrite repeat_str_snoc, app_assoc in Hinner.
    apply app_inj_tail in Hinner. destruct Hinner as [Hinner _]. subst inner.
    specialize (Hscans _ Hcalm). rewrite scanSteps_app in Hscans.
    destruct (scanSteps opener closer (mkScan 1 false false) w) as [st'|] eqn:Ew;
      [|discriminate Hscans].
    assert (escapesInString st') as Hwf.
    { apply (scanSteps_escapes opener closer w (mkScan 1 false false) st');
        [intro A; discriminate A | exact Ew]. }
    pose proof (closers_scan opener closer Hk k st' Hwf Hscans) as ->.
    rewrite app_nil_r.
    assert (findEnd opener closer (mkScan 1 false false) 1 w = inr (1 + Z.of_nat k)%Z) as ->.
    { rewrite <- (app_nil_r w) at 1.
      rewrite (findEnd_steps opener closer w _ _ 1 [] Ew). reflexivity. }
    replace (0 <? 1 + Z.of_nat k)%Z with true by (symmetry; apply Z.ltb_lt; lia).
    replace (Z.to_nat (1 + Z.of_nat k)) with (S k) by lia.
    change ((opener :: w) ++ repeat_str [closer] (S k))
      with (opener :: w ++ repeat_str [closer] (S k)).
    rewrite Hparses. reflexivity.
Qed.

(* ------------------------------------------------------------------ *)
(** ** The clean-up of the JSON extractor *)

(** A pattern that matches at no position of a text leaves it as it is. *)
Lemma chunks_no_match :
  forall ci r t b,
    (forall n b', exec ci r b' (skipn n t) = None) ->
    chunks ci r b t 0 = map Plain t.
Proof.
  intros ci r. induction t as [|x t IH]; intros b H.
  - cbn [chunks]. pose proof (H 0 b) as H0. cbn [skipn] in H0. rewrite H0. reflexivity.
  - cbn [chunks]. pose proof (H 0 b) as H0. cbn [skipn] in H0. rewrite H0. cbn [map]. f_equal.
    apply IH. intros n b'. exact (H (S n) b').
Qed.

Lemma concat_plain : forall f t, concat (map (emit f) (map Plain t)) = t.
Proof. intros f. induction t as [|x t IH]; [reflexivity|]. cbn. f_equal. exact IH. Qed.

Lemma replaceAll_no_match :
  forall ci r f t,
    (forall n b, exec ci r b (skipn n t) = None) -> replaceAll ci r f t = t.
Proof.
  intros ci r f t H. unfold replaceAll, scan. rewrite (chunks_no_match ci r t [] H).
  apply concat_plain.
Qed.

Lemma search_from_no_match :
  forall ci r t b,
    (forall n b', exec ci r b' (skipn n t) = None) -> search_from ci r b t = None.
Proof.
  intros ci r. induction t as [|x t IH]; intros b H.
  - cbn [search_from]. pose proof (H 0 b) as H0. cbn [skipn] in H0. rewrite H0. reflexivity.
  - cbn [search_from]. pose proof (H 0 b) as H0. cbn [skipn] in H0. rewrite H0. apply IH. intros n b'. exact (H (S n) b').
Qed.

Lemma replaceFirst_no_match :
  forall ci r f t,
    (forall n b, exec ci r b (skipn n t) = None) -> replaceFirst ci r f t = t.
Proof.
  intros ci r f t H. unfold replaceFirst. rewrite (search_from_no_match ci r t [] H).
  reflexivity.
Qed.

Lemma forallb_skipn :
  forall (p : ascii -> bool) n t, forallb p t = true -> forallb p (skipn n t) = true.
Proof.
  intros p. induction n as [|n IH]; intros [|x t] H; try exact H.
  cbn [skipn]. apply IH. cbn [forallb] in H. apply andb_true_iff in H. apply H.
Qed.

Lemma canon_backquote :
  forall x, noBackquote x = true -> Ascii.eqb (canon_char "`") (canon_char x) = false.
Proof. intros [[] [] [] [] [] [] [] []]; cbn; intro H; try reflexivity; discriminate H. Qed.

Lemma lits_no_backquote :
  forall (R : Type) ci s m a (k : str -> str -> option R),
    forallb noBackquote a = true -> lits ci ("`"%char :: s) m a k = None.
Proof.
  intros R ci s m [|x a] k H; [reflexivity|].
  cbn [forallb] in H. apply andb_true_iff in H. destruct H as [Hx _].
  cbn [lits]. unfold chr_eq. destruct ci.
  - rewrite (canon_backquote x Hx). reflexivity.
  - unfold noBackquote in Hx. apply negb_true_iff in Hx.
    rewrite Ascii.eqb_sym, Hx. reflexivity.
Qed.

Lemma star_no_backquote :
  forall (R : Type) p a m (k : str -> str -> option R),
    (forall m' a', forallb noBackquote a' = true -> k m' a' = None) ->
    forallb noBackquote a = true ->
    star p m a k = None.
Proof.
  intros R p. induction a as [|x a IH]; intros m k Hk Ha.
  - cbn [star]. apply Hk. reflexivity.
  - cbn [star]. pose proof Ha as Ha'. cbn [forallb] in Ha'.
    apply andb_true_iff in Ha'. destruct Ha' as [_ Ha'].
    rewrite (IH (x :: m) k Hk Ha'). rewrite (Hk m (x :: a) Ha).
    destruct (p x); reflexivity.
Qed.

(** The four fence patterns of lines 510-515 need a backquote. *)
Lemma fences_need_backquote :
  forall a b,
    forallb noBackquote a = true ->
    exec false openingFenceRe b a = None
    /\ exec false closingFenceRe b a = None
    /\ exec true jsonFenceRe b a = None
    /\ exec false anyFenceRe b a = None.
Proof.
  intros a b Ha. unfold exec, openingFenceRe, closingFenceRe, jsonFenceRe, anyFenceRe, seqs, fence.
  cbn [fold_right run lit list_ascii_of_string].
  repeat split.
  - destruct (previous b []); [reflexivity|]. apply lits_no_backquote. exact Ha.
  - apply star_no_backquote; [|exact Ha]. intros m' a' Ha'. apply lits_no_backquote. exact Ha'.
  - apply lits_no_backquote. exact Ha.
  - apply lits_no_backquote. exact Ha.
Qed.

Lemma space_is_no_closer : forall x, is_space x = true -> closer x = false.
Proof. intros [[] [] [] [] [] [] [] []]; cbn; intro H; try reflexivity; discriminate H. Qed.

Lemma closer_is_no_space : forall x, closer x = true -> is_space x = false.
Proof. intros [[] [] [] [] [] [] [] []]; cbn; intro H; try reflexivity; discriminate H. Qed.

Lemma space_is_no_comma : forall x, is_space x = true -> Ascii.eqb x "," = false.
Proof. intros [[] [] [] [] [] [] [] []]; cbn; intro H; try reflexivity; discriminate H. Qed.

Lemma closer_is_no_comma : forall x, closer x = true -> Ascii.eqb x "," = false.
Proof. intros [[] [] [] [] [] [] [] []]; cbn; intro H; try reflexivity; discriminate H. Qed.

Lemma star_then_no_closer :
  forall (R : Type) a m (k : str -> str -> option R),
    (forall m' a', match a' with y :: _ => closer y | [] => false end = false ->
                   k m' a' = None) ->
    match drop_while is_space a with d :: _ => closer d | [] => false end = false ->
    star is_space m a k = None.
Proof.
  intros R. induction a as [|x a IH]; intros m k Hk Ha.
  - cbn [star]. apply Hk. reflexivity.
  - cbn [star]. cbn [drop_while] in Ha. destruct (is_space x) eqn:Ex.
    + rewrite (IH (x :: m) k Hk Ha). apply Hk. apply space_is_no_closer. exact Ex.
    + apply Hk. exact Ha.
Qed.

(** The pattern of line 518 matches at a comma that has a closing bracket
    next behind it, white space apart, and nowhere else. *)
Lemma exec_no_trailing_comma :
  forall x a b,
    (Ascii.eqb x ","
     && match drop_while is_space a with d :: _ => closer d | [] => false end)%bool = false ->
    exec false trailingCommaRe b (x :: a) = None.
Proof.
  intros x a b H.
  unfold exec, trailingCommaRe, seqs. cbn [fold_right run lit list_ascii_of_string lits].
  unfold chr_eq. rewrite Ascii.eqb_sym.
  destruct (Ascii.eqb x ",") eqn:Ex; [|reflexivity].
  cbn [andb] in H.
  apply star_then_no_closer; [|exact H].
  intros m' [|y a'] Hy; [reflexivity|]. rewrite Hy. reflexivity.
Qed.

Lemma exec_trailing_comma :
  forall sp d rest b,
    forallb is_space sp = true -> closer d = true ->
    exec false trailingCommaRe b (","%char :: sp ++ d :: rest)
    = Some (mkHit (","%char :: sp ++ [d]) [sp ++ [d]] rest).
Proof.
  intros sp d rest b Hsp Hd.
  unfold exec, trailingCommaRe, seqs. cbn [fold_right run lit list_ascii_of_string lits].
  unfold chr_eq. cbn [Ascii.eqb Bool.eqb].
  erewrite star_until; [reflexivity | exact Hsp | apply closer_is_no_space; exact Hd |].
  cbn [run]. rewrite Hd. f_equal.
  assert (consumed [","%char] (d :: rev sp ++ [","%char]) = sp ++ [d]) as ->.
  { unfold consumed.
    replace (length (d :: rev sp ++ [","%char]) - length [","%char])
      with (length (d :: rev sp))
      by (cbn [length]; rewrite length_app; cbn [length]; lia).
    change (d :: rev sp ++ [","%char]) with ((d :: rev sp) ++ [","%char]).
    rewrite firstn_length_app. cbn [rev]. rewrite rev_involutive. reflexivity. }
  cbn [rev app]. rewrite rev_app_distr, rev_involutive. reflexivity.
Qed.

Lemma withoutTrailingCommas_keeps :
  forall u s,
    forallb (fun c => negb (Ascii.eqb c ",")) u = true ->
    withoutTrailingCommas (u ++ s) = u ++ withoutTrailingCommas s.
Proof.
  induction u as [|c u IH]; intros s H; [reflexivity|].
  cbn [forallb] in H. apply andb_true_iff in H. destruct H as [Hc H].
  apply negb_true_iff in Hc. cbn [app withoutTrailingCommas]. rewrite Hc.
  cbn [andb]. f_equal. apply IH. exact H.
Qed.

(** Line 518 drops the trailing commas, and nothing else. *)
Lemma trailing_commas_are_dropped :
  forall n a b,
    length a <= n ->
    concat (map (emit (fun h => cap 1 h)) (chunks false trailingCommaRe b a 0))
    = withoutTrailingCommas a.
Proof.
  induction n as [|n IH]; intros a b Hn.
  - destruct a; [reflexivity | cbn in Hn; lia].
  - destruct a as [|x a]; [reflexivity|]. cbn [length] in Hn.
    cbn [withoutTrailingCommas].
    destruct (Ascii.eqb x ","
              && match drop_while is_space a with d :: _ => closer d | [] => false end)%bool
      eqn:E.
    + apply andb_true_iff in E. destruct E as [Ex Ed]. apply Ascii.eqb_eq in Ex. subst x.
      destruct (drop_while is_space a) as [|d rest] eqn:Ea; [discriminate Ed|].
      destruct (drop_while_prefix is_space a) as (sp & Hsp & Hspaces).
      rewrite Ea in Hsp. subst a.
      change (","%char :: sp ++ d :: rest) with ((","%char :: sp) ++ d :: rest).
      replace ((","%char :: sp) ++ d :: rest) with ((","%char :: sp ++ [d]) ++ rest)
        by (cbn [app]; rewrite <- app_assoc; reflexivity).
      rewrite (chunks_hit false trailingCommaRe b ","%char (sp ++ [d]) rest
                 (mkHit (","%char :: sp ++ [d]) [sp ++ [d]] rest)).
      * cbn [map concat emit cap h_caps nth Nat.sub].
        rewrite IH by (rewrite length_app in Hn; cbn [length] in Hn; lia).
        rewrite <- app_assoc. cbn [app].
        rewrite (withoutTrailingCommas_keeps sp (d :: rest)).
        -- cbn [withoutTrailingCommas]. rewrite (closer_is_no_comma d Ed). reflexivity.
        -- apply (forallb_impl is_space); [|exact Hspaces].
           intros c Hc. rewrite (space_is_no_comma c Hc). reflexivity.
      * rewrite <- app_assoc. cbn [app]. apply exec_trailing_comma; assumption.
      * reflexivity.
    + cbn [chunks]. rewrite (exec_no_trailing_comma x a b E).
      cbn [map concat emit app]. f_equal. apply IH. lia.
Qed.

Lemma forallb_drop_while :
  forall (p q : ascii -> bool) t, forallb p t = true -> forallb p (drop_while q t) = true.
Proof.
  intros p q t H. destruct (drop_while_prefix q t) as (w & Hw & _).
  rewrite Hw, forallb_app in H. apply andb_true_iff in H. apply H.
Qed.

Lemma forallb_rev :
  forall (p : ascii -> bool) t, forallb p t = true -> forallb p (rev t) = true.
Proof.
  intros p t H. rewrite forallb_forall in *. intros x Hx. apply H, in_rev, Hx.
Qed.

Lemma forallb_trim :
  forall (p : ascii -> bool) t, forallb p t = true -> forallb p (trim t) = true.
Proof.
  intros p t H. unfold trim.
  apply forallb_rev, forallb_drop_while, forallb_rev, forallb_drop_while, H.
Qed.

(** Lines 514-518 on a text without backquotes: the trailing commas go,
    and nothing else. *)
Lemma cleanUp_after_fences :
  forall t t1,
    trim (replaceFirst false closingFenceRe nothing
            (replaceFirst false openingFenceRe nothing t)) = t1 ->
    forallb noBackquote t1 = true ->
    cleanUp t = withoutTrailingCommas t1.
Proof.
  intros t t1 Ht Hq. unfold cleanUp. rewrite Ht.
  rewrite (replaceAll_no_match true jsonFenceRe nothing t1)
    by (intros n b; apply fences_need_backquote, forallb_skipn, Hq).
  rewrite (replaceAll_no_match false anyFenceRe nothing t1)
    by (intros n b; apply fences_need_backquote, forallb_skipn, Hq).
  unfold replaceAll, scan. apply (trailing_commas_are_dropped (length t1)). apply le_n.
Qed.

(** Lines 509-518 on a text without backquotes: the text is trimmed and
    loses its trailing commas. *)
Lemma cleanUp_plain :
  forall t, forallb noBackquote t = true -> cleanUp t = withoutTrailingCommas (trim t).
Proof.
  intros t Hq. apply cleanUp_after_fences; [|apply forallb_trim; exact Hq].
  rewrite (replaceFirst_no_match false openingFenceRe nothing t)
    by (intros n b; apply fences_need_backquote, forallb_skipn, Hq).
  rewrite (replaceFirst_no_match false closingFenceRe nothing t)
    by (intros n b; apply fences_need_backquote, forallb_skipn, Hq).
  reflexivity.
Qed.

Lemma drop_while_stops :
  forall (p : ascii -> bool) u x r,
    p x = false -> drop_while p (u ++ x :: r) = drop_while p u ++ x :: r.
Proof.
  intros p. induction u as [|y u IH]; intros x r Hx.
  - cbn [app drop_while]. rewrite Hx. reflexivity.
  - cbn [app drop_while]. destruct (p y); [apply IH; exact Hx | reflexivity].
Qed.

(** Trimming takes the white space around a text that has a character
    which is not white space. *)
Lemma trim_around :
  forall u x mid y v,
    is_space x = false -> is_space y = false ->
    trim (u ++ (x :: mid ++ [y]) ++ v)
    = drop_while is_space u ++ (x :: mid ++ [y]) ++ rev (drop_while is_space (rev v)).
Proof.
  intros u x mid y v Hx Hy. unfold trim.
  change (u ++ (x :: mid ++ [y]) ++ v) with (u ++ x :: ((mid ++ [y]) ++ v)).
  rewrite (drop_while_stops is_space u x _ Hx).
  replace (rev (drop_while is_space u ++ x :: (mid ++ [y]) ++ v))
    with (rev v ++ y :: rev (drop_while is_space u ++ x :: mid)).
  - rewrite (drop_while_stops is_space (rev v) y _ Hy).
    rewrite rev_app_distr. cbn [rev]. rewrite rev_involutive.
    rewrite <- !app_assoc. cbn [app]. rewrite <- !app_assoc. reflexivity.
  - rewrite !rev_app_distr. cbn [rev]. rewrite !rev_app_distr. cbn [rev app].
    rewrite <- !app_assoc. cbn [app]. reflexivity.
Qed.

Lemma search_closing_fence_after :
  forall ws x, forallb is_space ws = true -> is_space x = false ->
  forall w b,
    search_from false closingFenceRe b (w ++ [x] ++ ws ++ fence)
      = Some (rev b ++ w ++ [x], mkHit (ws ++ fence) [] []).
Proof.
  intros ws x Hws Hx.
  assert (forall b t, exec false closingFenceRe b (t ++ [x] ++ ws ++ fence) = None) as Hfail.
  { intros b t. destruct (exec false closingFenceRe b (t ++ [x] ++ ws ++ fence)) as [h|] eqn:E;
      [|reflexivity].
    apply exec_closing_fence_spec in E. destruct E as (u & E & Hu).
    rewrite !app_assoc in E. apply app_inv_tail in E. subst u.
    rewrite !forallb_app in Hu. cbn [forallb] in Hu. rewrite Hx in Hu.
    rewrite andb_false_l, andb_false_r in Hu. cbn in Hu.
    rewrite ?andb_false_r in Hu. discriminate Hu. }
  induction w as [|y w IH]; intro b.
  - cbn [app].
    rewrite search_from_next by exact (Hfail b []).
    rewrite (search_from_here _ _ _ _ _ (exec_closing_fence _ ws Hws)).
    reflexivity.
  - cbn [app]. rewrite search_from_next by exact (Hfail b (y :: w)).
    rewrite IH. cbn [rev]. rewrite <- app_assoc. reflexivity.
Qed.

Lemma space_is_no_j : forall x, is_space x = true -> Ascii.eqb "j" x = false.
Proof. intros [[] [] [] [] [] [] [] []]; cbn; intro H; try reflexivity; discriminate H. Qed.

(** The pattern of line 510 takes the opening fence, its language tag and
    the white space behind it. *)
Lemma exec_opening_fence :
  forall lang ws x rest,
    lang = [] \/ lang = lit "json" ->
    forallb is_space ws = true -> is_space x = false -> Ascii.eqb "j" x = false ->
    exec false openingFenceRe [] (fence ++ lang ++ ws ++ x :: rest)
    = Some (mkHit (fence ++ lang ++ ws) [] (x :: rest)).
Proof.
  intros lang ws x rest Hlang Hws Hx Hj.
  unfold exec, openingFenceRe, seqs.
  cbn [fold_right run previous].
  rewrite lits_exact, strip_prefix_self.
  destruct Hlang as [-> | ->].
  - cbn [app rev]. rewrite lits_exact.
    assert (strip_prefix (lit "json") (ws ++ x :: rest) = None) as Hno.
    { destruct ws as [|s ws]; cbn [app lit list_ascii_of_string strip_prefix].
      - rewrite Hj. reflexivity.
      - cbn [forallb] in Hws. apply andb_true_iff in Hws. destruct Hws as [Hs _].
        rewrite (space_is_no_j s Hs). reflexivity. }
    rewrite Hno.
    erewrite star_until; [reflexivity | exact Hws | exact Hx |].
    cbn [run]. rewrite app_nil_r, rev_app_distr, !rev_involutive. reflexivity.
  - rewrite lits_exact, strip_prefix_self.
    erewrite star_until; [reflexivity | exact Hws | exact Hx |].
    cbn [run].
    rewrite app_nil_r, !rev_app_distr, !rev_involutive, <- app_assoc. reflexivity.
Qed.

(** Lines 509-518 on a text in a markdown fence, with or without the
    language tag [json]: when the text starts with a bracket, does not end
    with white space and has no backquote, what is left is the text without
    its trailing commas. *)
Lemma cleanUp_fenced :
  forall lang ws1 ws2 opener mid y,
    lang = [] \/ lang = lit "json" ->
    forallb is_space ws1 = true -> forallb is_space ws2 = true ->
    opener = "{"%char \/ opener = "["%char ->
    is_space y = false ->
    forallb noBackquote (opener :: mid ++ [y]) = true ->
    cleanUp (fence ++ lang ++ ws1 ++ (opener :: mid ++ [y]) ++ ws2 ++ fence)
    = withoutTrailingCommas (opener :: mid ++ [y]).
Proof.
  intros lang ws1 ws2 opener mid y Hlang H1 H2 Ho Hy Hq.
  assert (is_space opener = false /\ Ascii.eqb "j" opener = false) as [Hs Hj]
    by (destruct Ho as [-> | ->]; split; reflexivity).
  apply cleanUp_after_fences; [|exact Hq].
  unfold replaceFirst at 2.
  change ((opener :: mid ++ [y]) ++ ws2 ++ fence)
    with (opener :: (mid ++ [y]) ++ ws2 ++ fence).
  rewrite (search_from_here _ _ _ _ _
             (exec_opening_fence lang ws1 opener _ Hlang H1 Hs Hj)).
  cbn [rev app nothing h_rest]. unfold replaceFirst.
  replace (opener :: (mid ++ [y]) ++ ws2 ++ fence)
    with ((opener :: mid) ++ [y] ++ ws2 ++ fence)
    by (cbn [app]; rewrite <- app_assoc; reflexivity).
  rewrite (search_closing_fence_after ws2 y H2 Hy (opener :: mid) []).
  cbn [rev app nothing h_rest]. rewrite !app_nil_r.
  pose proof (trim_around [] opener mid y [] Hs Hy) as Ht.
  cbn [app rev drop_while] in Ht. rewrite app_nil_r in Ht. exact Ht.
Qed.

(** C5, amended.  Whatever [extractJson] returns parses as JSON, and a text
    that parses is returned as it is.  A text that does not parse is
    recovered whenever its cleaned form (lines 509-518) is some text without
    [{] and [[], then a JSON object or array that is either complete,
    whatever follows it, or has lost [k] closers of its own kind at the very
    end of the text: [extractJson] then returns that object or array, with
    the [k] closers put back, and it parses.  The cleaned form of a text
    without backquotes is the trimmed text without its trailing commas, and
    so is the cleaned form of such a text in a markdown fence, with or
    without the language tag [json], when it starts with a bracket. *)
Theorem extractJson_returns_parseable :
  (forall text s, extractJson text = Ok s -> jsonParses s = true)
  /\ (forall text, truthy text = true -> jsonParses text = true -> extractJson text = Ok text)
  /\ (forall text prose opener closer w tail k,
        jsonParses text = false ->
        bracketKind opener closer ->
        cleanUp text = prose ++ (opener :: w) ++ tail ->
        forallb noBracket prose = true ->
        isJsonValue (opener :: w ++ repeat_str [closer] k) = true ->
        k = 0 \/ tail = [] ->
        extractJson text = Ok (opener :: w ++ repeat_str [closer] k)
        /\ jsonParses (opener :: w ++ repeat_str [closer] k) = true)
  /\ (forall text,
        forallb noBackquote text = true ->
        cleanUp text = withoutTrailingCommas (trim text))
  /\ (forall lang ws1 ws2 opener mid last,
        lang = [] \/ lang = lit "json" ->
        forallb is_space ws1 = true -> forallb is_space ws2 = true ->
        opener = "{"%char \/ opener = "["%char ->
        is_space last = false ->
        forallb noBackquote (opener :: mid ++ [last]) = true ->
        cleanUp (lit "```" ++ lang ++ ws1 ++ (opener :: mid ++ [last]) ++ ws2 ++ lit "```")
        = withoutTrailingCommas (opener :: mid ++ [last])).
Proof.
  split; [exact extractJson_sound|]. split; [|split; [|split]].
  - intros text Ht Hp. unfold extractJson. rewrite Ht, Hp. reflexivity.
  - intros text prose opener closer w tail k Hnp Hk Hc Hp Hv Hcut.
    split; [|apply isJsonValue_parses; exact Hv].
    apply (extractJson_recovers text prose opener closer w tail k); assumption.
  - exact cleanUp_plain.
  - exact cleanUp_fenced.
Qed.

Lemma extractJson_returns_parseable_witness :
  (extractJson withPreamble = Ok goodJson
   /\ extractJson fenced = Ok goodJson
   /\ extractJson withTrailingCommas = Ok goodJson
   /\ extractJson cutBraces = Ok goodJson
   /\ extractJson (goodJson ++ lit " I hope this helps {really}.") = Ok goodJson)
  /\ jsonParses withPreamble = false /\ jsonParses fenced = false
  /\ jsonParses withTrailingCommas = false /\ jsonParses cutBraces = false.
Proof.
  destruct extractJson_returns_parseable as (_ & _ & Hrecovers & Hplain & Hfenced).
  split; [|repeat split; vm_compute; reflexivity].
  split; [|split; [|split; [|split]]].
  - apply (Hrecovers withPreamble (lit "Sure, here is the JSON you asked for: ")
             "{"%char "}"%char (tl goodJson) [] 0).
    + vm_compute. reflexivity.
    + left. split; reflexivity.
    + rewrite Hplain by reflexivity. vm_compute. reflexivity.
    + reflexivity.
    + vm_compute. reflexivity.
    + left. reflexivity.
  - apply (Hrecovers fenced [] "{"%char "}"%char (tl goodJson) [] 0).
    + vm_compute. reflexivity.
    + left. split; reflexivity.
    + change fenced
        with (lit "```" ++ lit "json" ++ newline
                ++ ("{"%char :: removelast (tl goodJson) ++ ["}"%char])
                ++ newline ++ lit "```").
      rewrite Hfenced;
        [vm_compute; reflexivity | right; reflexivity | reflexivity | reflexivity
         | left; reflexivity | reflexivity | reflexivity].
    + reflexivity.
    + vm_compute. reflexivity.
    + left. reflexivity.
  - apply (Hrecovers withTrailingCommas [] "{"%char "}"%char (tl goodJson) [] 0).
    + vm_compute. reflexivity.
    + left. split; reflexivity.
    + rewrite Hplain by reflexivity. vm_compute. reflexivity.
    + reflexivity.
    + vm_compute. reflexivity.
    + left. reflexivity.
  - apply (Hrecovers cutBraces [] "{"%char "}"%char (tl cutBraces) [] 3).
    + vm_compute. reflexivity.
    + left. split; reflexivity.
    + rewrite Hplain by reflexivity. vm_compute. reflexivity.
    + reflexivity.
    + vm_compute. reflexivity.
    + right. reflexivity.
  - apply (Hrecovers (goodJson ++ lit " I hope this helps {really}.") [] "{"%char "}"%char
             (tl goodJson) (lit " I hope this helps {really}.") 0).
    + vm_compute. reflexivity.
    + left. split; reflexivity.
    + rewrite Hplain by reflexivity. vm_compute. reflexivity.
    + reflexivity.
    + vm_compute. reflexivity.
    + left. reflexivity.
Defined.
